(* Shallow embedding of gcc/cgraphunit.c: the compilation-unit driver of
   the callgraph (function finalization, reference walking, edge building,
   function analysis, the unit driver, the emission scheduler, expansion and
   the static constructor/destructor synthesizer).

   Conventions.
   - A failing gcc_assert / gcc_unreachable / internal_error is [None] in the
     option monad below.
   - Tree nodes, declarations and callgraph nodes are named by numbers; the
     node store, the declaration tables and the varpool are total maps.
   - The linked worklists threaded through next_needed are lists; popping the
     head of the list is the "cgraph_nodes_queue = queue->next_needed;
     node->next_needed = NULL" pair of the source.
   - Collaborators that live outside this file (the lowering passes, the
     back-end, the inliner oracles, the front-end hooks, cgraph_postorder)
     are fields of a [hooks] record; command-line flags and target macros are
     fields of an [options] record. *)

From Stdlib Require Import List String Ascii ZArith Bool Arith Lia.
Set Warnings "-register-all".
Import ListNotations.

(** * Option monad for assertion failures *)

Definition bind {A B} (m : option A) (k : A -> option B) : option B :=
  match m with Some a => k a | None => None end.
Notation "x <- m ;; k" := (bind m (fun x => k))
  (at level 61, m at next level, right associativity).
Definition gcc_assert (b : bool) : option unit := if b then Some tt else None.

(** * Trees *)

Inductive tree_code :=
| VAR_DECL (d : nat)
| FUNCTION_DECL (d : nat)
| ADDR_EXPR
| FDESC_EXPR
| CALL_EXPR
| MODIFY_EXPR
| ERROR_MARK
| BLOCK
| OTHER_DECL (k : nat)       (* PARM_DECL, LABEL_DECL, ... *)
| TYPE_NODE (k : nat)        (* INTEGER_TYPE, POINTER_TYPE, ... *)
| EXPR_CODE (k : nat).       (* any other code, by its number *)

(* A tree node: a unique identity (its address), a code and its operands. *)
Inductive tree := Tree (uid : nat) (code : tree_code) (ops : list tree).

Definition TREE_CODE (t : tree) : tree_code := let (_, c, _) := t in c.
Definition tree_uid (t : tree) : nat := let (u, _, _) := t in u.
Definition tree_ops (t : tree) : list tree := let (_, _, o) := t in o.
Definition TREE_OPERAND (t : tree) (i : nat) : option tree :=
  nth_error (tree_ops t) i.

(* Numbering of the codes: the generic ones come first, language-specific
   codes are numbered from LAST_AND_UNUSED_TREE_CODE on. *)
Definition LAST_AND_UNUSED_TREE_CODE : nat := 200.
Definition tree_code_number (c : tree_code) : nat :=
  match c with
  | ERROR_MARK => 0 | BLOCK => 1 | VAR_DECL _ => 2 | FUNCTION_DECL _ => 3
  | ADDR_EXPR => 4 | FDESC_EXPR => 5 | CALL_EXPR => 6 | MODIFY_EXPR => 7
  | OTHER_DECL k => 8 | TYPE_NODE k => 9 | EXPR_CODE k => k
  end.

Definition IS_TYPE_OR_DECL_P (t : tree) : bool :=
  match TREE_CODE t with
  | VAR_DECL _ | FUNCTION_DECL _ | OTHER_DECL _ | TYPE_NODE _ => true
  | _ => false
  end.

Definition error_mark_node : tree := Tree 0 ERROR_MARK [].

(** * Declarations *)

(* Attributes fixed by the front-end (and by this file's synthesizer). *)
Record decl_attrs := mk_decl_attrs {
  TREE_PUBLIC : bool;
  TREE_STATIC : bool;
  TREE_USED : bool;
  DECL_EXTERNAL : bool;
  DECL_COMDAT : bool;
  DECL_INLINE : bool;
  DECL_DECLARED_INLINE_P : bool;
  DECL_UNINLINABLE : bool;
  DECL_ARTIFICIAL : bool;
  DECL_IGNORED_P : bool;
  DECL_NO_INSTRUMENT_FUNCTION_ENTRY_EXIT : bool;
  DECL_STATIC_CONSTRUCTOR : bool;
  DECL_STATIC_DESTRUCTOR : bool;
  MAIN_NAME_P : bool;              (* MAIN_NAME_P (DECL_NAME (decl)) *)
  used_attribute : bool;           (* lookup_attribute ("used", ...) *)
  assembler_name_referenced : bool;
    (* DECL_ASSEMBLER_NAME_SET_P && TREE_SYMBOL_REFERENCED *)
  decl_function_contexts : list nat
    (* decl_function_context iterated: the enclosing functions, innermost
       first *)
}.

Record basic_block := mk_bb {
  bb_count : Z;
  bb_loop_depth : nat;
  bb_stmts : list tree
}.

Record struct_function := mk_sf {
  cfg : option (list basic_block);
  unexpanded_var_list : list tree
}.

(* The parts of a declaration rewritten by the passes and the back-end. *)
Record decl_body := mk_decl_body {
  DECL_SAVED_TREE : option tree;
  DECL_STRUCT_FUNCTION : option struct_function;
  DECL_INITIAL : option tree;
  TREE_ASM_WRITTEN : bool
}.

Definition decl_table := nat -> decl_attrs.
Definition body_table := nat -> decl_body.

Definition set_saved_tree (b : decl_body) v :=
  mk_decl_body v (DECL_STRUCT_FUNCTION b) (DECL_INITIAL b) (TREE_ASM_WRITTEN b).
Definition set_struct_function (b : decl_body) v :=
  mk_decl_body (DECL_SAVED_TREE b) v (DECL_INITIAL b) (TREE_ASM_WRITTEN b).
Definition set_initial (b : decl_body) v :=
  mk_decl_body (DECL_SAVED_TREE b) (DECL_STRUCT_FUNCTION b) v (TREE_ASM_WRITTEN b).

Definition upd {A} (f : nat -> A) (k : nat) (v : A) : nat -> A :=
  fun k' => if Nat.eqb k' k then v else f k'.

(** * Callgraph nodes and edges *)

Record cgraph_local_info := mk_local {
  self_insns : Z;
  local : bool;
  externally_visible : bool;
  finalized : bool;
  inlinable : bool;
  disregard_inline_limits : bool;
  redefined_extern_inline : bool
}.

Record cgraph_global_info := mk_global {
  insns : Z;
  inlined_to : option nat
}.

Record cgraph_rtl_info := mk_rtl {
  preferred_incoming_stack_boundary : Z;
  const_function : bool;
  pure_function : bool
}.

(* The all-zero records written by memset. *)
Definition zero_local := mk_local 0 false false false false false false.
Definition zero_global := mk_global 0 None.
Definition zero_rtl := mk_rtl 0 false false.

Record cgraph_node := mk_node {
  decl : nat;
  local_info : cgraph_local_info;
  global_info : cgraph_global_info;
  rtl_info : cgraph_rtl_info;
  needed : bool;
  reachable : bool;
  analyzed : bool;
  lowered : bool;
  output : bool;
  alias : bool;
  nested : bool
}.

Record cgraph_edge := mk_edge {
  caller : nat;
  callee : nat;
  call_stmt : tree;
  count : Z;
  loop_nest : nat;
  inline_failed : option string;
  aux : bool
}.

Record cgraph_varpool_node := mk_vnode {
  v_finalized : bool;
  v_needed : bool;
  v_analyzed : bool;
  v_alias : bool;
  v_force_output : bool
}.

(* The callgraph store of cgraph.c: node storage, the node chain (newest
   first), the declaration hash, the node count and the edges (insertion
   order). *)
Record cgraph_store := mk_store {
  node_store : nat -> cgraph_node;
  cgraph_nodes : list nat;
  cgraph_hash : nat -> option nat;
  cgraph_n_nodes : nat;
  cgraph_max_uid : nat;
  cgraph_edges : list cgraph_edge
}.

Inductive cdtor_kind := Constructor | Destructor.

Record cg_state := mk_state {
  graph : cgraph_store;
  cgraph_nodes_queue : list nat;
  varpool : nat -> cgraph_varpool_node;       (* keyed by declaration *)
  cgraph_varpool_nodes_queue : list nat;
  cgraph_varpool_first_unanalyzed_node : list nat;
  decls : decl_table;
  bodies : body_table;
  next_decl : nat;                  (* fresh declarations for build_decl *)
  cdtor_counter : nat;              (* the static counter of build_static_cdtor *)
  cgraph_global_info_ready : bool;
  cgraph_function_flags_ready : bool;
  current_function_decl : option nat;
  expanded : list nat;              (* functions handed to the back-end *)
  asm_cdtors : list (cdtor_kind * nat * Z);
    (* targetm.asm_out.constructor / destructor calls *)
  first_analyzed : option nat
    (* the static first_analyzed of cgraph_finalize_compilation_unit *)
}.

(** * Field updates *)

Definition st_set_graph (s : cg_state) x :=
  mk_state x (cgraph_nodes_queue s) (varpool s) (cgraph_varpool_nodes_queue s) (cgraph_varpool_first_unanalyzed_node s) (decls s) (bodies s) (next_decl s) (cdtor_counter s) (cgraph_global_info_ready s) (cgraph_function_flags_ready s) (current_function_decl s) (expanded s) (asm_cdtors s) (first_analyzed s).
Definition st_set_queue (s : cg_state) x :=
  mk_state (graph s) x (varpool s) (cgraph_varpool_nodes_queue s) (cgraph_varpool_first_unanalyzed_node s) (decls s) (bodies s) (next_decl s) (cdtor_counter s) (cgraph_global_info_ready s) (cgraph_function_flags_ready s) (current_function_decl s) (expanded s) (asm_cdtors s) (first_analyzed s).
Definition st_set_varpool (s : cg_state) x :=
  mk_state (graph s) (cgraph_nodes_queue s) x (cgraph_varpool_nodes_queue s) (cgraph_varpool_first_unanalyzed_node s) (decls s) (bodies s) (next_decl s) (cdtor_counter s) (cgraph_global_info_ready s) (cgraph_function_flags_ready s) (current_function_decl s) (expanded s) (asm_cdtors s) (first_analyzed s).
Definition st_set_varpool_queue (s : cg_state) x :=
  mk_state (graph s) (cgraph_nodes_queue s) (varpool s) x (cgraph_varpool_first_unanalyzed_node s) (decls s) (bodies s) (next_decl s) (cdtor_counter s) (cgraph_global_info_ready s) (cgraph_function_flags_ready s) (current_function_decl s) (expanded s) (asm_cdtors s) (first_analyzed s).
Definition st_set_varpool_unanalyzed (s : cg_state) x :=
  mk_state (graph s) (cgraph_nodes_queue s) (varpool s) (cgraph_varpool_nodes_queue s) x (decls s) (bodies s) (next_decl s) (cdtor_counter s) (cgraph_global_info_ready s) (cgraph_function_flags_ready s) (current_function_decl s) (expanded s) (asm_cdtors s) (first_analyzed s).
Definition st_set_decls (s : cg_state) x :=
  mk_state (graph s) (cgraph_nodes_queue s) (varpool s) (cgraph_varpool_nodes_queue s) (cgraph_varpool_first_unanalyzed_node s) x (bodies s) (next_decl s) (cdtor_counter s) (cgraph_global_info_ready s) (cgraph_function_flags_ready s) (current_function_decl s) (expanded s) (asm_cdtors s) (first_analyzed s).
Definition st_set_bodies (s : cg_state) x :=
  mk_state (graph s) (cgraph_nodes_queue s) (varpool s) (cgraph_varpool_nodes_queue s) (cgraph_varpool_first_unanalyzed_node s) (decls s) x (next_decl s) (cdtor_counter s) (cgraph_global_info_ready s) (cgraph_function_flags_ready s) (current_function_decl s) (expanded s) (asm_cdtors s) (first_analyzed s).
Definition st_set_next_decl (s : cg_state) x :=
  mk_state (graph s) (cgraph_nodes_queue s) (varpool s) (cgraph_varpool_nodes_queue s) (cgraph_varpool_first_unanalyzed_node s) (decls s) (bodies s) x (cdtor_counter s) (cgraph_global_info_ready s) (cgraph_function_flags_ready s) (current_function_decl s) (expanded s) (asm_cdtors s) (first_analyzed s).
Definition st_set_cdtor_counter (s : cg_state) x :=
  mk_state (graph s) (cgraph_nodes_queue s) (varpool s) (cgraph_varpool_nodes_queue s) (cgraph_varpool_first_unanalyzed_node s) (decls s) (bodies s) (next_decl s) x (cgraph_global_info_ready s) (cgraph_function_flags_ready s) (current_function_decl s) (expanded s) (asm_cdtors s) (first_analyzed s).
Definition st_set_global_info_ready (s : cg_state) x :=
  mk_state (graph s) (cgraph_nodes_queue s) (varpool s) (cgraph_varpool_nodes_queue s) (cgraph_varpool_first_unanalyzed_node s) (decls s) (bodies s) (next_decl s) (cdtor_counter s) x (cgraph_function_flags_ready s) (current_function_decl s) (expanded s) (asm_cdtors s) (first_analyzed s).
Definition st_set_function_flags_ready (s : cg_state) x :=
  mk_state (graph s) (cgraph_nodes_queue s) (varpool s) (cgraph_varpool_nodes_queue s) (cgraph_varpool_first_unanalyzed_node s) (decls s) (bodies s) (next_decl s) (cdtor_counter s) (cgraph_global_info_ready s) x (current_function_decl s) (expanded s) (asm_cdtors s) (first_analyzed s).
Definition st_set_current_function_decl (s : cg_state) x :=
  mk_state (graph s) (cgraph_nodes_queue s) (varpool s) (cgraph_varpool_nodes_queue s) (cgraph_varpool_first_unanalyzed_node s) (decls s) (bodies s) (next_decl s) (cdtor_counter s) (cgraph_global_info_ready s) (cgraph_function_flags_ready s) x (expanded s) (asm_cdtors s) (first_analyzed s).
Definition st_set_expanded (s : cg_state) x :=
  mk_state (graph s) (cgraph_nodes_queue s) (varpool s) (cgraph_varpool_nodes_queue s) (cgraph_varpool_first_unanalyzed_node s) (decls s) (bodies s) (next_decl s) (cdtor_counter s) (cgraph_global_info_ready s) (cgraph_function_flags_ready s) (current_function_decl s) x (asm_cdtors s) (first_analyzed s).
Definition st_set_asm_cdtors (s : cg_state) x :=
  mk_state (graph s) (cgraph_nodes_queue s) (varpool s) (cgraph_varpool_nodes_queue s) (cgraph_varpool_first_unanalyzed_node s) (decls s) (bodies s) (next_decl s) (cdtor_counter s) (cgraph_global_info_ready s) (cgraph_function_flags_ready s) (current_function_decl s) (expanded s) x (first_analyzed s).
Definition st_set_first_analyzed (s : cg_state) x :=
  mk_state (graph s) (cgraph_nodes_queue s) (varpool s) (cgraph_varpool_nodes_queue s) (cgraph_varpool_first_unanalyzed_node s) (decls s) (bodies s) (next_decl s) (cdtor_counter s) (cgraph_global_info_ready s) (cgraph_function_flags_ready s) (current_function_decl s) (expanded s) (asm_cdtors s) x.

Definition g_set_node_store (g : cgraph_store) x :=
  mk_store x (cgraph_nodes g) (cgraph_hash g) (cgraph_n_nodes g) (cgraph_max_uid g) (cgraph_edges g).
Definition g_set_cgraph_nodes (g : cgraph_store) x :=
  mk_store (node_store g) x (cgraph_hash g) (cgraph_n_nodes g) (cgraph_max_uid g) (cgraph_edges g).
Definition g_set_cgraph_hash (g : cgraph_store) x :=
  mk_store (node_store g) (cgraph_nodes g) x (cgraph_n_nodes g) (cgraph_max_uid g) (cgraph_edges g).
Definition g_set_cgraph_n_nodes (g : cgraph_store) x :=
  mk_store (node_store g) (cgraph_nodes g) (cgraph_hash g) x (cgraph_max_uid g) (cgraph_edges g).
Definition g_set_cgraph_max_uid (g : cgraph_store) x :=
  mk_store (node_store g) (cgraph_nodes g) (cgraph_hash g) (cgraph_n_nodes g) x (cgraph_edges g).
Definition g_set_cgraph_edges (g : cgraph_store) x :=
  mk_store (node_store g) (cgraph_nodes g) (cgraph_hash g) (cgraph_n_nodes g) (cgraph_max_uid g) x.

Definition n_set_decl (n : cgraph_node) x :=
  mk_node x (local_info n) (global_info n) (rtl_info n) (needed n) (reachable n) (analyzed n) (lowered n) (output n) (alias n) (nested n).
Definition n_set_local (n : cgraph_node) x :=
  mk_node (decl n) x (global_info n) (rtl_info n) (needed n) (reachable n) (analyzed n) (lowered n) (output n) (alias n) (nested n).
Definition n_set_global (n : cgraph_node) x :=
  mk_node (decl n) (local_info n) x (rtl_info n) (needed n) (reachable n) (analyzed n) (lowered n) (output n) (alias n) (nested n).
Definition n_set_rtl (n : cgraph_node) x :=
  mk_node (decl n) (local_info n) (global_info n) x (needed n) (reachable n) (analyzed n) (lowered n) (output n) (alias n) (nested n).
Definition n_set_needed (n : cgraph_node) x :=
  mk_node (decl n) (local_info n) (global_info n) (rtl_info n) x (reachable n) (analyzed n) (lowered n) (output n) (alias n) (nested n).
Definition n_set_reachable (n : cgraph_node) x :=
  mk_node (decl n) (local_info n) (global_info n) (rtl_info n) (needed n) x (analyzed n) (lowered n) (output n) (alias n) (nested n).
Definition n_set_analyzed (n : cgraph_node) x :=
  mk_node (decl n) (local_info n) (global_info n) (rtl_info n) (needed n) (reachable n) x (lowered n) (output n) (alias n) (nested n).
Definition n_set_lowered (n : cgraph_node) x :=
  mk_node (decl n) (local_info n) (global_info n) (rtl_info n) (needed n) (reachable n) (analyzed n) x (output n) (alias n) (nested n).
Definition n_set_output (n : cgraph_node) x :=
  mk_node (decl n) (local_info n) (global_info n) (rtl_info n) (needed n) (reachable n) (analyzed n) (lowered n) x (alias n) (nested n).
Definition n_set_nested (n : cgraph_node) x :=
  mk_node (decl n) (local_info n) (global_info n) (rtl_info n) (needed n) (reachable n) (analyzed n) (lowered n) (output n) (alias n) x.

Definition l_set_self_insns (l : cgraph_local_info) x :=
  mk_local x (local l) (externally_visible l) (finalized l) (inlinable l) (disregard_inline_limits l) (redefined_extern_inline l).
Definition l_set_finalized (l : cgraph_local_info) x :=
  mk_local (self_insns l) (local l) (externally_visible l) x (inlinable l) (disregard_inline_limits l) (redefined_extern_inline l).
Definition l_set_inlinable (l : cgraph_local_info) x :=
  mk_local (self_insns l) (local l) (externally_visible l) (finalized l) x (disregard_inline_limits l) (redefined_extern_inline l).
Definition l_set_disregard_inline_limits (l : cgraph_local_info) x :=
  mk_local (self_insns l) (local l) (externally_visible l) (finalized l) (inlinable l) x (redefined_extern_inline l).
Definition l_set_redefined_extern_inline (l : cgraph_local_info) x :=
  mk_local (self_insns l) (local l) (externally_visible l) (finalized l) (inlinable l) (disregard_inline_limits l) x.

Definition v_set_finalized (v : cgraph_varpool_node) x :=
  mk_vnode x (v_needed v) (v_analyzed v) (v_alias v) (v_force_output v).
Definition v_set_needed (v : cgraph_varpool_node) x :=
  mk_vnode (v_finalized v) x (v_analyzed v) (v_alias v) (v_force_output v).
Definition v_set_analyzed (v : cgraph_varpool_node) x :=
  mk_vnode (v_finalized v) (v_needed v) x (v_alias v) (v_force_output v).

(** * Options and collaborators *)

Record options := mk_options {
  flag_unit_at_a_time : bool;
  flag_whole_program : bool;
  flag_really_no_inline : bool;
  have_ctors_dtors : bool;          (* targetm.have_ctors_dtors *)
  dump_tree_all : bool              (* dump_enabled_p (TDI_tree_all) *)
}.

(* What the front-end's analyze_expr hook does at a tree: it marks the
   functions and variables it finds referenced as needed (the comment at the
   top of cgraphunit.c), and answers the walk_tree callback protocol. *)
Record analyze_expr_result := mk_ae {
  ae_mark_functions : list nat;
  ae_mark_variables : list nat;
  ae_walk_subtrees : bool;
  ae_result : option tree
}.

Record hooks := mk_hooks {
  tree_lowering_passes : body_table -> nat -> body_table;
  expand_function_hook : body_table -> nat -> body_table;
    (* lang_hooks.callgraph.expand_function *)
  tree_rest_of_compilation : body_table -> nat -> body_table;
  gimplify_function_tree : body_table -> nat -> body_table;
  analyze_expr : option (tree -> bool -> option nat -> analyze_expr_result);
    (* lang_hooks.callgraph.analyze_expr: (tp, walk_subtrees, data) *)
  lower_nested_functions : cg_state -> nat -> cg_state;
  cgraph_decide_inlining_incrementally : cgraph_store -> nat -> cgraph_store;
  tree_inlinable_function_p : body_table -> nat -> bool;
  estimate_num_insns : body_table -> nat -> Z;
  disregard_inline_limits_hook : nat -> bool;
    (* lang_hooks.tree_inlining.disregard_inline_limits *)
  cgraph_default_inline_p : cgraph_node -> bool;
  cgraph_postorder : cgraph_store -> list nat;
  finish_aliases_1 : cg_state -> cg_state;
  create_edge_inline_failed : string
    (* the reason cgraph_create_edge gives a fresh edge *)
}.

Section Cgraphunit.

Variable opts : options.
Variable H : hooks.

(** * The callgraph store (cgraph.c) *)

Definition node_of (st : cg_state) (n : nat) : cgraph_node :=
  node_store (graph st) n.

Definition decl_of (st : cg_state) (n : nat) : nat := decl (node_of st n).

Definition attrs_of (st : cg_state) (n : nat) : decl_attrs :=
  decls st (decl_of st n).

Definition body_of (st : cg_state) (n : nat) : decl_body :=
  bodies st (decl_of st n).

Definition update_node (st : cg_state) (n : nat)
    (f : cgraph_node -> cgraph_node) : cg_state :=
  st_set_graph st
    (g_set_node_store (graph st) (upd (node_store (graph st)) n (f (node_of st n)))).

Definition set_edges (st : cg_state) (es : list cgraph_edge) : cg_state :=
  st_set_graph st (g_set_cgraph_edges (graph st) es).

Definition update_body (st : cg_state) (d : nat)
    (f : decl_body -> decl_body) : cg_state :=
  st_set_bodies st (upd (bodies st) d (f (bodies st d))).

Definition callers_of (st : cg_state) (n : nat) : list cgraph_edge :=
  filter (fun e => Nat.eqb (callee e) n) (cgraph_edges (graph st)).

Definition callees_of (st : cg_state) (n : nat) : list cgraph_edge :=
  filter (fun e => Nat.eqb (caller e) n) (cgraph_edges (graph st)).

(** Modelled from the spec: cgraph_node, the intern table of cgraph.c
    ("node(decl) -> node (interns on first use)"); a new node goes to the
    front of the node chain. *)
Definition cgraph_node_lookup (st : cg_state) (d : nat) : cg_state * nat :=
  match cgraph_hash (graph st) d with
  | Some n => (st, n)
  | None =>
      let g := graph st in
      let n := cgraph_max_uid g in
      let fresh := mk_node d zero_local zero_global zero_rtl
                     false false false false false false false in
      (st_set_graph st
         (mk_store (upd (node_store g) n fresh) (n :: cgraph_nodes g)
            (upd (cgraph_hash g) d (Some n)) (S (cgraph_n_nodes g))
            (S n) (cgraph_edges g)), n)
  end.

(** Modelled from the spec: cgraph_mark_reachable_node ("enqueues onto the
    reachable-worklist; idempotent; forbidden once global_info_ready"). *)
Definition cgraph_mark_reachable_node (st : cg_state) (n : nat)
    : option cg_state :=
  if reachable (node_of st n) then Some st
  else
    _ <- gcc_assert (negb (cgraph_global_info_ready st)) ;;
    let st1 := update_node st n (fun nd => n_set_reachable nd true) in
    Some (st_set_queue st1 (cgraph_nodes_queue st1 ++ [n])).

(** Modelled from the spec: cgraph_mark_needed_node ("idempotent; first call
    enqueues onto the needed-worklist; needed implies reachable"). *)
Definition cgraph_mark_needed_node (st : cg_state) (n : nat)
    : option cg_state :=
  cgraph_mark_reachable_node (update_node st n (fun nd => n_set_needed nd true)) n.

(** Modelled from the spec: cgraph_varpool_mark_needed_node, the variable
    counterpart: the first call enqueues the variable on the varpool queue and
    on the queue of variables still to be analyzed. *)
Definition cgraph_varpool_mark_needed_node (st : cg_state) (d : nat)
    : cg_state :=
  if v_needed (varpool st d) then st
  else
    let st1 := st_set_varpool st (upd (varpool st) d (v_set_needed (varpool st d) true)) in
    let st2 := st_set_varpool_queue st1 (cgraph_varpool_nodes_queue st1 ++ [d]) in
    st_set_varpool_unanalyzed st2 (cgraph_varpool_first_unanalyzed_node st2 ++ [d]).

(** Modelled from the spec: cgraph_varpool_finalize_decl ("finalizes each
    such variable, promoting it into the variable worklist"). *)
Definition cgraph_varpool_finalize_decl (st : cg_state) (d : nat) : cg_state :=
  let st1 := st_set_varpool st (upd (varpool st) d (v_set_finalized (varpool st d) true)) in
  cgraph_varpool_mark_needed_node st1 d.

(** Modelled from the spec: cgraph_create_edge (caller, callee, stmt, count,
    depth); edges are kept in insertion order. *)
Definition cgraph_create_edge (st : cg_state) (cr ce : nat) (stmt : tree)
    (cnt : Z) (depth : nat) : cg_state :=
  set_edges st (cgraph_edges (graph st)
                ++ [mk_edge cr ce stmt cnt depth
                      (Some (create_edge_inline_failed H)) false]).

(** Modelled from the spec: cgraph_node_remove_callees. *)
Definition cgraph_node_remove_callees (st : cg_state) (n : nat) : cg_state :=
  set_edges st (filter (fun e => negb (Nat.eqb (caller e) n))
                       (cgraph_edges (graph st))).

(** Modelled from the spec: cgraph_remove_node ("unlinks from all caller/callee
    edge lists, removes from the intern table, and detaches clones"): when the
    node was the one the table answers for its declaration, the table answers
    the next node sharing the declaration, if any. *)
Definition cgraph_remove_node (st : cg_state) (n : nat) : cg_state :=
  let g := graph st in
  let d := decl (node_store g n) in
  let rest := filter (fun m => negb (Nat.eqb m n)) (cgraph_nodes g) in
  let hash' :=
    match cgraph_hash g d with
    | Some m => if Nat.eqb m n then
                  upd (cgraph_hash g) d
                    (find (fun m' => Nat.eqb (decl (node_store g m')) d) rest)
                else cgraph_hash g
    | None => cgraph_hash g
    end in
  st_set_graph st
    (mk_store (node_store g) rest hash' (pred (cgraph_n_nodes g))
       (cgraph_max_uid g)
       (filter (fun e => negb (Nat.eqb (caller e) n || Nat.eqb (callee e) n))
               (cgraph_edges g))).

(** * The reference walker *)

(** Modelled from the spec: walk_tree with a visited set (tree.c): "visits
    each sub-node at most once per walk".  The callback answers a new state,
    the walk_subtrees flag and a result; a non-NULL result stops the walk.
    Only expressions have operands to walk: declarations and types are
    leaves for walk_tree. *)
Fixpoint walk_tree
    (fn : cg_state -> tree -> option (cg_state * bool * option tree))
    (t : tree) (st : cg_state) (visited : list nat) {struct t}
    : option (cg_state * list nat * option tree) :=
  let '(Tree u c ops) := t in
  if existsb (Nat.eqb u) visited then Some (st, visited, None)
  else
    r <- fn st t ;;
    let '(st1, walk_subtrees, res) := r in
    match res with
    | Some _ => Some (st1, u :: visited, res)
    | None =>
        if walk_subtrees && negb (IS_TYPE_OR_DECL_P t) then
          (fix walk_ops (l : list tree) (s : cg_state) (vis : list nat)
               : option (cg_state * list nat * option tree) :=
             match l with
             | [] => Some (s, vis, None)
             | t1 :: l' =>
                 r1 <- walk_tree fn t1 s vis ;;
                 let '(s1, vis1, res1) := r1 in
                 match res1 with
                 | Some _ => Some (s1, vis1, res1)
                 | None => walk_ops l' s1 vis1
                 end
             end) ops st1 (u :: visited)
        else Some (st1, u :: visited, None)
    end.

(* walk_tree on an optional operand: walk_tree (&NULL) does nothing. *)
Definition walk_tree_opt fn (t : option tree) st visited :=
  match t with
  | Some t => walk_tree fn t st visited
  | None => Some (st, visited, None)
  end.

(* Performing what the analyze_expr hook reports. *)
Fixpoint mark_needed_functions (st : cg_state) (ds : list nat)
    : option cg_state :=
  match ds with
  | [] => Some st
  | d :: ds' =>
      let '(st1, n) := cgraph_node_lookup st d in
      st2 <- cgraph_mark_needed_node st1 n ;;
      mark_needed_functions st2 ds'
  end.

Definition run_analyze_expr (st : cg_state) (r : analyze_expr_result)
    : option (cg_state * bool * option tree) :=
  st1 <- mark_needed_functions st (ae_mark_functions r) ;;
  let st2 := fold_left cgraph_varpool_mark_needed_node (ae_mark_variables r) st1 in
  Some (st2, ae_walk_subtrees r, ae_result r).

(* record_reference (tp, walk_subtrees, data): walk_tree calls it with
   *walk_subtrees = 1; it answers the new state, *walk_subtrees and its
   return value. *)
Definition record_reference (data : option nat) (st : cg_state) (t : tree)
    : option (cg_state * bool * option tree) :=
  match TREE_CODE t with
  | VAR_DECL d =>
      if TREE_STATIC (decls st d) || DECL_EXTERNAL (decls st d) then
        let st1 := cgraph_varpool_mark_needed_node st d in
        match analyze_expr H with
        | Some f => run_analyze_expr st1 (f t true data)
        | None => Some (st1, true, None)
        end
      else Some (st, true, None)
  | FDESC_EXPR | ADDR_EXPR =>
      if flag_unit_at_a_time opts then
        match TREE_OPERAND t 0 with
        | Some (Tree _ (FUNCTION_DECL fd) _) =>
            let '(st1, n) := cgraph_node_lookup st fd in
            st2 <- cgraph_mark_needed_node st1 n ;;
            Some (st2, true, None)
        | _ => Some (st, true, None)
        end
      else Some (st, true, None)
  | c =>
      if IS_TYPE_OR_DECL_P t then Some (st, false, None)
      else if Nat.leb LAST_AND_UNUSED_TREE_CODE (tree_code_number c) then
        match analyze_expr H with
        | Some f => run_analyze_expr st (f t true data)
        | None => None   (* call through a NULL hook *)
        end
      else Some (st, true, None)
  end.

Definition walk_record_reference (data : option nat) (t : option tree)
    (st : cg_state) (visited : list nat) :=
  walk_tree_opt (record_reference data) t st visited.


(** * The variable analyzer *)

(* cgraph_varpool_analyze_pending_decls; the loop runs on [fuel], running out
   of it is a failure. *)
Fixpoint varpool_analyze_loop (fuel : nat) (st : cg_state) (changed : bool)
    : option (cg_state * bool) :=
  match cgraph_varpool_first_unanalyzed_node st with
  | [] => Some (st, changed)
  | d :: rest =>
      match fuel with
      | O => None
      | S fuel' =>
          let st1 := st_set_varpool st (upd (varpool st) d (v_set_analyzed (varpool st d) true)) in
          let st2 := st_set_varpool_unanalyzed st1 rest in
          r <- walk_record_reference None (DECL_INITIAL (bodies st2 d)) st2 [] ;;
          let '(st3, _, _) := r in
          varpool_analyze_loop fuel' st3 true
      end
  end.

Definition cgraph_varpool_analyze_pending_decls (fuel : nat) (st : cg_state) :=
  varpool_analyze_loop fuel st false.

(** * The edge builder *)

(** Modelled from the spec: get_call_expr_in and get_callee_fndecl ("a call
    expression with a resolvable callee declaration"): the call is the
    statement itself or the right-hand side of an assignment, its callee is
    the function whose address is its first operand. *)
Definition get_call_expr_in (stmt : tree) : option tree :=
  let t := match TREE_CODE stmt with
           | MODIFY_EXPR => TREE_OPERAND stmt 1
           | _ => Some stmt
           end in
  match t with
  | Some c => match TREE_CODE c with CALL_EXPR => Some c | _ => None end
  | None => None
  end.

Definition get_callee_fndecl (call : tree) : option nat :=
  match TREE_OPERAND call 0 with
  | Some (Tree _ ADDR_EXPR [Tree _ (FUNCTION_DECL d) _]) => Some d
  | _ => None
  end.

Definition create_edges_stmt (node : nat) (cnt : Z) (depth : nat)
    (acc : option (cg_state * list nat)) (stmt : tree)
    : option (cg_state * list nat) :=
  a <- acc ;;
  let '(st, vis) := a in
  match get_call_expr_in stmt with
  | Some call =>
      match get_callee_fndecl call with
      | Some d =>
          let '(st1, ce) := cgraph_node_lookup st d in
          let st2 := cgraph_create_edge st1 node ce stmt cnt depth in
          r <- walk_record_reference (Some node) (TREE_OPERAND call 1) st2 vis ;;
          let '(st3, vis3, _) := r in
          match TREE_CODE stmt with
          | MODIFY_EXPR =>
              r' <- walk_record_reference (Some node) (TREE_OPERAND stmt 0) st3 vis3 ;;
              let '(st4, vis4, _) := r' in Some (st4, vis4)
          | _ => Some (st3, vis3)
          end
      | None =>
          r <- walk_record_reference (Some node) (Some stmt) st vis ;;
          let '(st1, vis1, _) := r in Some (st1, vis1)
      end
  | None =>
      r <- walk_record_reference (Some node) (Some stmt) st vis ;;
      let '(st1, vis1, _) := r in Some (st1, vis1)
  end.

Definition create_edges_var (node : nat) (acc : option (cg_state * list nat))
    (v : tree) : option (cg_state * list nat) :=
  a <- acc ;;
  let '(st, vis) := a in
  match TREE_CODE v with
  | VAR_DECL d =>
      if TREE_STATIC (decls st d) && negb (DECL_EXTERNAL (decls st d))
         && flag_unit_at_a_time opts
      then Some (cgraph_varpool_finalize_decl st d, vis)
      else
        match DECL_INITIAL (bodies st d) with
        | Some init =>
            r <- walk_record_reference (Some node) (Some init) st vis ;;
            let '(st1, vis1, _) := r in Some (st1, vis1)
        | None => Some (st, vis)
        end
  | _ => Some (st, vis)
  end.

(* cgraph_create_edges (node, body): FOR_EACH_BB_FN needs the CFG. *)
Definition cgraph_create_edges (st : cg_state) (node : nat) (body : nat)
    : option cg_state :=
  match DECL_STRUCT_FUNCTION (bodies st body) with
  | Some sf =>
      match cfg sf with
      | Some bbs =>
          let acc :=
            fold_left
              (fun acc bb =>
                 fold_left (create_edges_stmt node (bb_count bb) (bb_loop_depth bb))
                           (bb_stmts bb) acc)
              bbs (Some (st, [])) in
          a <- acc ;;
          let '(st1, vis1) := a in
          (* the variable list is read back from the current function *)
          let vars := match DECL_STRUCT_FUNCTION (bodies st1 body) with
                      | Some sf' => unexpanded_var_list sf'
                      | None => [] end in
          a' <- fold_left (create_edges_var node) vars (Some (st1, vis1)) ;;
          Some (fst a')
      | None => None
      end
  | None => None
  end.

(** * The function analyzer *)

Definition REDEFINED_EXTERN_INLINE_REASON : string :=
  "redefined extern inline functions are not considered for inlining"%string.
Definition NOT_INLINABLE_REASON : string := "function not inlinable"%string.
Definition NOT_CONSIDERED_REASON : string := "function not considered for inlining"%string.

(* initialize_inline_failed (node) *)
Definition initialize_inline_failed (st : cg_state) (node : nat)
    : option cg_state :=
  let nd := node_of st node in
  let reason :=
    if redefined_extern_inline (local_info nd) then REDEFINED_EXTERN_INLINE_REASON
    else if negb (inlinable (local_info nd)) then NOT_INLINABLE_REASON
    else NOT_CONSIDERED_REASON in
  es <- fold_right
          (fun e acc =>
             rest <- acc ;;
             if Nat.eqb (callee e) node then
               _ <- gcc_assert (match inlined_to (global_info (node_of st (callee e))) with
                                | None => true | Some _ => false end) ;;
               _ <- gcc_assert (match inline_failed e with
                                | Some _ => true | None => false end) ;;
               Some (mk_edge (caller e) (callee e) (call_stmt e) (count e)
                       (loop_nest e) (Some reason) (aux e) :: rest)
             else Some (e :: rest))
          (Some []) (cgraph_edges (graph st)) ;;
  Some (set_edges st es).

(* cgraph_lower_function (node) *)
Definition cgraph_lower_function (st : cg_state) (node : nat) : cg_state :=
  if lowered (node_of st node) then st
  else
    let st1 := st_set_bodies st (tree_lowering_passes H (bodies st) (decl_of st node)) in
    update_node st1 node (fun nd => n_set_lowered nd true).

Definition update_local (st : cg_state) (node : nat)
    (f : cgraph_local_info -> cgraph_local_info) : cg_state :=
  update_node st node (fun nd => n_set_local nd (f (local_info nd))).

(* cgraph_analyze_function (node) *)
Definition cgraph_analyze_function (st : cg_state) (node : nat)
    : option cg_state :=
  let d := decl_of st node in
  let st0 := st_set_current_function_decl st (Some d) in
  let st1 := cgraph_lower_function st0 node in
  st2 <- cgraph_create_edges st1 node d ;;
  let st3 := update_local st2 node (fun l =>
               l_set_inlinable l (tree_inlinable_function_p H (bodies st2) d)) in
  let st4 := update_local st3 node (fun l =>
               l_set_self_insns l (estimate_num_insns H (bodies st3) d)) in
  let st5 := if inlinable (local_info (node_of st4 node)) then
               update_local st4 node (fun l =>
                 l_set_disregard_inline_limits l (disregard_inline_limits_hook H d))
             else st4 in
  st6 <- initialize_inline_failed st5 node ;;
  let st7 := if flag_really_no_inline opts
                && negb (disregard_inline_limits (local_info (node_of st6 node)))
             then update_local st6 node (fun l => l_set_inlinable l false)
             else st6 in
  let st8 := update_node st7 node (fun nd =>
               n_set_global nd (mk_global (self_insns (local_info nd))
                                          (inlined_to (global_info nd)))) in
  let st9 := update_node st8 node (fun nd => n_set_analyzed nd true) in
  Some (st_set_current_function_decl st9 None).

(** * Redefinition *)

(* cgraph_reset_node (node) *)
(* The body of the first loop of cgraph_reset_node. *)
Definition remove_if_inlined_into (node : nat) (s : cg_state) (n : nat)
    : cg_state :=
  match inlined_to (global_info (node_of s n)) with
  | Some m => if Nat.eqb m node then cgraph_remove_node s n else s
  | None => s
  end.

Definition cgraph_reset_node (st : cg_state) (node : nat) : option cg_state :=
  _ <- gcc_assert (negb (output (node_of st node))) ;;
  let st1 := update_node st node (fun nd =>
               n_set_rtl (n_set_global (n_set_local nd zero_local) zero_global) zero_rtl) in
  let st2 := update_node st1 node (fun nd => n_set_analyzed nd false) in
  let st3 := update_local st2 node (fun l => l_set_redefined_extern_inline l true) in
  let st4 := update_local st3 node (fun l => l_set_finalized l false) in
  let st5 :=
    if negb (flag_unit_at_a_time opts) then
      fold_left (remove_if_inlined_into node) (cgraph_nodes (graph st4)) st4
    else st4 in
  let st6 := cgraph_node_remove_callees st5 node in
  let st7 :=
    if reachable (node_of st6 node) && negb (flag_unit_at_a_time opts) then
      if existsb (Nat.eqb node) (cgraph_nodes_queue st6) then st6
      else update_node st6 node (fun nd => n_set_reachable nd false)
    else st6 in
  Some st7.

(** * Deciding what is needed *)

(* decide_is_function_needed (node, decl): the answer, and the node's
   externally_visible flag, which the first test sets. *)
Definition decide_is_function_needed (st : cg_state) (node : nat) (d : nat)
    : cg_state * bool :=
  let a := decls st d in
  let nd := node_of st node in
  if MAIN_NAME_P a && TREE_PUBLIC a then
    (update_local st node (fun l =>
       mk_local (self_insns l) (local l) true (finalized l) (inlinable l)
                (disregard_inline_limits l) (redefined_extern_inline l)), true)
  else if externally_visible (local_info nd) || used_attribute a then (st, true)
  else if assembler_name_referenced a then (st, true)
  else if needed nd then (st, true)
  else if TREE_PUBLIC a && negb (flag_whole_program opts)
          && negb (DECL_COMDAT a) && negb (DECL_EXTERNAL a) then (st, true)
  else if DECL_STATIC_CONSTRUCTOR a || DECL_STATIC_DESTRUCTOR a then (st, true)
  else if flag_unit_at_a_time opts then (st, false)
  else if DECL_EXTERNAL a then (st, false)
  else if existsb (fun o => DECL_EXTERNAL (decls st o)) (decl_function_contexts a)
  then (st, false)
  else if DECL_COMDAT a then (st, false)
  else if negb (DECL_INLINE a)
          || (negb (disregard_inline_limits (local_info nd))
              && negb (DECL_DECLARED_INLINE_P a)
              && (negb (inlinable (local_info nd))
                  || negb (cgraph_default_inline_p H nd)))
  then (st, true)
  else (st, false).

(** * Expansion *)

(** Modelled from the spec: the clone chain cgraph_node (decl)->next_clone
    is the sequence of nodes sharing the declaration. *)
Definition clone_chain (st : cg_state) (d : nat) : list nat :=
  filter (fun n => Nat.eqb (decl_of st n) d) (cgraph_nodes (graph st)).

(* cgraph_preserve_function_body_p (decl) *)
Definition cgraph_preserve_function_body_p (st : cg_state) (d : nat) : bool :=
  if dump_tree_all opts then true
  else if negb (cgraph_global_info_ready st) then
    DECL_INLINE (decls st d) && negb (flag_really_no_inline opts)
  else
    existsb (fun n => match inlined_to (global_info (node_of st n)) with
                      | Some _ => true | None => false end)
            (clone_chain st d).

(* cgraph_expand_function (node); the back-end call is recorded in the
   [expanded] log. *)
Definition cgraph_expand_function (st : cg_state) (node : nat)
    : option cg_state :=
  let d := decl_of st node in
  _ <- gcc_assert (match inlined_to (global_info (node_of st node)) with
                   | None => true | Some _ => false end) ;;
  let st1 := cgraph_lower_function st node in
  let st2 := st_set_bodies st1 (expand_function_hook H (bodies st1) d) in
  let st3 := st_set_expanded st2 (expanded st2 ++ [node]) in
  _ <- gcc_assert (TREE_ASM_WRITTEN (bodies st3 d)) ;;
  let st4 := st_set_current_function_decl st3 None in
  let st5 :=
    if negb (cgraph_preserve_function_body_p st4 d) then
      let s1 := update_body st4 d (fun b => set_saved_tree b None) in
      let s2 := update_body s1 d (fun b => set_struct_function b None) in
      let s3 := update_body s2 d (fun b => set_initial b (Some error_mark_node)) in
      cgraph_node_remove_callees s3 node
    else st4 in
  Some (st_set_function_flags_ready st5 true).

(* The loop of cgraph_assemble_pending_functions. *)
Fixpoint assemble_loop (fuel : nat) (st : cg_state) (out : bool)
    : option (cg_state * bool) :=
  match cgraph_nodes_queue st with
  | [] => Some (st, out)
  | n :: rest =>
      match fuel with
      | O => None
      | S fuel' =>
          let st1 := st_set_queue st rest in
          if negb (match inlined_to (global_info (node_of st1 n)) with
                   | Some _ => true | None => false end)
             && negb (alias (node_of st1 n))
             && negb (DECL_EXTERNAL (attrs_of st1 n))
          then
            st2 <- cgraph_expand_function st1 n ;;
            assemble_loop fuel' st2 true
          else assemble_loop fuel' st1 out
      end
  end.

(* cgraph_assemble_pending_functions (); expansion leaves the queue alone,
   so one round per queued node is enough fuel. *)
Definition cgraph_assemble_pending_functions (st : cg_state)
    : option (cg_state * bool) :=
  if flag_unit_at_a_time opts then Some (st, false)
  else assemble_loop (List.length (cgraph_nodes_queue st)) st false.

(** * Finalization *)

(* cgraph_finalize_function (decl, nested), from notice_global_symbol on:
   the statements after the redefinition test. *)
Definition finalize_function_rest (st1 : cg_state) (node d : nat)
    (is_nested : bool) : option cg_state :=
  let st2 := update_node st1 node (fun nd => n_set_decl nd d) in
  let st3 := update_local st2 node (fun l => l_set_finalized l true) in
  lw <- match DECL_STRUCT_FUNCTION (bodies st3 d) with
        | Some sf => Some (match cfg sf with Some _ => true | None => false end)
        | None => None
        end ;;
  let st4 := update_node st3 node (fun nd => n_set_lowered nd lw) in
  let st5 := if nested (node_of st4 node)
             then lower_nested_functions H st4 d else st4 in
  _ <- gcc_assert (negb (nested (node_of st5 node))) ;;
  st6 <- (if negb (flag_unit_at_a_time opts) then
            s <- cgraph_analyze_function st5 node ;;
            Some (st_set_graph s (cgraph_decide_inlining_incrementally H (graph s) node))
          else Some st5) ;;
  let '(st7, is_needed) := decide_is_function_needed st6 node d in
  st8 <- (if is_needed then cgraph_mark_needed_node st7 node else Some st7) ;;
  let a := decls st8 d in
  st9 <- (if TREE_PUBLIC a && negb (DECL_COMDAT a) && negb (DECL_EXTERNAL a)
          then cgraph_mark_reachable_node st8 node else Some st8) ;;
  if negb is_nested then
    r <- cgraph_assemble_pending_functions st9 ;;
    Some (fst r)
  else Some st9.

(* cgraph_finalize_function (decl, nested) *)
Definition cgraph_finalize_function (st : cg_state) (d : nat) (is_nested : bool)
    : option cg_state :=
  let '(st0, node) := cgraph_node_lookup st d in
  st1 <- (if finalized (local_info (node_of st0 node))
          then cgraph_reset_node st0 node else Some st0) ;;
  finalize_function_rest st1 node d is_nested.

(** * The unit driver *)

(* One round of the worklist loop of cgraph_finalize_compilation_unit, on the
   dequeued node [node]; [rest] is the rest of the queue. *)
Definition analyze_queue_head (fuel : nat) (st : cg_state) (node : nat)
    (rest : list nat) : option cg_state :=
  let st1 := st_set_queue st rest in
  let d := decl_of st1 node in
  match DECL_SAVED_TREE (bodies st1 d) with
  | None => cgraph_reset_node st1 node
  | Some _ =>
      _ <- gcc_assert (negb (analyzed (node_of st1 node))
                       && reachable (node_of st1 node)) ;;
      st2 <- cgraph_analyze_function st1 node ;;
      st3 <- fold_left (fun acc e =>
                          s <- acc ;;
                          if negb (reachable (node_of s (callee e)))
                          then cgraph_mark_reachable_node s (callee e)
                          else Some s)
                       (callees_of st2 node) (Some st2) ;;
      r <- cgraph_varpool_analyze_pending_decls fuel st3 ;;
      Some (fst r)
  end.

(* while (cgraph_nodes_queue) { ... } *)
Fixpoint cgraph_analyze_queue (fuel : nat) (st : cg_state) : option cg_state :=
  match cgraph_nodes_queue st with
  | [] => Some st
  | node :: rest =>
      match fuel with
      | O => None
      | S fuel' =>
          st' <- analyze_queue_head fuel' st node rest ;;
          cgraph_analyze_queue fuel' st'
      end
  end.

(* for (node = cgraph_nodes; node != first_analyzed; node = node->next) *)
Fixpoint nodes_until (l : list nat) (stop : option nat) : list nat :=
  match l with
  | [] => []
  | n :: l' =>
      match stop with
      | Some m => if Nat.eqb n m then [] else n :: nodes_until l' stop
      | None => n :: nodes_until l' stop
      end
  end.

(* The body of the reclaiming loop. *)
Definition reclaim_node (st : cg_state) (node : nat) : option cg_state :=
  let d := decl_of st node in
  st1 <- (if finalized (local_info (node_of st node))
             && negb (match DECL_SAVED_TREE (bodies st d) with
                      | Some _ => true | None => false end)
          then cgraph_reset_node st node else Some st) ;;
  let has_body := match DECL_SAVED_TREE (bodies st1 d) with
                  | Some _ => true | None => false end in
  if negb (reachable (node_of st1 node)) && has_body then
    Some (cgraph_remove_node st1 node)
  else
    let fin := finalized (local_info (node_of st1 node)) in
    _ <- gcc_assert (negb fin || has_body) ;;
    _ <- gcc_assert (Bool.eqb (analyzed (node_of st1 node)) fin) ;;
    Some st1.

Definition cgraph_reclaim_nodes (st : cg_state) : option cg_state :=
  fold_left (fun acc n => s <- acc ;; reclaim_node s n)
            (nodes_until (cgraph_nodes (graph st)) (first_analyzed st)) (Some st).

(* cgraph_finalize_compilation_unit (); the worklist loops run on [fuel]. *)
Definition cgraph_finalize_compilation_unit (fuel : nat) (st : cg_state)
    : option cg_state :=
  let st0 := finish_aliases_1 H st in
  if negb (flag_unit_at_a_time opts) then
    r <- cgraph_assemble_pending_functions st0 ;;
    Some (fst r)
  else
    r <- cgraph_varpool_analyze_pending_decls fuel st0 ;;
    st2 <- cgraph_analyze_queue fuel (fst r) ;;
    st3 <- cgraph_reclaim_nodes st2 ;;
    Some (st_set_first_analyzed st3 (hd_error (cgraph_nodes (graph st3)))).

(** * The emission scheduler *)

Definition has_inline_failed (e : cgraph_edge) : bool :=
  match inline_failed e with Some _ => true | None => false end.

Definition is_inline_clone (nd : cgraph_node) : bool :=
  match inlined_to (global_info nd) with Some _ => true | None => false end.

(* The body of the loop of cgraph_mark_functions_to_output. *)
Definition mark_function_to_output (st : cg_state) (node : nat)
    : option cg_state :=
  let nd := node_of st node in
  let d := decl nd in
  _ <- gcc_assert (negb (output nd)) ;;
  let e := existsb has_inline_failed (callers_of st node) in
  let has_body := match DECL_SAVED_TREE (bodies st d) with
                  | Some _ => true | None => false end in
  if has_body && negb (is_inline_clone nd)
     && (needed nd || (e && reachable nd))
     && negb (TREE_ASM_WRITTEN (bodies st d))
     && negb (DECL_EXTERNAL (decls st d))
  then Some (update_node st node (fun x => n_set_output x true))
  else
    (* internal_error ("failed to reclaim unneeded function") under
       ENABLE_CHECKING tests the same condition as the assertion *)
    _ <- gcc_assert (is_inline_clone nd || negb has_body
                     || DECL_EXTERNAL (decls st d)) ;;
    Some st.

Definition cgraph_mark_functions_to_output (st : cg_state) : option cg_state :=
  fold_left (fun acc n => s <- acc ;; mark_function_to_output s n)
            (cgraph_nodes (graph st)) (Some st).

(* The body of the reverse loop of cgraph_expand_all_functions. *)
Definition expand_if_output (st : cg_state) (node : nat) : option cg_state :=
  if output (node_of st node) then
    _ <- gcc_assert (reachable (node_of st node)) ;;
    let st1 := update_node st node (fun x => n_set_output x false) in
    cgraph_expand_function st1 node
  else Some st.

Definition cgraph_expand_all_functions (st : cg_state) : option cg_state :=
  let order := cgraph_postorder H (graph st) in
  _ <- gcc_assert (Nat.eqb (List.length order) (cgraph_n_nodes (graph st))) ;;
  let new_order := filter (fun n => output (node_of st n)) order in
  fold_left (fun acc n => s <- acc ;; expand_if_output s n)
            (rev new_order) (Some st).

(** * The static constructor/destructor synthesizer *)

(* cgraph_build_static_cdtor (which, body, priority) *)
Definition cgraph_build_static_cdtor (st : cg_state) (which : Ascii.ascii)
    (body : tree) (priority : Z) : option cg_state :=
  let st0 := st_set_cdtor_counter st (S (cdtor_counter st)) in
  let d := next_decl st0 in
  let st1 := st_set_next_decl st0 (S d) in
  let st2 := st_set_current_function_decl st1 (Some d) in
  (* allocate_struct_function, DECL_SAVED_TREE, DECL_INITIAL = make_node (BLOCK) *)
  let st3 := st_set_bodies st2 (upd (bodies st2) d
               (mk_decl_body (Some body) (Some (mk_sf None [])) (Some (Tree 0 BLOCK []))
                             false)) in
  kind <- (if Ascii.eqb which "I"%char then Some Constructor
           else if Ascii.eqb which "D"%char then Some Destructor
           else None) ;;
  let attrs :=
    mk_decl_attrs (negb (have_ctors_dtors opts)) (* TREE_PUBLIC *)
      true (* TREE_STATIC *) true (* TREE_USED *) false false false false
      true (* DECL_UNINLINABLE *) true (* DECL_ARTIFICIAL *)
      true (* DECL_IGNORED_P *) true (* DECL_NO_INSTRUMENT_FUNCTION_ENTRY_EXIT *)
      (match kind with Constructor => true | Destructor => false end)
      (match kind with Destructor => true | Constructor => false end)
      false false false [] in
  let st4 := st_set_decls st3 (upd (decls st3) d attrs) in
  let st5 := st_set_bodies st4 (gimplify_function_tree H (bodies st4) d) in
  st6 <- (if cgraph_global_info_ready st5 then
            let b1 := tree_lowering_passes H (bodies st5) d in
            Some (st_set_bodies st5 (tree_rest_of_compilation H b1 d))
          else cgraph_finalize_function st5 d false) ;;
  if have_ctors_dtors opts then
    Some (st_set_asm_cdtors st6 (asm_cdtors st6 ++ [(kind, d, priority)]))
  else Some st6.

(* The nodes a pass over [l] acts on when it acts on a node whose flag is
   set and clears that flag as it does: each flagged node, at its first
   visit. *)
Fixpoint visit_flagged (flag : nat -> bool) (l : list nat) : list nat :=
  match l with
  | [] => []
  | x :: l' =>
      if flag x then x :: visit_flagged (fun y => flag y && negb (Nat.eqb y x)) l'
      else visit_flagged flag l'
  end.

(* The parts of the state the unit's own passes never write: declaration
   attributes and the emitted constructor/destructor references. *)
Definition decl_frame (st : cg_state) := (decls st, asm_cdtors st).

(* The test cgraph_assemble_pending_functions applies to a dequeued node. *)
Definition assemble_eligible (st : cg_state) (n : nat) : bool :=
  negb (is_inline_clone (node_of st n)) && negb (alias (node_of st n))
  && negb (DECL_EXTERNAL (attrs_of st n)).

(** * Inlining decisions *)

(* cgraph_inline_p (e, reason): the reason written back, and the answer. *)
Definition cgraph_inline_p (e : cgraph_edge) : bool * option string :=
  (negb (has_inline_failed e), inline_failed e).

(** * Rebuilding the call edges *)

(* The body of the statement loop of rebuild_cgraph_edges. *)
Definition rebuild_edges_stmt (node : nat) (cnt : Z) (depth : nat)
    (st : cg_state) (stmt : tree) : cg_state :=
  match get_call_expr_in stmt with
  | Some call =>
      match get_callee_fndecl call with
      | Some d =>
          let '(st1, ce) := cgraph_node_lookup st d in
          cgraph_create_edge st1 node ce stmt cnt depth
      | None => st
      end
  | None => st
  end.

(* rebuild_cgraph_edges (); FOR_EACH_BB walks the CFG of the current
   function.  The node's profile count (node->count) is not part of the
   node record. *)
Definition rebuild_cgraph_edges (st : cg_state) : option cg_state :=
  match current_function_decl st with
  | None => None
  | Some cfd =>
      let '(st0, node) := cgraph_node_lookup st cfd in
      let st1 := cgraph_node_remove_callees st0 node in
      bbs <- match DECL_STRUCT_FUNCTION (bodies st1 cfd) with
             | Some sf => cfg sf
             | None => None
             end ;;
      let st2 := fold_left
                   (fun s bb => fold_left (rebuild_edges_stmt node (bb_count bb)
                                             (bb_loop_depth bb))
                                          (bb_stmts bb) s)
                   bbs st1 in
      st3 <- initialize_inline_failed st2 node ;;
      _ <- gcc_assert (negb (is_inline_clone (node_of st3 node))) ;;
      Some st3
  end.

(* The statements of a basic block rebuild_cgraph_edges makes an edge for:
   a call with a callee declaration. *)
Definition is_direct_call (stmt : tree) : bool :=
  match get_call_expr_in stmt with
  | Some call => match get_callee_fndecl call with Some _ => true | None => false end
  | None => false
  end.

(* What a call edge records of its call site: caller, statement, count and
   loop depth. *)
Definition edge_site (e : cgraph_edge) : nat * tree * Z * nat :=
  (caller e, call_stmt e, count e, loop_nest e).

(* The call sites of the direct calls of a CFG, in FOR_EACH_BB order. *)
Definition direct_call_sites (node : nat) (bbs : list basic_block)
    : list (nat * tree * Z * nat) :=
  flat_map (fun bb => map (fun s => (node, s, bb_count bb, bb_loop_depth bb))
                          (filter is_direct_call (bb_stmts bb))) bbs.

(* The reason initialize_inline_failed writes on the edges into a node. *)
Definition inline_failed_reason (nd : cgraph_node) : string :=
  if redefined_extern_inline (local_info nd) then REDEFINED_EXTERN_INLINE_REASON
  else if negb (inlinable (local_info nd)) then NOT_INLINABLE_REASON
  else NOT_CONSIDERED_REASON.

(** * Visibility *)

Definition l_set_local (l : cgraph_local_info) x :=
  mk_local (self_insns l) x (externally_visible l) (finalized l) (inlinable l) (disregard_inline_limits l) (redefined_extern_inline l).
Definition l_set_externally_visible (l : cgraph_local_info) x :=
  mk_local (self_insns l) (local l) x (finalized l) (inlinable l) (disregard_inline_limits l) (redefined_extern_inline l).
Definition a_set_public (a : decl_attrs) x :=
  mk_decl_attrs x (TREE_STATIC a) (TREE_USED a) (DECL_EXTERNAL a) (DECL_COMDAT a)
    (DECL_INLINE a) (DECL_DECLARED_INLINE_P a) (DECL_UNINLINABLE a) (DECL_ARTIFICIAL a)
    (DECL_IGNORED_P a) (DECL_NO_INSTRUMENT_FUNCTION_ENTRY_EXIT a)
    (DECL_STATIC_CONSTRUCTOR a) (DECL_STATIC_DESTRUCTOR a) (MAIN_NAME_P a)
    (used_attribute a) (assembler_name_referenced a) (decl_function_contexts a).

(* The body of the function loop of cgraph_function_and_variable_visibility. *)
Definition function_visibility_node (st : cg_state) (node : nat)
    : option cg_state :=
  let nd := node_of st node in
  let a := attrs_of st node in
  let st1 :=
    if reachable nd
       && (DECL_COMDAT a
           || (negb (flag_whole_program opts) && TREE_PUBLIC a
               && negb (DECL_EXTERNAL a)))
    then update_local st node (fun l => l_set_externally_visible l true)
    else st in
  let nd1 := node_of st1 node in
  st2 <- (if negb (externally_visible (local_info nd1)) && analyzed nd1
             && negb (DECL_EXTERNAL (attrs_of st1 node))
          then
            _ <- gcc_assert (flag_whole_program opts
                             || negb (TREE_PUBLIC (attrs_of st1 node))) ;;
            Some (st_set_decls st1 (upd (decls st1) (decl_of st1 node)
                                     (a_set_public (attrs_of st1 node) false)))
          else Some st1) ;;
  let nd2 := node_of st2 node in
  Some (update_local st2 node (fun l =>
          l_set_local l (negb (needed nd2) && analyzed nd2
                         && negb (DECL_EXTERNAL (attrs_of st2 node))
                         && negb (externally_visible l)))).

(* The function loop of cgraph_function_and_variable_visibility. *)
Definition cgraph_function_visibility (st : cg_state) : option cg_state :=
  fold_left (fun acc n => s <- acc ;; function_visibility_node s n)
            (cgraph_nodes (graph st)) (Some st).

(** * Emitting the variables *)

(* assemble_variable (decl, 0, 1, 0), the back-end's emission of a
   variable. *)
Variable assemble_variable : body_table -> nat -> body_table.

(* The loop of cgraph_varpool_assemble_pending_decls on the variable queue
   [q]; the last component lists the assemble_variable calls. *)
Fixpoint varpool_assemble_loop (q : list nat) (st : cg_state) (changed : bool)
    (log : list nat) : cg_state * bool * list nat :=
  match q with
  | [] => (st, changed, log)
  | d :: rest =>
      let st1 := st_set_varpool_queue st rest in
      if negb (TREE_ASM_WRITTEN (bodies st1 d)) && negb (v_alias (varpool st1 d))
         && negb (DECL_EXTERNAL (decls st1 d))
      then varpool_assemble_loop rest
             (st_set_bodies st1 (assemble_variable (bodies st1) d)) true (log ++ [d])
      else varpool_assemble_loop rest st1 changed log
  end.

(* cgraph_varpool_assemble_pending_decls (); [errors] is
   errorcount || sorrycount, and the analyzer's loop runs on [fuel]. *)
Definition cgraph_varpool_assemble_pending_decls (errors : bool) (fuel : nat)
    (st : cg_state) : option (cg_state * bool * list nat) :=
  if errors then Some (st, false, [])
  else
    r <- cgraph_varpool_analyze_pending_decls fuel st ;;
    let st1 := fst r in
    Some (varpool_assemble_loop (cgraph_varpool_nodes_queue st1) st1 false []).

(** * Small concrete configurations *)

Definition plain_attrs : decl_attrs :=
  mk_decl_attrs false false false false false false false false false false
                false false false false false false [].
Definition no_body : decl_body := mk_decl_body None None None false.
Definition blank_node (d : nat) : cgraph_node :=
  mk_node d zero_local zero_global zero_rtl false false false false false false false.
Definition plain_vnode : cgraph_varpool_node := mk_vnode false false false false false.

Definition empty_store : cgraph_store :=
  mk_store blank_node [] (fun _ => None) 0 0 [].

Definition empty_state : cg_state :=
  mk_state empty_store [] (fun _ => plain_vnode) [] [] (fun _ => plain_attrs)
           (fun _ => no_body) 100 0 false false None [] [] None.

Definition set_asm_written (b : decl_body) : decl_body :=
  mk_decl_body (DECL_SAVED_TREE b) (DECL_STRUCT_FUNCTION b) (DECL_INITIAL b) true.

(* Collaborators for the examples: lowering keeps the body, the back-end
   writes the assembly, the front-end's analyze_expr marks nothing. *)
Definition test_hooks : hooks :=
  mk_hooks (fun b _ => b)
           (fun b d => upd b d (set_asm_written (b d)))
           (fun b d => upd b d (set_asm_written (b d)))
           (fun b _ => b)
           (Some (fun _ _ _ => mk_ae [] [] true None))
           (fun s _ => s)
           (fun g _ => g)
           (fun _ _ => true)
           (fun _ _ => 10%Z)
           (fun _ => false)
           (fun _ => true)
           cgraph_nodes
           (fun s => s)
           "function body not available"%string.

Definition unit_opts : options := mk_options true false false false false.
Definition streaming_opts : options := mk_options false false false false false.

(* A function declaration [d] with a one-block body made of [stmts]. *)
Definition fn_body (stmts : list tree) : decl_body :=
  mk_decl_body (Some (Tree 90 (EXPR_CODE 50) []))
               (Some (mk_sf (Some [mk_bb 1 0 stmts]) [])) None false.

Definition call_stmt_to (u d : nat) : tree :=
  Tree u CALL_EXPR [Tree (u + 1) ADDR_EXPR [Tree (u + 2) (FUNCTION_DECL d) []];
                    Tree (u + 3) (EXPR_CODE 60) []].

(* A unit where node 0 is the function [1], whose body calls itself. *)
Definition self_call_state : cg_state :=
  let g := mk_store (upd blank_node 0 (blank_node 1)) [0]
                    (upd (fun _ => None) 1 (Some 0)) 1 1 [] in
  st_set_bodies (st_set_graph empty_state g)
    (upd (fun _ => no_body) 1 (fn_body [call_stmt_to 10 1])).

(* -fno-inline. *)
Definition noinline_opts : options := mk_options true false true false false.

(* self_call_state once [1] has been finalized. *)
Definition finalized_self_state : cg_state :=
  update_node self_call_state 0
    (fun nd => n_set_local nd (l_set_finalized (local_info nd) true)).

(* self_call_state with node 0 reachable and on the function worklist. *)
Definition queued_self_state : cg_state :=
  st_set_queue (update_node self_call_state 0 (fun nd => n_set_reachable nd true)) [0].

(* finalized_self_state once node 0 is needed, reachable and analyzed. *)
Definition ready_self_state : cg_state :=
  update_node finalized_self_state 0
    (fun nd => n_set_analyzed (n_set_reachable (n_set_needed nd true) true) true).

(* ready_self_state with node 0 marked for output. *)
Definition output_self_state : cg_state :=
  update_node ready_self_state 0 (fun nd => n_set_output nd true).

(** * Store lemmas *)

Lemma upd_same {A} (f : nat -> A) k v : upd f k v k = v.
Proof. unfold upd. now rewrite Nat.eqb_refl. Qed.

Lemma upd_other {A} (f : nat -> A) k k' v : k' <> k -> upd f k v k' = f k'.
Proof. intros Hne. unfold upd. now rewrite (proj2 (Nat.eqb_neq k' k) Hne). Qed.

Lemma node_of_update_same st n f : node_of (update_node st n f) n = f (node_of st n).
Proof. apply upd_same. Qed.

Lemma node_of_update_other st n m f :
  m <> n -> node_of (update_node st n f) m = node_of st m.
Proof. intros. now apply upd_other. Qed.

Lemma node_of_update st n m f :
  node_of (update_node st n f) m =
  if Nat.eqb m n then f (node_of st n) else node_of st m.
Proof. reflexivity. Qed.

Lemma node_of_set_queue st q : node_of (st_set_queue st q) = node_of st.
Proof. reflexivity. Qed.

(* Marking needed makes the node needed and reachable, or fails once the
   global information is ready. *)
Lemma mark_reachable_spec st n st' :
  cgraph_mark_reachable_node st n = Some st' ->
  reachable (node_of st' n) = true /\
  (forall m, needed (node_of st' m) = needed (node_of st m)).
Proof.
  unfold cgraph_mark_reachable_node.
  destruct (reachable (node_of st n)) eqn:Hr.
  - intros [= <-]. auto.
  - destruct (cgraph_global_info_ready st); cbn; [discriminate|].
    intros [= <-]. rewrite node_of_set_queue. split.
    + now rewrite node_of_update_same.
    + intros m. rewrite node_of_update. destruct (Nat.eqb m n) eqn:E; [|reflexivity].
      apply Nat.eqb_eq in E. now subst.
Qed.

Lemma mark_needed_spec st n st' :
  cgraph_mark_needed_node st n = Some st' ->
  needed (node_of st' n) = true /\ reachable (node_of st' n) = true.
Proof.
  unfold cgraph_mark_needed_node. intros Hm.
  apply mark_reachable_spec in Hm as [Hr Hn]. split; [|exact Hr].
  rewrite Hn. now rewrite node_of_update_same.
Qed.

Lemma varpool_mark_needed_spec st d :
  v_needed (varpool (cgraph_varpool_mark_needed_node st d) d) = true.
Proof.
  unfold cgraph_varpool_mark_needed_node.
  destruct (v_needed (varpool st d)) eqn:E; [exact E|].
  cbn. now rewrite upd_same.
Qed.

(** * C7: the reference walker *)

(** C7. record_reference, node by node, with the front-end's analyze_expr
    hook installed: a static or external variable is marked needed in the
    varpool and the hook is then called on it; in whole-unit mode the address
    (or descriptor) of a function marks that function's node needed (and
    reachable), in streaming mode it does nothing; types and declarations
    stop the walk below them (walk_tree calls record_reference on them and
    visits none of their operands); codes past LAST_AND_UNUSED_TREE_CODE go
    to the hook. *)
Theorem record_reference_cases f :
  analyze_expr H = Some f ->
  (forall data st t d,
     TREE_CODE t = VAR_DECL d ->
     TREE_STATIC (decls st d) || DECL_EXTERNAL (decls st d) = true ->
     v_needed (varpool (cgraph_varpool_mark_needed_node st d) d) = true /\
     record_reference data st t =
       run_analyze_expr (cgraph_varpool_mark_needed_node st d) (f t true data)) /\
  (forall data st t u fd ops,
     (TREE_CODE t = ADDR_EXPR \/ TREE_CODE t = FDESC_EXPR) ->
     TREE_OPERAND t 0 = Some (Tree u (FUNCTION_DECL fd) ops) ->
     (flag_unit_at_a_time opts = true ->
        forall st' ws res, record_reference data st t = Some (st', ws, res) ->
        let n := snd (cgraph_node_lookup st fd) in
        needed (node_of st' n) = true /\ reachable (node_of st' n) = true) /\
     (flag_unit_at_a_time opts = false ->
        record_reference data st t = Some (st, true, None))) /\
  (forall data st t,
     IS_TYPE_OR_DECL_P t = true -> (forall d, TREE_CODE t <> VAR_DECL d) ->
     record_reference data st t = Some (st, false, None)) /\
  (forall data st t vis,
     IS_TYPE_OR_DECL_P t = true -> existsb (Nat.eqb (tree_uid t)) vis = false ->
     walk_tree (record_reference data) t st vis =
       (r <- record_reference data st t ;;
        let '(st1, _, res) := r in Some (st1, tree_uid t :: vis, res))) /\
  (forall data st t,
     Nat.leb LAST_AND_UNUSED_TREE_CODE (tree_code_number (TREE_CODE t)) = true ->
     record_reference data st t = run_analyze_expr st (f t true data)).
Proof.
  intros Hf. split; [|split; [|split; [|split]]].
  - intros data st t d Hc Hs. split; [apply varpool_mark_needed_spec|].
    unfold record_reference. rewrite Hc, Hs, Hf. reflexivity.
  - intros data st t u fd ops Hc Hop. split.
    + intros Hu st' ws res Hrr. unfold record_reference in Hrr.
      destruct Hc as [Hc | Hc]; rewrite Hc, Hu, Hop in Hrr;
      destruct (cgraph_node_lookup st fd) as [st1 n] eqn:El;
      destruct (cgraph_mark_needed_node st1 n) as [st2|] eqn:Em; cbn in Hrr;
      try discriminate; injection Hrr as Hst _ _; subst st';
      cbv zeta; cbn [snd]; exact (mark_needed_spec _ _ _ Em).
    + intros Hu. unfold record_reference. destruct Hc as [-> | ->]; now rewrite Hu.
  - intros data st t Htd Hnv. unfold record_reference.
    destruct t as [u c ops]; cbn in *.
    destruct c; cbn in *; try discriminate; try reflexivity.
    exfalso. now apply (Hnv d).
  - intros data st t vis Htd Hnv. destruct t as [u c ops]. cbn in Htd, Hnv |- *.
    rewrite Hnv.
    destruct (record_reference data st (Tree u c ops)) as [[[st1 ws] res]|]; cbn;
      [|reflexivity].
    destruct res; [reflexivity|]. rewrite Htd. now rewrite andb_false_r.
  - intros data st t Hc. unfold record_reference. destruct t as [u c ops].
    destruct c; try (vm_compute in Hc; discriminate).
    cbn [TREE_CODE IS_TYPE_OR_DECL_P tree_code_number] in *.
    rewrite Hc, Hf. reflexivity.
Qed.

(** * Expansion lemmas *)

Lemma lower_node_fields st n m :
  decl (node_of (cgraph_lower_function st n) m) = decl (node_of st m) /\
  global_info (node_of (cgraph_lower_function st n) m) = global_info (node_of st m) /\
  local_info (node_of (cgraph_lower_function st n) m) = local_info (node_of st m) /\
  reachable (node_of (cgraph_lower_function st n) m) = reachable (node_of st m) /\
  analyzed (node_of (cgraph_lower_function st n) m) = analyzed (node_of st m) /\
  output (node_of (cgraph_lower_function st n) m) = output (node_of st m) /\
  alias (node_of (cgraph_lower_function st n) m) = alias (node_of st m).
Proof.
  unfold cgraph_lower_function. destruct (lowered (node_of st n)); [tauto|].
  rewrite node_of_update. destruct (Nat.eqb m n) eqn:E; [|cbn; tauto].
  apply Nat.eqb_eq in E. subst. cbn. tauto.
Qed.

Lemma lower_graph st n :
  cgraph_nodes (graph (cgraph_lower_function st n)) = cgraph_nodes (graph st) /\
  cgraph_edges (graph (cgraph_lower_function st n)) = cgraph_edges (graph st) /\
  cgraph_n_nodes (graph (cgraph_lower_function st n)) = cgraph_n_nodes (graph st) /\
  decls (cgraph_lower_function st n) = decls st /\
  cgraph_nodes_queue (cgraph_lower_function st n) = cgraph_nodes_queue st /\
  cgraph_global_info_ready (cgraph_lower_function st n) = cgraph_global_info_ready st /\
  expanded (cgraph_lower_function st n) = expanded st.
Proof.
  unfold cgraph_lower_function. destruct (lowered (node_of st n)); cbn; tauto.
Qed.

Lemma preserve_congr st st' d :
  decls st' = decls st ->
  cgraph_global_info_ready st' = cgraph_global_info_ready st ->
  cgraph_nodes (graph st') = cgraph_nodes (graph st) ->
  (forall m, decl (node_of st' m) = decl (node_of st m) /\
             inlined_to (global_info (node_of st' m)) = inlined_to (global_info (node_of st m))) ->
  cgraph_preserve_function_body_p st' d = cgraph_preserve_function_body_p st d.
Proof.
  intros Hd Hg Hn Hm. unfold cgraph_preserve_function_body_p, clone_chain, decl_of.
  rewrite Hd, Hg, Hn.
  destruct (dump_tree_all opts); [reflexivity|].
  destruct (negb _); [reflexivity|].
  assert (Hf : filter (fun n => Nat.eqb (decl (node_of st' n)) d) (cgraph_nodes (graph st))
             = filter (fun n => Nat.eqb (decl (node_of st n)) d) (cgraph_nodes (graph st))).
  { apply filter_ext. intros a. now rewrite (proj1 (Hm a)). }
  rewrite Hf.
  generalize (filter (fun n => Nat.eqb (decl (node_of st n)) d) (cgraph_nodes (graph st))).
  intros l. induction l as [|a l IH]; [reflexivity|].
  cbn. now rewrite (proj2 (Hm a)), IH.
Qed.

Lemma callees_after_remove st n : callees_of (cgraph_node_remove_callees st n) n = [].
Proof.
  unfold callees_of, cgraph_node_remove_callees, set_edges. cbn.
  induction (cgraph_edges (graph st)) as [|e es IH]; [reflexivity|].
  cbn. destruct (Nat.eqb (caller e) n) eqn:E; cbn; [exact IH|].
  rewrite E. exact IH.
Qed.

(** * C8: expanding one function *)

(** C8. cgraph_expand_function fails on an inline clone (a node with
    inlined_to set) and when the back-end's expand hook has not written the
    declaration's assembly; when it succeeds the back-end was called on the
    node, and unless cgraph_preserve_function_body_p holds for the
    declaration, the saved body and the struct-function are gone, DECL_INITIAL
    is error_mark_node and the node has no callee edges left; when the body is
    preserved, the declaration is as the back-end left it and the edges are
    untouched. *)
Theorem cgraph_expand_function_spec st node :
  let d := decl_of st node in
  let b := expand_function_hook H (bodies (cgraph_lower_function st node)) d in
  (is_inline_clone (node_of st node) = true -> cgraph_expand_function st node = None) /\
  (TREE_ASM_WRITTEN (b d) = false -> cgraph_expand_function st node = None) /\
  (forall st', cgraph_expand_function st node = Some st' ->
     is_inline_clone (node_of st node) = false /\
     TREE_ASM_WRITTEN (b d) = true /\
     expanded st' = expanded st ++ [node] /\
     (cgraph_preserve_function_body_p st d = false ->
        DECL_SAVED_TREE (bodies st' d) = None /\
        DECL_STRUCT_FUNCTION (bodies st' d) = None /\
        DECL_INITIAL (bodies st' d) = Some error_mark_node /\
        callees_of st' node = []) /\
     (cgraph_preserve_function_body_p st d = true ->
        bodies st' = b /\ cgraph_edges (graph st') = cgraph_edges (graph st))).
Proof.
  cbv zeta.
  assert (Hpres : cgraph_preserve_function_body_p
                    (st_set_current_function_decl
                       (st_set_expanded
                          (st_set_bodies (cgraph_lower_function st node)
                             (expand_function_hook H (bodies (cgraph_lower_function st node))
                                (decl_of st node)))
                          (expanded (cgraph_lower_function st node) ++ [node])) None)
                    (decl_of st node)
                  = cgraph_preserve_function_body_p st (decl_of st node)).
  { apply (preserve_congr st (cgraph_lower_function st node)); apply lower_graph
      || (intros m; pose proof (lower_node_fields st node m) as Hl;
          destruct Hl as [-> [-> _]]; auto). }
  unfold cgraph_expand_function, is_inline_clone.
  destruct (inlined_to (global_info (node_of st node))) as [m|]; cbn;
    [split; [reflexivity|split; [reflexivity|discriminate]]|].
  destruct (TREE_ASM_WRITTEN
              (expand_function_hook H (bodies (cgraph_lower_function st node))
                 (decl_of st node) (decl_of st node))) eqn:Ew; cbn;
    [|split; [discriminate|split; [reflexivity|discriminate]]].
  split; [discriminate|split; [discriminate|]].
  intros st' Hst'. rewrite Hpres in Hst'.
  destruct (lower_graph st node) as [_ [He [_ [_ [_ [_ Hx]]]]]].
  destruct (cgraph_preserve_function_body_p st (decl_of st node)) eqn:Ep;
    cbn in Hst'; injection Hst' as <-; cbn; rewrite Hx.
  - repeat split; try reflexivity; try discriminate. exact He.
  - repeat split; try reflexivity; try discriminate.
    + unfold update_body. cbn. now rewrite !upd_same.
    + unfold update_body. cbn. now rewrite !upd_same.
    + unfold update_body. cbn. now rewrite !upd_same.
    + apply callees_after_remove.
Qed.

Lemma expand_function_frame st n st' :
  cgraph_expand_function st n = Some st' ->
  cgraph_nodes_queue st' = cgraph_nodes_queue st /\
  decls st' = decls st /\
  cgraph_nodes (graph st') = cgraph_nodes (graph st) /\
  cgraph_n_nodes (graph st') = cgraph_n_nodes (graph st) /\
  cgraph_global_info_ready st' = cgraph_global_info_ready st /\
  expanded st' = expanded st ++ [n] /\
  (forall m, decl (node_of st' m) = decl (node_of st m) /\
             global_info (node_of st' m) = global_info (node_of st m) /\
             local_info (node_of st' m) = local_info (node_of st m) /\
             reachable (node_of st' m) = reachable (node_of st m) /\
             analyzed (node_of st' m) = analyzed (node_of st m) /\
             output (node_of st' m) = output (node_of st m) /\
             alias (node_of st' m) = alias (node_of st m)).
Proof.
  unfold cgraph_expand_function.
  destruct (inlined_to (global_info (node_of st n))); cbn; [discriminate|].
  destruct (TREE_ASM_WRITTEN _); cbn; [|discriminate].
  destruct (lower_graph st n) as [Hn [_ [Hc [Hd [Hq [Hg Hx]]]]]].
  destruct (cgraph_preserve_function_body_p _ _); cbn; intros [= <-]; cbn;
    rewrite Hx; (split; [exact Hq|split; [exact Hd|split; [exact Hn|split; [exact Hc|split; [exact Hg|split; [reflexivity|]]]]]]);
    intros m; apply lower_node_fields.
Qed.

Lemma assemble_eligible_frame st st' :
  decls st' = decls st ->
  (forall m, decl (node_of st' m) = decl (node_of st m) /\
             global_info (node_of st' m) = global_info (node_of st m) /\
             alias (node_of st' m) = alias (node_of st m)) ->
  forall m, assemble_eligible st' m = assemble_eligible st m.
Proof.
  intros Hd Hm m. unfold assemble_eligible, is_inline_clone, attrs_of, decl_of.
  destruct (Hm m) as [H1 [H2 H3]]. now rewrite Hd, H1, H2, H3.
Qed.

Lemma existsb_congr (f g : nat -> bool) l :
  (forall x, f x = g x) -> existsb f l = existsb g l.
Proof. intros E. induction l as [|x l IH]; cbn; [reflexivity|now rewrite E, IH]. Qed.

Lemma assemble_loop_step fuel st n rest out :
  cgraph_nodes_queue st = n :: rest ->
  assemble_loop (S fuel) st out =
  if assemble_eligible st n
  then (st2 <- cgraph_expand_function (st_set_queue st rest) n ;;
        assemble_loop fuel st2 true)
  else assemble_loop fuel (st_set_queue st rest) out.
Proof. intros E. cbn [assemble_loop]. rewrite E. reflexivity. Qed.

Lemma assemble_loop_spec fuel st out st' out' :
  assemble_loop fuel st out = Some (st', out') ->
  cgraph_nodes_queue st' = [] /\
  expanded st' = expanded st ++ filter (assemble_eligible st) (cgraph_nodes_queue st) /\
  out' = out || existsb (assemble_eligible st) (cgraph_nodes_queue st).
Proof.
  revert st out. induction fuel as [|fuel IH]; intros st out Hl;
    destruct (cgraph_nodes_queue st) as [|n rest] eqn:Eqq.
  - cbn in Hl. rewrite Eqq in Hl. injection Hl as <- <-. rewrite Eqq. cbn.
    rewrite app_nil_r, orb_false_r. auto.
  - cbn in Hl. rewrite Eqq in Hl. discriminate.
  - cbn in Hl. rewrite Eqq in Hl. injection Hl as <- <-. rewrite Eqq. cbn.
    rewrite app_nil_r, orb_false_r. auto.
  - rewrite (assemble_loop_step fuel st n rest out Eqq) in Hl.
    cbn [filter existsb].
    destruct (assemble_eligible st n) eqn:Ee.
    + destruct (cgraph_expand_function (st_set_queue st rest) n) as [st2|] eqn:Ex;
        cbn in Hl; [|discriminate].
      apply IH in Hl as [Hq [Hx Ho]].
      destruct (expand_function_frame _ _ _ Ex) as [Hq2 [Hd2 [_ [_ [_ [Hx2 Hm2]]]]]].
      assert (Hel : forall m, assemble_eligible st2 m = assemble_eligible st m).
      { apply (assemble_eligible_frame st st2 Hd2). intros m.
        destruct (Hm2 m) as [A [B [_ [_ [_ [_ C]]]]]]. auto. }
      rewrite Hq2 in Hx, Ho.
      change (cgraph_nodes_queue (st_set_queue st rest)) with rest in Hx, Ho.
      rewrite (filter_ext _ _ Hel) in Hx.
      rewrite (existsb_congr _ _ rest Hel) in Ho.
      split; [exact Hq|split].
      * rewrite Hx, Hx2. cbn. now rewrite <- app_assoc.
      * rewrite Ho. now destruct out.
    + apply IH in Hl as [Hq [Hx Ho]]. cbn in Hx, Ho.
      split; [exact Hq|split; [exact Hx|exact Ho]].
Qed.

(** * C10: draining the needed queue in streaming mode *)

(** C10. In whole-unit mode cgraph_assemble_pending_functions returns false
    and changes nothing.  In streaming mode, when it completes, the needed
    queue is empty, the functions expanded are exactly the dequeued nodes that
    are not inline clones, not aliases and not external, in queue order, and
    it returns true exactly when at least one function was expanded. *)
Theorem cgraph_assemble_pending_functions_spec st :
  (flag_unit_at_a_time opts = true ->
     cgraph_assemble_pending_functions st = Some (st, false)) /\
  (flag_unit_at_a_time opts = false ->
     forall st' out, cgraph_assemble_pending_functions st = Some (st', out) ->
     cgraph_nodes_queue st' = [] /\
     expanded st' = expanded st ++ filter (assemble_eligible st) (cgraph_nodes_queue st) /\
     (out = true <-> expanded st' <> expanded st)).
Proof.
  unfold cgraph_assemble_pending_functions. split.
  - intros Hu. now rewrite Hu.
  - intros Hu st' out Ha. rewrite Hu in Ha.
    apply assemble_loop_spec in Ha as [Hq [Hx Ho]].
    split; [exact Hq|split; [exact Hx|]].
    rewrite Ho, Hx. cbn.
    destruct (filter (assemble_eligible st) (cgraph_nodes_queue st)) as [|a l] eqn:Ef.
    + assert (Hn : existsb (assemble_eligible st) (cgraph_nodes_queue st) = false).
      { apply Bool.not_true_iff_false. intros Hex.
        apply existsb_exists in Hex as [x [Hin Hx']].
        assert (Hfx : In x (filter (assemble_eligible st) (cgraph_nodes_queue st)))
          by (apply filter_In; auto).
        rewrite Ef in Hfx. contradiction. }
      rewrite Hn, app_nil_r. split; [discriminate|]. intros Hc. now exfalso.
    + assert (Hy : existsb (assemble_eligible st) (cgraph_nodes_queue st) = true).
      { apply existsb_exists. exists a.
        assert (Ha : In a (filter (assemble_eligible st) (cgraph_nodes_queue st)))
          by (rewrite Ef; left; reflexivity).
        apply filter_In in Ha. exact Ha. }
      rewrite Hy. split; [intros _|reflexivity].
      intros Heq. apply (f_equal (@List.length nat)) in Heq.
      rewrite length_app in Heq. cbn in Heq. lia.
Qed.

(** * Facts about resetting a node *)

Lemma remove_node_frame s x m :
  node_store (graph (cgraph_remove_node s x)) = node_store (graph s) /\
  cgraph_nodes_queue (cgraph_remove_node s x) = cgraph_nodes_queue s /\
  (In m (cgraph_nodes (graph (cgraph_remove_node s x))) <->
   In m (cgraph_nodes (graph s)) /\ m <> x).
Proof.
  unfold cgraph_remove_node. cbn. split; [reflexivity|split; [reflexivity|]].
  rewrite filter_In. destruct (Nat.eqb m x) eqn:E; cbn.
  - apply Nat.eqb_eq in E. split; [intros [_ C]; discriminate|]. intros [_ C]. contradiction.
  - apply Nat.eqb_neq in E. tauto.
Qed.

Lemma remove_inlined_fold n l : forall s,
  node_store (graph (fold_left (remove_if_inlined_into n) l s)) = node_store (graph s) /\
  cgraph_nodes_queue (fold_left (remove_if_inlined_into n) l s) = cgraph_nodes_queue s /\
  (forall m, In m (cgraph_nodes (graph (fold_left (remove_if_inlined_into n) l s))) <->
     In m (cgraph_nodes (graph s)) /\
     ~ (In m l /\ inlined_to (global_info (node_of s m)) = Some n)).
Proof.
  induction l as [|x l IH]; intros s; cbn [fold_left].
  - split; [reflexivity|split; [reflexivity|]]. intros m. cbn. tauto.
  - assert (Hx : node_store (graph (remove_if_inlined_into n s x)) = node_store (graph s) /\
                 cgraph_nodes_queue (remove_if_inlined_into n s x) = cgraph_nodes_queue s /\
                 (forall m, In m (cgraph_nodes (graph (remove_if_inlined_into n s x))) <->
                    In m (cgraph_nodes (graph s)) /\
                    ~ (m = x /\ inlined_to (global_info (node_of s m)) = Some n))).
    { unfold remove_if_inlined_into.
      destruct (inlined_to (global_info (node_of s x))) as [k|] eqn:Ek.
      - destruct (Nat.eqb k n) eqn:Ekn.
        + apply Nat.eqb_eq in Ekn. subst k.
          split; [apply (remove_node_frame s x 0)|split; [apply (remove_node_frame s x 0)|]].
          intros m. rewrite (proj2 (proj2 (remove_node_frame s x m))).
          split; [intros [A B]; split; [exact A|intros [C _]; contradiction]|].
          intros [A B]. split; [exact A|]. intros C. subst m. tauto.
        + apply Nat.eqb_neq in Ekn.
          split; [reflexivity|split; [reflexivity|]]. intros m.
          split; [intros A; split; [exact A|]|tauto].
          intros [C D]. subst m. rewrite Ek in D. injection D. auto.
      - split; [reflexivity|split; [reflexivity|]]. intros m.
        split; [intros A; split; [exact A|]|tauto].
        intros [C D]. subst m. rewrite Ek in D. discriminate. }
    destruct Hx as [Hs [Hq Hm]].
    destruct (IH (remove_if_inlined_into n s x)) as [Hs' [Hq' Hm']].
    split; [congruence|split; [congruence|]].
    intros m. rewrite Hm', Hm.
    assert (Hn : node_of (remove_if_inlined_into n s x) m = node_of s m) by (unfold node_of; now rewrite Hs).
    rewrite Hn. cbn [In].
    split.
    + intros [[A B] C]. split; [exact A|]. intros [[D|D] E]; [subst; tauto|tauto].
    + intros [A B]. split; [split; [exact A|]|]; intros [D E]; apply B; split; auto.
Qed.



Lemma remove_callees_frame st n :
  node_store (graph (cgraph_node_remove_callees st n)) = node_store (graph st) /\
  cgraph_nodes (graph (cgraph_node_remove_callees st n)) = cgraph_nodes (graph st) /\
  cgraph_nodes_queue (cgraph_node_remove_callees st n) = cgraph_nodes_queue st.
Proof. repeat split. Qed.

Ltac split_ifs :=
  repeat match goal with |- context [if ?b then _ else _] => destruct b end.

(** * C5: redefinition resets the node *)

Lemma remove_inlined_fold_bodies n l : forall s,
  bodies (fold_left (remove_if_inlined_into n) l s) = bodies s.
Proof.
  induction l as [|x l IH]; intros s; cbn; [reflexivity|]. rewrite IH.
  unfold remove_if_inlined_into. destruct (inlined_to _); [destruct (Nat.eqb _ _)|]; reflexivity.
Qed.

(* What cgraph_reset_node does, and the declaration and bodies it keeps. *)
Lemma reset_node_effects st n :
  (cgraph_reset_node st n = None <-> output (node_of st n) = true) /\
  forall st', cgraph_reset_node st n = Some st' ->
    local_info (node_of st' n) = mk_local 0 false false false false false true /\
    global_info (node_of st' n) = zero_global /\
    rtl_info (node_of st' n) = zero_rtl /\
    analyzed (node_of st' n) = false /\
    callees_of st' n = [] /\
    (forall m, m <> n -> node_of st' m = node_of st m) /\
    cgraph_nodes_queue st' = cgraph_nodes_queue st /\
    (flag_unit_at_a_time opts = true ->
       cgraph_nodes (graph st') = cgraph_nodes (graph st) /\
       reachable (node_of st' n) = reachable (node_of st n)) /\
    (flag_unit_at_a_time opts = false ->
       (forall m, In m (cgraph_nodes (graph st')) <->
          In m (cgraph_nodes (graph st)) /\
          ~ (m <> n /\ inlined_to (global_info (node_of st m)) = Some n)) /\
       reachable (node_of st' n) =
         reachable (node_of st n) && existsb (Nat.eqb n) (cgraph_nodes_queue st)) /\
    decl (node_of st' n) = decl (node_of st n) /\ bodies st' = bodies st.
Proof.
  unfold cgraph_reset_node.
  destruct (output (node_of st n)) eqn:Eo; cbn [gcc_assert bind negb].
  { split; [tauto|]. intros st' Hc. discriminate. }
  split; [split; [discriminate|intros C; discriminate]|].
  intros st' Hst.
  set (st4 := update_local (update_local (update_node (update_node st n _) n _) n _) n _) in Hst.
  assert (H4n : node_of st4 n =
    n_set_local (n_set_analyzed (n_set_rtl (n_set_global (n_set_local (node_of st n)
      zero_local) zero_global) zero_rtl) false) (mk_local 0 false false false false false true)).
  { subst st4. unfold update_local. rewrite !node_of_update, Nat.eqb_refl. reflexivity. }
  assert (H4m : forall m, m <> n -> node_of st4 m = node_of st m).
  { intros m Hm. subst st4. unfold update_local. rewrite !node_of_update.
    apply Nat.eqb_neq in Hm. now rewrite Hm. }
  assert (H4c : cgraph_nodes (graph st4) = cgraph_nodes (graph st) /\
                cgraph_nodes_queue st4 = cgraph_nodes_queue st) by (split; reflexivity).
  set (st5 := if negb (flag_unit_at_a_time opts) then _ else st4) in Hst.
  assert (H5 : node_store (graph st5) = node_store (graph st4) /\
               cgraph_nodes_queue st5 = cgraph_nodes_queue st4).
  { subst st5. destruct (negb (flag_unit_at_a_time opts)); [|split; reflexivity].
    destruct (remove_inlined_fold n (cgraph_nodes (graph st4)) st4) as [A [B _]]. auto. }
  destruct (remove_callees_frame st5 n) as [H6s [H6c H6q]].
  set (st6 := cgraph_node_remove_callees st5 n) in *.
  assert (H6n : forall m, node_of st6 m = node_of st4 m).
  { intros m. unfold node_of. rewrite H6s. now rewrite (proj1 H5). }
  assert (Hfin : forall m, m <> n -> node_of st' m = node_of st m).
  { intros m Hm. injection Hst as <-. split_ifs;
      try (rewrite H6n; now apply H4m).
    rewrite node_of_update. destruct (Nat.eqb m n) eqn:E;
      [apply Nat.eqb_eq in E; contradiction|]. rewrite H6n. now apply H4m. }
  assert (Hq' : cgraph_nodes_queue st' = cgraph_nodes_queue st).
  { injection Hst as <-. split_ifs;
      change (cgraph_nodes_queue st6 = cgraph_nodes_queue st);
      rewrite H6q, (proj2 H5); exact (proj2 H4c). }
  assert (Hc' : cgraph_nodes (graph st') = cgraph_nodes (graph st6) /\
                callees_of st' n = callees_of st6 n).
  { injection Hst as <-. split_ifs; split; reflexivity. }
  assert (Hr : reachable (node_of st' n) =
               if flag_unit_at_a_time opts then reachable (node_of st n)
               else reachable (node_of st n) && existsb (Nat.eqb n) (cgraph_nodes_queue st)).
  { assert (Hr6 : reachable (node_of st6 n) = reachable (node_of st n))
      by (rewrite H6n, H4n; reflexivity).
    assert (Hq5 : cgraph_nodes_queue st5 = cgraph_nodes_queue st)
      by (rewrite (proj2 H5); exact (proj2 H4c)).
    assert (Hq6 : cgraph_nodes_queue st6 = cgraph_nodes_queue st) by (rewrite H6q; exact Hq5).
    injection Hst as <-. rewrite Hr6. rewrite ?Hq5, ?Hq6.
    destruct (flag_unit_at_a_time opts); cbn [negb]; rewrite ?andb_false_r, ?andb_true_r;
      [exact Hr6|].
    destruct (reachable (node_of st n)); [|exact Hr6]. cbn [andb].
    destruct (existsb (Nat.eqb n) (cgraph_nodes_queue st)); [exact Hr6|].
    rewrite node_of_update, Nat.eqb_refl. reflexivity. }
  assert (Hloc : node_of st' n = node_of st6 n \/
                 node_of st' n = n_set_reachable (node_of st6 n) false).
  { injection Hst as <-. split_ifs; try (left; reflexivity).
    right. rewrite node_of_update, Nat.eqb_refl. reflexivity. }
  rewrite H6n, H4n in Hloc.
  split; [destruct Hloc as [-> | ->]; reflexivity|].
  split; [destruct Hloc as [-> | ->]; reflexivity|].
  split; [destruct Hloc as [-> | ->]; reflexivity|].
  split; [destruct Hloc as [-> | ->]; reflexivity|].
  split; [rewrite (proj2 Hc'); apply callees_after_remove|].
  split; [exact Hfin|].
  split; [exact Hq'|].
  assert (Hbod : bodies st' = bodies st).
  { assert (Hb5 : bodies st5 = bodies st4).
    { subst st5. destruct (negb (flag_unit_at_a_time opts)); [|reflexivity].
      apply remove_inlined_fold_bodies. }
    injection Hst as <-. split_ifs; exact Hb5. }
  split; [|split; [|split; [destruct Hloc as [-> | ->]; reflexivity|exact Hbod]]].
  - intros Hu. rewrite Hu in Hr. split; [|exact Hr].
    rewrite (proj1 Hc'). subst st6. rewrite H6c. subst st5. rewrite Hu. reflexivity.
  - intros Hu. rewrite Hu in Hr. split; [|exact Hr].
    intros m. rewrite (proj1 Hc'), H6c. subst st5. rewrite Hu. cbn [negb].
    destruct (remove_inlined_fold n (cgraph_nodes (graph st4)) st4) as [_ [_ Hm]].
    rewrite Hm, (proj1 H4c).
    destruct (Nat.eq_dec m n) as [->|Hne].
    + rewrite H4n. cbn. split; [intros [A _]; split; [exact A|tauto]|].
      intros [A _]. split; [exact A|]. intros [_ C]. discriminate.
    + rewrite (H4m m Hne). split; intros [A B]; split; auto; intros [C D]; apply B; auto.
Qed.

(** C5. When cgraph_finalize_function meets a declaration whose node is
    already finalized, it runs cgraph_reset_node on that node and carries on
    from the resulting state.  cgraph_reset_node fails exactly when the
    node's output flag is set; otherwise it zeroes the node's local, global
    and rtl information except that redefined_extern_inline becomes true
    (so finalized is false), clears analyzed, leaves the node with no callee
    edges and the other nodes' records and the needed queue untouched; in
    unit-at-a-time mode it keeps the node chain and the reachable flag, and
    in streaming mode it unlinks exactly the other nodes inlined into this
    one and keeps the reachable flag only if the node is on the needed
    queue. *)
Theorem cgraph_finalize_function_reset st d is_nested n :
  cgraph_hash (graph st) d = Some n ->
  finalized (local_info (node_of st n)) = true ->
  cgraph_finalize_function st d is_nested =
    (st1 <- cgraph_reset_node st n ;; finalize_function_rest st1 n d is_nested) /\
  (cgraph_reset_node st n = None <-> output (node_of st n) = true) /\
  forall st', cgraph_reset_node st n = Some st' ->
    local_info (node_of st' n) = mk_local 0 false false false false false true /\
    global_info (node_of st' n) = zero_global /\
    rtl_info (node_of st' n) = zero_rtl /\
    analyzed (node_of st' n) = false /\
    callees_of st' n = [] /\
    (forall m, m <> n -> node_of st' m = node_of st m) /\
    cgraph_nodes_queue st' = cgraph_nodes_queue st /\
    (flag_unit_at_a_time opts = true ->
       cgraph_nodes (graph st') = cgraph_nodes (graph st) /\
       reachable (node_of st' n) = reachable (node_of st n)) /\
    (flag_unit_at_a_time opts = false ->
       (forall m, In m (cgraph_nodes (graph st')) <->
          In m (cgraph_nodes (graph st)) /\
          ~ (m <> n /\ inlined_to (global_info (node_of st m)) = Some n)) /\
       reachable (node_of st' n) =
         reachable (node_of st n) && existsb (Nat.eqb n) (cgraph_nodes_queue st)).
Proof.
  intros Hh Hf. split.
  { unfold cgraph_finalize_function, cgraph_node_lookup. rewrite Hh. cbn beta iota.
    now rewrite Hf. }
  destruct (reset_node_effects st n) as [Hnone Hsome]. split; [exact Hnone|].
  intros st' Hst. destruct (Hsome st' Hst) as [A [B [C [D [E [F [G [I [J _]]]]]]]]].
  exact (conj A (conj B (conj C (conj D (conj E (conj F (conj G (conj I J)))))))).
Qed.


(** * Inline-failure reasons *)

Lemma initialize_inline_failed_spec st n st' :
  initialize_inline_failed st n = Some st' ->
  node_store (graph st') = node_store (graph st) /\
  bodies st' = bodies st /\
  cgraph_nodes_queue st' = cgraph_nodes_queue st /\
  forall e, In e (cgraph_edges (graph st')) -> callee e = n ->
    inline_failed e =
      Some (if redefined_extern_inline (local_info (node_of st n))
            then REDEFINED_EXTERN_INLINE_REASON
            else if negb (inlinable (local_info (node_of st n)))
            then NOT_INLINABLE_REASON else NOT_CONSIDERED_REASON).
Proof.
  unfold initialize_inline_failed. cbv zeta.
  set (reason := if redefined_extern_inline (local_info (node_of st n))
                 then REDEFINED_EXTERN_INLINE_REASON
                 else if negb (inlinable (local_info (node_of st n)))
                 then NOT_INLINABLE_REASON else NOT_CONSIDERED_REASON).
  match goal with |- context [fold_right ?F (Some []) ?l] =>
    assert (Hf : forall l0 es, fold_right F (Some []) l0 = Some es ->
              forall e, In e es -> callee e = n -> inline_failed e = Some reason);
    [| destruct (fold_right F (Some []) l) as [es|] eqn:Ef; cbn; [|discriminate];
       intros [= <-]; cbn; split; [reflexivity|split; [reflexivity|split; [reflexivity|]]];
       exact (Hf _ _ Ef)]
  end.
  induction l0 as [|a l0 IH]; cbn [fold_right]; intros es Hes.
  - injection Hes as <-. intros e [].
  - destruct (fold_right _ (Some []) l0) as [rest|] eqn:Er; cbn in Hes; [|discriminate].
    destruct (Nat.eqb (callee a) n) eqn:Ec.
    + destruct (inlined_to _); cbn in Hes; [discriminate|].
      destruct (inline_failed a); cbn in Hes; [|discriminate].
      injection Hes as <-. intros e [<-|Hin] Hce; [reflexivity|].
      exact (IH rest eq_refl e Hin Hce).
    + injection Hes as <-. intros e [<-|Hin] Hce.
      * apply Nat.eqb_neq in Ec. contradiction.
      * exact (IH rest eq_refl e Hin Hce).
Qed.

Lemma node_of_set_current st x :
  node_of (st_set_current_function_decl st x) = node_of st.
Proof. reflexivity. Qed.

Lemma bodies_update_node st n f : bodies (update_node st n f) = bodies st.
Proof. reflexivity. Qed.

Lemma edges_update_node st n f :
  cgraph_edges (graph (update_node st n f)) = cgraph_edges (graph st).
Proof. reflexivity. Qed.

(** * C6: the reason seeded on inbound edges *)

(** C6 (amended).  After cgraph_analyze_function, every edge into the node
    carries the reason chosen by the priority: redefined_extern_inline gives
    "redefined extern inline functions are not considered for inlining";
    otherwise, if tree_inlinable_function_p rejected the body, "function not
    inlinable"; otherwise "function not considered for inlining".  The test
    reads the verdict of tree_inlinable_function_p, taken before the
    -fno-inline override: the node's final inlinable flag is that verdict
    cleared when flag_really_no_inline is set and the limits are not
    disregarded. *)
Theorem cgraph_analyze_function_inline_failed st n st' :
  cgraph_analyze_function st n = Some st' ->
  inlinable (local_info (node_of st' n)) =
    tree_inlinable_function_p H (bodies st') (decl_of st n) &&
    negb (flag_really_no_inline opts &&
          negb (disregard_inline_limits (local_info (node_of st' n)))) /\
  forall e, In e (cgraph_edges (graph st')) -> callee e = n ->
    inline_failed e =
      Some (if redefined_extern_inline (local_info (node_of st' n))
            then REDEFINED_EXTERN_INLINE_REASON
            else if negb (tree_inlinable_function_p H (bodies st') (decl_of st n))
            then NOT_INLINABLE_REASON else NOT_CONSIDERED_REASON).
Proof.
  unfold cgraph_analyze_function. cbv zeta.
  destruct (cgraph_create_edges _ _ _) as [st2|] eqn:E2; cbn [bind]; [|discriminate].
  set (v := tree_inlinable_function_p H (bodies st2) (decl_of st n)).
  set (st3 := update_local st2 n _).
  set (st4 := update_local st3 n _).
  set (st5 := if inlinable _ then _ else st4).
  destruct (initialize_inline_failed st5 n) as [st6|] eqn:E6; cbn [bind]; [|discriminate].
  intros [= <-].
  destruct (initialize_inline_failed_spec _ _ _ E6) as [Hs [Hb [_ He]]].
  assert (Hn6 : node_of st6 n = node_of st5 n) by (unfold node_of; now rewrite Hs).
  assert (Hb5 : bodies st5 = bodies st2)
    by (subst st5; destruct (inlinable _); reflexivity).
  assert (HL5 : inlinable (local_info (node_of st5 n)) = v /\
                redefined_extern_inline (local_info (node_of st5 n)) =
                redefined_extern_inline (local_info (node_of st2 n))).
  { subst st5 st4 st3. unfold update_local.
    destruct (inlinable _); rewrite ?node_of_update, ?Nat.eqb_refl; cbn; auto. }
  rewrite node_of_set_current, !node_of_update, Nat.eqb_refl.
  cbn [n_set_analyzed n_set_global local_info].
  change (bodies (st_set_current_function_decl ?s _)) with (bodies s).
  change (graph (st_set_current_function_decl ?s _)) with (graph s).
  rewrite !bodies_update_node, !edges_update_node.
  match goal with |- context [if ?c then _ else _] => destruct c eqn:Ef end.
  - unfold update_local. rewrite node_of_update, Nat.eqb_refl, bodies_update_node,
      edges_update_node. cbn [n_set_local l_set_inlinable local_info inlinable
      redefined_extern_inline disregard_inline_limits].
    rewrite Hb, Hb5. fold v. rewrite Hn6.
    split.
    + rewrite <- Hn6, Ef. now rewrite andb_false_r.
    + intros e Hin Hce. rewrite (He e Hin Hce), (proj1 HL5). reflexivity.
  - rewrite Hb, Hb5. fold v. rewrite Hn6. split.
    + rewrite (proj1 HL5), <- Hn6, Ef. now rewrite andb_true_r.
    + intros e Hin Hce. rewrite (He e Hin Hce), (proj1 HL5). reflexivity.
Qed.

(** * Declarations and emitted references are left alone *)

Lemma lookup_frame st d : decl_frame (fst (cgraph_node_lookup st d)) = decl_frame st.
Proof. unfold cgraph_node_lookup. now destruct (cgraph_hash (graph st) d). Qed.

Lemma mark_reachable_frame st n st' :
  cgraph_mark_reachable_node st n = Some st' -> decl_frame st' = decl_frame st.
Proof.
  unfold cgraph_mark_reachable_node. destruct (reachable _); [now intros [= <-]|].
  destruct (cgraph_global_info_ready st); cbn; [discriminate|now intros [= <-]].
Qed.

Lemma mark_needed_frame st n st' :
  cgraph_mark_needed_node st n = Some st' -> decl_frame st' = decl_frame st.
Proof. intros Hm. apply mark_reachable_frame in Hm. exact Hm. Qed.

Lemma varpool_mark_needed_frame st d :
  decl_frame (cgraph_varpool_mark_needed_node st d) = decl_frame st.
Proof. unfold cgraph_varpool_mark_needed_node. now destruct (v_needed _). Qed.

Lemma varpool_finalize_frame st d :
  decl_frame (cgraph_varpool_finalize_decl st d) = decl_frame st.
Proof. unfold cgraph_varpool_finalize_decl. now rewrite varpool_mark_needed_frame. Qed.

Lemma varpool_mark_all_frame ds : forall st,
  decl_frame (fold_left cgraph_varpool_mark_needed_node ds st) = decl_frame st.
Proof.
  induction ds as [|d ds IH]; intros st; cbn; [reflexivity|].
  now rewrite IH, varpool_mark_needed_frame.
Qed.

Lemma mark_needed_functions_frame ds : forall st st',
  mark_needed_functions st ds = Some st' -> decl_frame st' = decl_frame st.
Proof.
  induction ds as [|d ds IH]; intros st st'; cbn; [now intros [= <-]|].
  pose proof (lookup_frame st d) as El.
  destruct (cgraph_node_lookup st d) as [st1 n]. cbn in El.
  destruct (cgraph_mark_needed_node st1 n) as [st2|] eqn:Em; cbn; [|discriminate].
  intros Hr. rewrite (IH _ _ Hr). rewrite (mark_needed_frame _ _ _ Em). exact El.
Qed.

Lemma run_analyze_expr_frame st r res :
  run_analyze_expr st r = Some res -> decl_frame (fst (fst res)) = decl_frame st.
Proof.
  unfold run_analyze_expr.
  destruct (mark_needed_functions st (ae_mark_functions r)) as [st1|] eqn:Em; cbn;
    [|discriminate].
  intros [= <-]. cbn. rewrite varpool_mark_all_frame.
  exact (mark_needed_functions_frame _ _ _ Em).
Qed.

Lemma record_reference_frame data st t res :
  record_reference data st t = Some res -> decl_frame (fst (fst res)) = decl_frame st.
Proof.
  unfold record_reference.
  destruct (TREE_CODE t) as [d|fd| | | | | | |k|k|k];
    repeat match goal with
    | |- context [if ?b then _ else _] => destruct b
    | |- context [match analyze_expr H with _ => _ end] =>
        destruct (analyze_expr H) as [f|]
    end;
    try (intros Hr; apply run_analyze_expr_frame in Hr; rewrite Hr;
         try apply varpool_mark_needed_frame; reflexivity);
    try (intros [= <-]; cbn; try apply varpool_mark_needed_frame; reflexivity);
    try discriminate.
  all: destruct (TREE_OPERAND t 0) as [[u c ops]|]; [|now intros [= <-]].
  all: destruct c; try (now intros [= <-]).
  all: match goal with |- context [cgraph_node_lookup ?s ?x] =>
         pose proof (lookup_frame s x) as El;
         destruct (cgraph_node_lookup s x) as [st1 m] end; cbn in El;
       destruct (cgraph_mark_needed_node st1 m) as [st2|] eqn:Em; cbn; [|discriminate];
       intros [= <-]; cbn; rewrite (mark_needed_frame _ _ _ Em); exact El.
Qed.

Lemma walk_tree_frame fn
  (Hfn : forall st t r, fn st t = Some r -> decl_frame (fst (fst r)) = decl_frame st) :
  forall t st vis r, walk_tree fn t st vis = Some r -> decl_frame (fst (fst r)) = decl_frame st.
Proof.
  fix IH 1. intros [u c ops] st vis r. cbn [walk_tree].
  destruct (existsb _ _); [intros [= <-]; reflexivity|].
  destruct (fn st (Tree u c ops)) as [[[st1 ws] res]|] eqn:Ef; cbn [bind]; [|discriminate].
  apply Hfn in Ef. cbn in Ef.
  destruct res as [x|]; [intros [= <-]; exact Ef|].
  destruct (ws && negb _); [|intros [= <-]; exact Ef].
  generalize (u :: vis) as vis1. rewrite <- Ef. clear Ef c u vis.
  revert st1 r. induction ops as [|t1 l' IHl]; intros st1 r vis1.
  - intros [= <-]. reflexivity.
  - cbn [bind].
    destruct (walk_tree fn t1 st1 vis1) as [[[s1 v1] r1]|] eqn:Ew; [|discriminate].
    apply IH in Ew. cbn in Ew. destruct r1.
    + intros [= <-]. exact Ew.
    + intros Hr. rewrite <- Ew. exact (IHl s1 r v1 Hr).
Qed.

Lemma walk_record_reference_frame data t st vis r :
  walk_record_reference data t st vis = Some r -> decl_frame (fst (fst r)) = decl_frame st.
Proof.
  unfold walk_record_reference, walk_tree_opt. destruct t as [t|].
  - apply walk_tree_frame. intros s t' r'. apply record_reference_frame.
  - now intros [= <-].
Qed.

Lemma create_edges_stmt_frame node cnt depth stmts : forall acc st vis r,
  acc = Some (st, vis) ->
  fold_left (create_edges_stmt node cnt depth) stmts acc = Some r ->
  decl_frame (fst r) = decl_frame st.
Proof.
  induction stmts as [|s l IH]; intros acc st vis r Ea; cbn [fold_left].
  - subst acc. now intros [= <-].
  - intros Hf.
    destruct (create_edges_stmt node cnt depth acc s) as [[st1 vis1]|] eqn:Es.
    2: { exfalso. clear IH Ea. revert Hf. induction l as [|s' l' IHl]; cbn; [discriminate|].
         exact IHl. }
    rewrite (IH _ st1 vis1 r eq_refl Hf). subst acc. clear IH Hf.
    unfold create_edges_stmt in Es. cbn [bind] in Es.
    destruct (get_call_expr_in s) as [call|].
    + destruct (get_callee_fndecl call) as [d|].
      * pose proof (lookup_frame st d) as El.
        destruct (cgraph_node_lookup st d) as [s1 ce]. cbn in El.
        destruct (walk_record_reference _ (TREE_OPERAND call 1) _ vis) as [[[s3 v3] x3]|] eqn:Ew;
          cbn [bind] in Es; [|discriminate].
        apply walk_record_reference_frame in Ew. cbn in Ew.
        assert (E3 : decl_frame s3 = decl_frame st) by (rewrite Ew; exact El).
        destruct (TREE_CODE s); try (injection Es as <- <-; exact E3).
        destruct (walk_record_reference _ (TREE_OPERAND s 0) s3 v3) as [[[s4 v4] x4]|] eqn:Ew2;
          cbn [bind] in Es; [|discriminate].
        injection Es as <- <-. apply walk_record_reference_frame in Ew2. cbn in Ew2. congruence.
      * destruct (walk_record_reference _ _ st vis) as [[[s3 v3] x3]|] eqn:Ew;
          cbn [bind] in Es; [|discriminate].
        injection Es as <- <-. now apply walk_record_reference_frame in Ew.
    + destruct (walk_record_reference _ _ st vis) as [[[s3 v3] x3]|] eqn:Ew;
        cbn [bind] in Es; [|discriminate].
      injection Es as <- <-. now apply walk_record_reference_frame in Ew.
Qed.

Lemma fold_none_stays {A B} (f : option A -> B -> option A) l :
  (forall b, f None b = None) -> fold_left f l None = None.
Proof. intros Hn. induction l as [|b l IH]; cbn; [reflexivity|now rewrite Hn]. Qed.

Lemma create_edges_var_frame node vars : forall st vis r,
  fold_left (create_edges_var node) vars (Some (st, vis)) = Some r ->
  decl_frame (fst r) = decl_frame st.
Proof.
  induction vars as [|v l IH]; intros st vis r; cbn [fold_left]; [now intros [= <-]|].
  intros Hf.
  destruct (create_edges_var node (Some (st, vis)) v) as [[st1 vis1]|] eqn:Ev.
  2: { rewrite fold_none_stays in Hf; [discriminate|reflexivity]. }
  rewrite (IH _ _ _ Hf). clear IH Hf.
  unfold create_edges_var in Ev. cbn [bind] in Ev.
  destruct (TREE_CODE v); try (injection Ev as <- <-; reflexivity).
  destruct (_ && _ && _).
  - injection Ev as <- <-. apply varpool_finalize_frame.
  - destruct (DECL_INITIAL _) as [init|]; [|injection Ev as <- <-; reflexivity].
    destruct (walk_record_reference _ _ st vis) as [[[s3 v3] x3]|] eqn:Ew;
      cbn [bind] in Ev; [|discriminate].
    injection Ev as <- <-. now apply walk_record_reference_frame in Ew.
Qed.

Lemma create_edges_frame st node body st' :
  cgraph_create_edges st node body = Some st' -> decl_frame st' = decl_frame st.
Proof.
  unfold cgraph_create_edges.
  destruct (DECL_STRUCT_FUNCTION _) as [sf|]; [|discriminate].
  destruct (cfg sf) as [bbs|]; [|discriminate].
  assert (Hb : forall bbs acc st0 vis0 r, acc = Some (st0, vis0) ->
            fold_left (fun acc bb =>
              fold_left (create_edges_stmt node (bb_count bb) (bb_loop_depth bb))
                        (bb_stmts bb) acc) bbs acc = Some r ->
            decl_frame (fst r) = decl_frame st0).
  { clear bbs. induction bbs as [|bb l IH]; intros acc st0 vis0 r Ea; cbn [fold_left].
    - subst acc. now intros [= <-].
    - intros Hf.
      destruct (fold_left (create_edges_stmt node (bb_count bb) (bb_loop_depth bb))
                  (bb_stmts bb) acc) as [[st1 vis1]|] eqn:Es.
      + rewrite (IH _ _ _ _ eq_refl Hf).
        exact (create_edges_stmt_frame _ _ _ _ _ _ _ _ Ea Es).
      + exfalso. rewrite fold_none_stays in Hf; [discriminate|].
        intros bb'. apply fold_none_stays. reflexivity. }
  destruct (fold_left _ bbs (Some (st, []))) as [[st1 vis1]|] eqn:Ef; cbn [bind];
    [|discriminate].
  apply (Hb _ _ _ _ _ eq_refl) in Ef. cbn in Ef.
  destruct (fold_left (create_edges_var node) _ (Some (st1, vis1))) as [[st2 vis2]|] eqn:Ev;
    cbn [bind]; [|discriminate].
  intros [= <-]. apply create_edges_var_frame in Ev. cbn in Ev |- *. congruence.
Qed.

Lemma lower_function_frame st n : decl_frame (cgraph_lower_function st n) = decl_frame st.
Proof. unfold cgraph_lower_function. now destruct (lowered _). Qed.

Lemma initialize_inline_failed_frame st n st' :
  initialize_inline_failed st n = Some st' -> decl_frame st' = decl_frame st.
Proof.
  unfold initialize_inline_failed. destruct (fold_right _ _ _); cbn; [|discriminate].
  now intros [= <-].
Qed.

Lemma analyze_function_frame st n st' :
  cgraph_analyze_function st n = Some st' -> decl_frame st' = decl_frame st.
Proof.
  unfold cgraph_analyze_function. cbv zeta.
  destruct (cgraph_create_edges _ _ _) as [st2|] eqn:E2; cbn [bind]; [|discriminate].
  apply create_edges_frame in E2. rewrite lower_function_frame in E2.
  destruct (initialize_inline_failed _ n) as [st6|] eqn:E6; cbn [bind]; [|discriminate].
  apply initialize_inline_failed_frame in E6.
  intros [= <-]. unfold decl_frame in *. cbn.
  match goal with |- context [if ?c then _ else _] => destruct c end;
    cbn; rewrite E6; clear E6;
    match goal with |- context [if ?c then _ else _] => destruct c end; exact E2.
Qed.

Lemma decide_needed_frame st n d :
  decl_frame (fst (decide_is_function_needed st n d)) = decl_frame st.
Proof. unfold decide_is_function_needed. cbv zeta. split_ifs; reflexivity. Qed.

Lemma expand_function_decl_frame st n st' :
  cgraph_expand_function st n = Some st' -> decl_frame st' = decl_frame st.
Proof.
  unfold cgraph_expand_function.
  destruct (inlined_to (global_info (node_of st n))); cbn; [discriminate|].
  destruct (TREE_ASM_WRITTEN _); cbn; [|discriminate].
  destruct (cgraph_preserve_function_body_p _ _); cbn; intros [= <-];
    exact (lower_function_frame st n).
Qed.

Lemma assemble_loop_frame fuel : forall st out r,
  assemble_loop fuel st out = Some r -> decl_frame (fst r) = decl_frame st.
Proof.
  induction fuel as [|fuel IH]; intros st out r.
  - cbn. destruct (cgraph_nodes_queue st); [now intros [= <-]|discriminate].
  - destruct (cgraph_nodes_queue st) as [|n rest] eqn:Eq.
    + cbn. rewrite Eq. now intros [= <-].
    + rewrite (assemble_loop_step fuel st n rest out Eq).
      destruct (assemble_eligible st n).
      * destruct (cgraph_expand_function _ n) as [st2|] eqn:Ex; cbn; [|discriminate].
        intros Hl. rewrite (IH _ _ _ Hl). exact (expand_function_decl_frame _ _ _ Ex).
      * intros Hl. exact (IH _ _ _ Hl).
Qed.

Lemma assemble_pending_frame st r :
  cgraph_assemble_pending_functions st = Some r -> decl_frame (fst r) = decl_frame st.
Proof.
  unfold cgraph_assemble_pending_functions. destruct (flag_unit_at_a_time opts).
  - now intros [= <-].
  - apply assemble_loop_frame.
Qed.

Lemma finalize_function_rest_frame st1 node d is_nested st' :
  nested (node_of st1 node) = false ->
  finalize_function_rest st1 node d is_nested = Some st' ->
  decl_frame st' = decl_frame st1.
Proof.
  intros Hn. unfold finalize_function_rest. cbv zeta.
  destruct (DECL_STRUCT_FUNCTION _) as [sf|]; cbn [bind]; [|discriminate].
  set (st4 := update_node (update_local (update_node st1 node _) node _) node _).
  assert (Hn4 : nested (node_of st4 node) = false).
  { subst st4. unfold update_local. rewrite !node_of_update, Nat.eqb_refl. exact Hn. }
  rewrite Hn4. cbn [gcc_assert negb bind]. rewrite Hn4. cbn [gcc_assert negb bind].
  assert (F4 : decl_frame st4 = decl_frame st1) by reflexivity.
  destruct (if negb (flag_unit_at_a_time opts) then _ else _) as [st6|] eqn:E6;
    cbn [bind]; [|discriminate].
  assert (F6 : decl_frame st6 = decl_frame st1).
  { destruct (negb (flag_unit_at_a_time opts)).
    - destruct (cgraph_analyze_function st4 node) as [s|] eqn:Ea; cbn in E6; [|discriminate].
      injection E6 as <-. apply analyze_function_frame in Ea. exact Ea.
    - injection E6 as <-. exact F4. }
  pose proof (decide_needed_frame st6 node d) as F7.
  destruct (decide_is_function_needed st6 node d) as [st7 is_needed]. cbn in F7.
  destruct (if is_needed then _ else _) as [st8|] eqn:E8; cbn [bind]; [|discriminate].
  assert (F8 : decl_frame st8 = decl_frame st1).
  { destruct is_needed; [apply mark_needed_frame in E8|injection E8 as <-]; congruence. }
  destruct (if TREE_PUBLIC (decls st8 d) && negb (DECL_COMDAT (decls st8 d))
                && negb (DECL_EXTERNAL (decls st8 d))
            then cgraph_mark_reachable_node st8 node else Some st8) as [st9|] eqn:E9;
    cbn [bind]; [|discriminate].
  assert (F9 : decl_frame st9 = decl_frame st1).
  { revert E9. destruct (_ && _ && _);
      [intros E9; apply mark_reachable_frame in E9|intros [= <-]]; congruence. }
  destruct is_nested; cbn.
  - now intros [= <-].
  - destruct (cgraph_assemble_pending_functions st9) as [r|] eqn:Ea; cbn; [|discriminate].
    intros [= <-]. apply assemble_pending_frame in Ea. congruence.
Qed.

Lemma finalize_fresh_frame st d is_nested st' :
  cgraph_hash (graph st) d = None ->
  cgraph_finalize_function st d is_nested = Some st' ->
  decl_frame st' = decl_frame st.
Proof.
  intros Hh. unfold cgraph_finalize_function, cgraph_node_lookup. rewrite Hh.
  set (n := cgraph_max_uid (graph st)).
  set (st0 := st_set_graph st _).
  assert (Hn0 : node_of st0 n = blank_node d) by (unfold node_of; apply upd_same).
  cbn iota beta. rewrite Hn0. cbn [bind blank_node local_info zero_local finalized].
  intros Hr. apply finalize_function_rest_frame in Hr; [exact Hr|].
  rewrite Hn0. reflexivity.
Qed.

(** * C9: synthesized constructors and destructors *)

(** C9. cgraph_build_static_cdtor fails (gcc_unreachable) on a
    discriminator other than 'I' and 'D'.  When it completes on a fresh
    declaration, the discriminator was 'I' or 'D'; the declaration is a static
    constructor exactly for 'I' and a static destructor exactly for 'D'; it
    is TREE_PUBLIC exactly when the target has no constructor/destructor
    sections; and when the target has them, one reference of that kind and
    priority to the declaration is emitted, and none otherwise. *)
Theorem cgraph_build_static_cdtor_spec st which body priority :
  cgraph_hash (graph st) (next_decl st) = None ->
  (Ascii.eqb which "I"%char = false -> Ascii.eqb which "D"%char = false ->
     cgraph_build_static_cdtor st which body priority = None) /\
  forall st', cgraph_build_static_cdtor st which body priority = Some st' ->
    (Ascii.eqb which "I"%char || Ascii.eqb which "D"%char) = true /\
    DECL_STATIC_CONSTRUCTOR (decls st' (next_decl st)) = Ascii.eqb which "I"%char /\
    DECL_STATIC_DESTRUCTOR (decls st' (next_decl st)) = Ascii.eqb which "D"%char /\
    TREE_PUBLIC (decls st' (next_decl st)) = negb (have_ctors_dtors opts) /\
    asm_cdtors st' =
      asm_cdtors st ++
        (if have_ctors_dtors opts
         then [(if Ascii.eqb which "I"%char then Constructor else Destructor,
                next_decl st, priority)]
         else []).
Proof.
  intros Hh. unfold cgraph_build_static_cdtor. cbv zeta. split.
  { intros HI HD. rewrite HI, HD. reflexivity. }
  intros st'.
  assert (Hkind : forall k, (if Ascii.eqb which "I"%char then Some Constructor
                             else if Ascii.eqb which "D"%char then Some Destructor
                             else None) = Some k ->
            (Ascii.eqb which "I"%char || Ascii.eqb which "D"%char) = true /\
            (match k with Constructor => true | Destructor => false end) =
              Ascii.eqb which "I"%char /\
            (match k with Destructor => true | Constructor => false end) =
              Ascii.eqb which "D"%char /\
            k = (if Ascii.eqb which "I"%char then Constructor else Destructor)).
  { intros k. destruct (Ascii.eqb which "I"%char) eqn:EI.
    - intros [= <-]. apply Ascii.eqb_eq in EI. subst which. now split.
    - destruct (Ascii.eqb which "D"%char) eqn:ED; [|discriminate].
      intros [= <-]. now split. }
  destruct (if Ascii.eqb which "I"%char then Some Constructor
            else if Ascii.eqb which "D"%char then Some Destructor else None)
    as [k|] eqn:Ek; cbn [bind]; [|discriminate].
  destruct (Hkind k eq_refl) as [Hor [Hc [Hd Hk]]]. clear Hkind Ek.
  match goal with |- (st6 <- ?m ;; _) = _ -> _ =>
    destruct m as [st6|] eqn:E6; cbn [bind]; [|discriminate] end.
  match type of E6 with (if _ then _ else cgraph_finalize_function ?s5 _ _) = _ =>
    set (st5 := s5) in E6 end.
  assert (F6 : decl_frame st6 = decl_frame st5).
  { destruct (cgraph_global_info_ready st5).
    - now injection E6 as <-.
    - apply finalize_fresh_frame in E6; [exact E6|exact Hh]. }
  assert (Hd6 : decls st6 = decls st5) by (now injection F6).
  assert (Ha6 : asm_cdtors st6 = asm_cdtors st5) by (now injection F6).
  assert (Hattrs : decls st6 (next_decl st) =
    mk_decl_attrs (negb (have_ctors_dtors opts)) true true false false false false
      true true true true
      (match k with Constructor => true | Destructor => false end)
      (match k with Destructor => true | Constructor => false end)
      false false false []).
  { rewrite Hd6. apply upd_same. }
  destruct (have_ctors_dtors opts) eqn:Eh; intros [= <-]; cbn [asm_cdtors decls st_set_asm_cdtors].
  all: rewrite Hattrs; cbn; rewrite ?Eh.
  - split; [exact Hor|split; [exact Hc|split; [exact Hd|split; [reflexivity|]]]].
    rewrite Ha6, Hk. reflexivity.
  - split; [exact Hor|split; [exact Hc|split; [exact Hd|split; [reflexivity|]]]].
    rewrite Ha6, app_nil_r. reflexivity.
Qed.

(** * Emission order *)

Lemma expand_if_output_spec st x st' :
  expand_if_output st x = Some st' ->
  (forall y, output (node_of st' y) =
             if Nat.eqb y x then false else output (node_of st y)) /\
  expanded st' = expanded st ++ (if output (node_of st x) then [x] else []).
Proof.
  unfold expand_if_output. destruct (output (node_of st x)) eqn:Eo.
  - destruct (reachable (node_of st x)); cbn; [|discriminate].
    intros Ex. destruct (expand_function_frame _ _ _ Ex) as [_ [_ [_ [_ [_ [Hx Hm]]]]]].
    split.
    + intros y. destruct (Hm y) as [_ [_ [_ [_ [_ [Ho _]]]]]]. rewrite Ho, node_of_update.
      destruct (Nat.eqb y x) eqn:Ey; [reflexivity|reflexivity].
    + exact Hx.
  - intros [= <-]. split; [|now rewrite app_nil_r].
    intros y. destruct (Nat.eqb y x) eqn:Ey; [|reflexivity].
    apply Nat.eqb_eq in Ey. subst. exact Eo.
Qed.

Lemma expand_all_fold l : forall (p : nat -> bool) st st',
  (forall x, In x l -> output (node_of st x) = p x) ->
  fold_left (fun acc n => s <- acc ;; expand_if_output s n) l (Some st) = Some st' ->
  expanded st' = expanded st ++ visit_flagged p l /\
  (forall y, In y l -> output (node_of st' y) = false) /\
  (forall y, ~ In y l -> output (node_of st' y) = output (node_of st y)).
Proof.
  induction l as [|x l IH]; intros p st st' Hp; cbn [fold_left].
  - intros [= <-]. rewrite app_nil_r. split; [reflexivity|split; [intros y []|reflexivity]].
  - cbn [bind]. destruct (expand_if_output st x) as [st1|] eqn:E1; cbn [bind].
    2: { rewrite fold_none_stays; [discriminate|reflexivity]. }
    destruct (expand_if_output_spec _ _ _ E1) as [Ho1 Hx1].
    assert (Hpx := Hp x (or_introl eq_refl)).
    cbn [visit_flagged]. rewrite <- Hpx.
    destruct (output (node_of st x)) eqn:Eo.
    + intros Hf.
      destruct (IH (fun y => p y && negb (Nat.eqb y x)) st1 st') as [Hx [Hin Hout]];
        [|exact Hf|].
      { intros y Hy. rewrite Ho1. destruct (Nat.eqb y x) eqn:Ey; cbn.
        - now rewrite andb_false_r.
        - rewrite andb_true_r. apply Hp. now right. }
      split; [rewrite Hx, Hx1, <- app_assoc; reflexivity|split].
      * intros y [<-|Hy]; [|exact (Hin y Hy)].
        destruct (in_dec Nat.eq_dec x l) as [Hy|Hy]; [exact (Hin x Hy)|].
        rewrite (Hout x Hy), Ho1, Nat.eqb_refl. reflexivity.
      * intros y Hy. rewrite (Hout y (fun H' => Hy (or_intror H'))), Ho1.
        destruct (Nat.eqb y x) eqn:Ey; [|reflexivity].
        apply Nat.eqb_eq in Ey. subst. exfalso. apply Hy. now left.
    + intros Hf. rewrite app_nil_r in Hx1.
      assert (Hs : forall y, output (node_of st1 y) = output (node_of st y)).
      { intros y. rewrite Ho1. destruct (Nat.eqb y x) eqn:Ey; [|reflexivity].
        apply Nat.eqb_eq in Ey. subst. now rewrite Eo. }
      destruct (IH p st1 st') as [Hx [Hin Hout]]; [|exact Hf|].
      { intros y Hy. rewrite Hs. apply Hp. now right. }
      split; [now rewrite Hx, Hx1|split].
      * intros y [<-|Hy]; [|exact (Hin y Hy)].
        destruct (in_dec Nat.eq_dec x l) as [Hy|Hy]; [exact (Hin x Hy)|].
        rewrite (Hout x Hy), Hs. exact Eo.
      * intros y Hy. rewrite (Hout y (fun H' => Hy (or_intror H'))). apply Hs.
Qed.

Lemma visit_flagged_nodup l : forall (p : nat -> bool),
  NoDup l -> (forall x, In x l -> p x = true) -> visit_flagged p l = l.
Proof.
  induction l as [|x l IH]; intros p Hnd Hp; cbn; [reflexivity|].
  rewrite (Hp x (or_introl eq_refl)). f_equal.
  inversion Hnd as [|? ? Hx Hnd']; subst. apply IH; [exact Hnd'|].
  intros y Hy. rewrite (Hp y (or_intror Hy)). cbn.
  destruct (Nat.eqb y x) eqn:Ey; [|reflexivity].
  apply Nat.eqb_eq in Ey. subst. contradiction.
Qed.

(** * C4: expanding every function marked for output *)

(** C4. cgraph_expand_all_functions fails unless the postorder has
    cgraph_n_nodes entries.  When it completes, it has expanded the nodes
    of the postorder whose output flag was set, in reverse, each at most
    once: a node reached again after its flag was cleared is skipped; every
    such node ends with its output flag cleared.  When the postorder lists
    each node once, the expansions are exactly the reverse of the postorder
    filtered by the output flag. *)
Theorem cgraph_expand_all_functions_spec st :
  (Nat.eqb (List.length (cgraph_postorder H (graph st))) (cgraph_n_nodes (graph st)) = false ->
     cgraph_expand_all_functions st = None) /\
  forall st', cgraph_expand_all_functions st = Some st' ->
    let order := cgraph_postorder H (graph st) in
    let new_order := filter (fun n => output (node_of st n)) order in
    List.length order = cgraph_n_nodes (graph st) /\
    expanded st' =
      expanded st ++ visit_flagged (fun n => output (node_of st n)) (rev new_order) /\
    (forall m, In m new_order -> output (node_of st' m) = false) /\
    (NoDup order -> expanded st' = expanded st ++ rev new_order).
Proof.
  unfold cgraph_expand_all_functions. cbv zeta. split.
  { intros Hl. rewrite Hl. reflexivity. }
  intros st'.
  destruct (Nat.eqb (List.length (cgraph_postorder H (graph st)))
                    (cgraph_n_nodes (graph st))) eqn:El; cbn [gcc_assert bind];
    [|discriminate].
  apply Nat.eqb_eq in El. intros Hf.
  set (F := filter (fun n => output (node_of st n)) (cgraph_postorder H (graph st))) in *.
  assert (Hp : forall x, In x (rev F) -> output (node_of st x) = output (node_of st x))
    by reflexivity.
  destruct (expand_all_fold (rev F) _ st st' Hp Hf) as [Hx [Hin _]].
  split; [exact El|split; [exact Hx|split]].
  - intros m Hm. apply Hin. now apply in_rev in Hm.
  - intros Hnd. rewrite Hx, visit_flagged_nodup; [reflexivity| |].
    + apply NoDup_rev. apply NoDup_filter. exact Hnd.
    + intros x Hxin. apply in_rev in Hxin. subst F. apply filter_In in Hxin. apply Hxin.
Qed.

(** * The reclaiming loop *)

Lemma reset_chain_subset st n st' :
  cgraph_reset_node st n = Some st' ->
  forall m, In m (cgraph_nodes (graph st')) -> In m (cgraph_nodes (graph st)).
Proof.
  intros Hr m Hm.
  destruct (proj2 (reset_node_effects st n) st' Hr)
    as [_ [_ [_ [_ [_ [_ [_ [Hu [Hs _]]]]]]]]].
  destruct (flag_unit_at_a_time opts).
  - rewrite <- (proj1 (Hu eq_refl)). exact Hm.
  - apply (proj1 (Hs eq_refl) m) in Hm. apply Hm.
Qed.

Lemma reclaim_node_step s x s' :
  reclaim_node s x = Some s' ->
  bodies s' = bodies s /\
  (forall m, In m (cgraph_nodes (graph s')) -> In m (cgraph_nodes (graph s))) /\
  (forall m, decl (node_of s' m) = decl (node_of s m)) /\
  (forall m, m <> x -> node_of s' m = node_of s m) /\
  (finalized (local_info (node_of s x)) = true -> DECL_SAVED_TREE (body_of s x) = None ->
     local_info (node_of s' x) = mk_local 0 false false false false false true /\
     analyzed (node_of s' x) = false) /\
  (finalized (local_info (node_of s x)) = false \/ DECL_SAVED_TREE (body_of s x) <> None ->
     node_of s' x = node_of s x) /\
  (reachable (node_of s x) = false -> DECL_SAVED_TREE (body_of s x) <> None ->
     ~ In x (cgraph_nodes (graph s'))) /\
  (In x (cgraph_nodes (graph s')) ->
     analyzed (node_of s' x) = finalized (local_info (node_of s' x))).
Proof.
  unfold reclaim_node, body_of, decl_of. cbv zeta.
  destruct (DECL_SAVED_TREE (bodies s (decl (node_of s x)))) as [t|] eqn:Eb.
  - rewrite andb_false_r. cbn [bind]. rewrite Eb.
    destruct (reachable (node_of s x)) eqn:Er; cbn [negb andb].
    + rewrite orb_true_r. cbn [gcc_assert bind].
      destruct (Bool.eqb (analyzed (node_of s x)) (finalized (local_info (node_of s x)))) eqn:Eq;
        cbn [gcc_assert bind]; [|discriminate].
      intros [= <-]. apply Bool.eqb_prop in Eq.
      repeat split; auto; intros; discriminate.
    + intros [= <-].
      assert (Hns : forall m, node_of (cgraph_remove_node s x) m = node_of s m)
        by reflexivity.
      split; [reflexivity|split; [|split; [intros m; now rewrite Hns|split; [intros m _; apply Hns|]]]].
      { intros m Hm. apply (proj2 (proj2 (remove_node_frame s x m))) in Hm. apply Hm. }
      split; [intros _ C; discriminate|split; [intros _; apply Hns|split]].
      * intros _ _ Hin. apply (proj2 (proj2 (remove_node_frame s x x))) in Hin.
        destruct Hin as [_ C]. now apply C.
      * intros Hin. apply (proj2 (proj2 (remove_node_frame s x x))) in Hin.
        destruct Hin as [_ C]. now exfalso.
  - destruct (finalized (local_info (node_of s x))) eqn:Ef; cbn [negb andb bind].
    + destruct (cgraph_reset_node s x) as [s1|] eqn:Er; cbn [bind]; [|discriminate].
      destruct (proj2 (reset_node_effects s x) s1 Er)
        as [Hl [_ [_ [Ha [_ [Hoth [_ [_ [_ [Hd Hbo]]]]]]]]]].
      rewrite Hbo, Eb, andb_false_r, Hl, Ha. cbn [gcc_assert bind negb orb finalized Bool.eqb].
      intros [= <-].
      split; [exact Hbo|split; [exact (reset_chain_subset _ _ _ Er)|split]].
      { intros m. destruct (Nat.eq_dec m x) as [->|Hne]; [exact Hd|now rewrite Hoth]. }
      split; [exact Hoth|split; [intros _ _; split; [exact Hl|exact Ha]|split]].
      * intros [C|C]; [discriminate|contradiction].
      * split; [intros _ C; contradiction|]. intros _. now rewrite Hl, Ha.
    + rewrite ?Eb, ?andb_false_r, ?Ef. cbn [gcc_assert bind negb orb andb].
      destruct (analyzed (node_of s x)) eqn:Ea; cbn [Bool.eqb gcc_assert bind]; try discriminate.
      intros [= <-].
      repeat split; auto; try (intros; discriminate); try (intros _ C; now apply C).
      intros _. now rewrite Ea, Ef.
Qed.

Lemma body_of_congr s1 s y :
  bodies s1 = bodies s -> decl (node_of s1 y) = decl (node_of s y) ->
  body_of s1 y = body_of s y.
Proof. intros Hb Hd. unfold body_of, decl_of. now rewrite Hb, Hd. Qed.

Lemma reclaim_sweep L s s' :
  fold_left (fun acc n => s0 <- acc ;; reclaim_node s0 n) L (Some s) = Some s' ->
  bodies s' = bodies s /\
  (forall m, In m (cgraph_nodes (graph s')) -> In m (cgraph_nodes (graph s))) /\
  (forall m, decl (node_of s' m) = decl (node_of s m)) /\
  (forall y, ~ In y L -> node_of s' y = node_of s y) /\
  (forall y, finalized (local_info (node_of s y)) = false \/ DECL_SAVED_TREE (body_of s y) <> None ->
     node_of s' y = node_of s y) /\
  (forall y, In y L -> finalized (local_info (node_of s y)) = true ->
     DECL_SAVED_TREE (body_of s y) = None ->
     local_info (node_of s' y) = mk_local 0 false false false false false true /\
     analyzed (node_of s' y) = false) /\
  (forall y, In y L -> reachable (node_of s y) = false -> DECL_SAVED_TREE (body_of s y) <> None ->
     ~ In y (cgraph_nodes (graph s'))) /\
  (forall y, In y L -> In y (cgraph_nodes (graph s')) ->
     analyzed (node_of s' y) = finalized (local_info (node_of s' y))).
Proof.
  revert s. induction L as [|x L IH]; intros s Hf.
  - injection Hf as <-. repeat split; auto; intros; contradiction.
  - cbn [fold_left bind] in Hf.
    destruct (reclaim_node s x) as [s1|] eqn:E1;
      [|rewrite fold_none_stays in Hf; [discriminate|reflexivity]].
    destruct (reclaim_node_step _ _ _ E1)
      as [B1 [C1 [D1 [O1 [R1 [U1 [N1 A1]]]]]]].
    destruct (IH _ Hf) as [B [C [D [O [U [R [N A]]]]]]].
    assert (Bd : forall y, body_of s1 y = body_of s y)
      by (intros y; apply body_of_congr; [exact B1|apply D1]).
    split; [congruence|split; [auto|split; [intros m; congruence|]]].
    split.
    { intros y Hy. assert (y <> x) by (intros ->; apply Hy; now left).
      rewrite O by (intros Hl; apply Hy; now right). now apply O1. }
    split.
    { intros y Hc. destruct (Nat.eq_dec y x) as [->|Hne].
      - assert (Hs := U1 Hc). rewrite U; [exact Hs|].
        rewrite Hs, Bd. exact Hc.
      - rewrite <- (O1 y Hne). apply U. rewrite (O1 y Hne), Bd. exact Hc. }
    split.
    { intros y Hy Hfz Hb. destruct (Nat.eq_dec y x) as [->|Hne].
      - destruct (R1 Hfz Hb) as [Hl Ha].
        rewrite U; [split; assumption|]. left. now rewrite Hl.
      - destruct Hy as [->|Hy]; [contradiction|].
        apply R; [exact Hy|rewrite (O1 y Hne); exact Hfz|rewrite Bd; exact Hb]. }
    split.
    { intros y Hy Hr Hb Hin. destruct (Nat.eq_dec y x) as [->|Hne].
      - apply (N1 Hr Hb). now apply C.
      - destruct Hy as [->|Hy]; [contradiction|].
        apply (N y Hy); [rewrite (O1 y Hne); exact Hr|rewrite Bd; exact Hb|exact Hin]. }
    { intros y Hy Hin. destruct (in_dec Nat.eq_dec y L) as [HL|HL].
      - now apply A.
      - destruct Hy as [->|Hy]; [|contradiction].
        rewrite (O _ HL). apply A1. now apply C. }
Qed.

(** Claim C3: at the end of the reclaiming sweep of
    cgraph_finalize_compilation_unit, every node introduced since the
    previous call (the nodes from the head of the chain up to
    [first_analyzed]) that was finalized without a body has been reset
    (cleared local information, [redefined_extern_inline] set, not
    analyzed); every such node that was unreachable while having a body has
    been removed from the chain; and every such node still in the chain has
    [analyzed] equal to [finalized]. *)
Theorem cgraph_reclaim_nodes_spec st st' :
  cgraph_reclaim_nodes st = Some st' ->
  forall x, In x (nodes_until (cgraph_nodes (graph st)) (first_analyzed st)) ->
  (finalized (local_info (node_of st x)) = true -> DECL_SAVED_TREE (body_of st x) = None ->
     local_info (node_of st' x) = mk_local 0 false false false false false true /\
     analyzed (node_of st' x) = false) /\
  (reachable (node_of st x) = false -> DECL_SAVED_TREE (body_of st x) <> None ->
     ~ In x (cgraph_nodes (graph st'))) /\
  (In x (cgraph_nodes (graph st')) ->
     analyzed (node_of st' x) = finalized (local_info (node_of st' x))).
Proof.
  unfold cgraph_reclaim_nodes. intros Hf x Hx.
  destruct (reclaim_sweep _ _ _ Hf) as [_ [_ [_ [_ [_ [R [N A]]]]]]].
  split; [now apply R|split; [now apply N|now apply A]].
Qed.

(** * The worklist drain *)

Lemma mark_reachable_mono st n st' :
  cgraph_mark_reachable_node st n = Some st' ->
  reachable (node_of st' n) = true /\
  (forall m, reachable (node_of st m) = true -> reachable (node_of st' m) = true) /\
  (forall m, analyzed (node_of st' m) = analyzed (node_of st m)) /\
  cgraph_edges (graph st') = cgraph_edges (graph st).
Proof.
  unfold cgraph_mark_reachable_node.
  destruct (reachable (node_of st n)) eqn:Hr.
  - intros [= <-]. auto.
  - destruct (cgraph_global_info_ready st); cbn; [discriminate|].
    intros [= <-]. rewrite node_of_set_queue.
    split; [now rewrite node_of_update_same|split; [|split; [|reflexivity]]].
    + intros m Hm. rewrite node_of_update. now destruct (Nat.eqb m n).
    + intros m. rewrite node_of_update. destruct (Nat.eqb m n) eqn:E; [|reflexivity].
      apply Nat.eqb_eq in E. now subst.
Qed.

Lemma mark_callees_fold l : forall s s',
  fold_left (fun acc e =>
               s0 <- acc ;;
               if negb (reachable (node_of s0 (callee e)))
               then cgraph_mark_reachable_node s0 (callee e)
               else Some s0) l (Some s) = Some s' ->
  (forall e, In e l -> reachable (node_of s' (callee e)) = true) /\
  (forall m, reachable (node_of s m) = true -> reachable (node_of s' m) = true) /\
  (forall m, analyzed (node_of s' m) = analyzed (node_of s m)) /\
  cgraph_edges (graph s') = cgraph_edges (graph s).
Proof.
  induction l as [|e l IH]; intros s s' Hf.
  - injection Hf as <-. repeat split; auto; intros; contradiction.
  - cbn [fold_left bind] in Hf.
    assert (Hs : exists s1, (if negb (reachable (node_of s (callee e)))
                             then cgraph_mark_reachable_node s (callee e)
                             else Some s) = Some s1 /\
                 reachable (node_of s1 (callee e)) = true /\
                 (forall m, reachable (node_of s m) = true -> reachable (node_of s1 m) = true) /\
                 (forall m, analyzed (node_of s1 m) = analyzed (node_of s m)) /\
                 cgraph_edges (graph s1) = cgraph_edges (graph s)).
    { destruct (reachable (node_of s (callee e))) eqn:Er; cbn [negb].
      - exists s. auto.
      - destruct (cgraph_mark_reachable_node s (callee e)) as [s1|] eqn:Em.
        + exists s1. split; [reflexivity|]. now apply mark_reachable_mono.
        + cbn [negb] in Hf.
          rewrite fold_none_stays in Hf; [discriminate|reflexivity]. }
    destruct Hs as [s1 [Es [R1 [M1 [A1 E1]]]]].
    rewrite Es in Hf. destruct (IH _ _ Hf) as [R [M [A E]]].
    split; [|split; [auto|split; [intros m; now rewrite A, A1|congruence]]].
    intros e' [<-|He]; [now apply M|now apply R].
Qed.

Lemma varpool_analyze_loop_drained fuel : forall st changed st' b,
  varpool_analyze_loop fuel st changed = Some (st', b) ->
  cgraph_varpool_first_unanalyzed_node st' = [].
Proof.
  induction fuel as [|fuel IH]; intros st changed st' b Hl; cbn in Hl;
    destruct (cgraph_varpool_first_unanalyzed_node st) as [|d rest] eqn:Eu.
  - now injection Hl as <- _.
  - discriminate.
  - now injection Hl as <- _.
  - destruct (walk_record_reference _ _ _ _) as [[[st3 x] y]|]; cbn [bind] in Hl;
      [|discriminate].
    exact (IH _ _ _ _ Hl).
Qed.

Lemma analyze_function_analyzed st n st' :
  cgraph_analyze_function st n = Some st' -> analyzed (node_of st' n) = true.
Proof.
  unfold cgraph_analyze_function. cbv zeta.
  destruct (cgraph_create_edges _ _ _) as [st2|]; cbn [bind]; [|discriminate].
  destruct (initialize_inline_failed _ _) as [st6|]; cbn [bind]; [|discriminate].
  intros [= <-]. rewrite node_of_set_current, node_of_update_same. reflexivity.
Qed.

(** Claim C2: the drain of the function worklist in
    cgraph_finalize_compilation_unit ends with an empty queue and runs the
    step below on the head of the queue until then.  The step dequeues the
    node; if the saved body of its declaration is absent, the result is that
    of cgraph_reset_node; otherwise the node was not analyzed and reachable,
    cgraph_analyze_function analyzes it, every callee of its edges is then
    reachable (marking with cgraph_mark_reachable_node the ones that were
    not, which keeps the node analyzed and the edges), and the variable
    analyzer runs until no variable is left to analyze. *)
Theorem cgraph_analyze_queue_drain :
  (forall fuel st st', cgraph_analyze_queue fuel st = Some st' ->
     cgraph_nodes_queue st' = []) /\
  (forall fuel st node rest st', cgraph_nodes_queue st = node :: rest ->
     cgraph_analyze_queue fuel st = Some st' ->
     exists fuel' st1, analyze_queue_head fuel' st node rest = Some st1 /\
                       cgraph_analyze_queue fuel' st1 = Some st') /\
  (forall fuel st node rest st',
     analyze_queue_head fuel st node rest = Some st' ->
     (DECL_SAVED_TREE (body_of st node) = None ->
        cgraph_reset_node (st_set_queue st rest) node = Some st') /\
     (DECL_SAVED_TREE (body_of st node) <> None ->
        analyzed (node_of st node) = false /\ reachable (node_of st node) = true /\
        exists st2 st3 changed,
          cgraph_analyze_function (st_set_queue st rest) node = Some st2 /\
          analyzed (node_of st2 node) = true /\
          analyzed (node_of st3 node) = true /\
          callees_of st3 node = callees_of st2 node /\
          (forall e, In e (callees_of st2 node) -> reachable (node_of st3 (callee e)) = true) /\
          (forall m, reachable (node_of st2 m) = true -> reachable (node_of st3 m) = true) /\
          cgraph_varpool_analyze_pending_decls fuel st3 = Some (st', changed) /\
          cgraph_varpool_first_unanalyzed_node st' = [])).
Proof.
  split; [|split].
  - induction fuel as [|fuel IH]; intros st st' Hq; cbn in Hq;
      destruct (cgraph_nodes_queue st) as [|node rest] eqn:Eq.
    + now injection Hq as <-.
    + discriminate.
    + now injection Hq as <-.
    + destruct (analyze_queue_head fuel st node rest) as [st1|]; cbn [bind] in Hq;
        [exact (IH _ _ Hq)|discriminate].
  - intros [|fuel] st node rest st' Eq Hq; cbn in Hq; rewrite Eq in Hq; [discriminate|].
    destruct (analyze_queue_head fuel st node rest) as [st1|] eqn:Eh; cbn [bind] in Hq;
      [|discriminate].
    now exists fuel, st1.
  - intros fuel st node rest st' Hh.
    unfold analyze_queue_head in Hh. cbv zeta in Hh.
    change (bodies (st_set_queue st rest) (decl_of (st_set_queue st rest) node))
      with (body_of st node) in Hh.
    destruct (DECL_SAVED_TREE (body_of st node)) as [t|] eqn:Eb.
    + split; [discriminate|intros _].
      rewrite node_of_set_queue in Hh.
      destruct (negb (analyzed (node_of st node)) && reachable (node_of st node)) eqn:Ea;
        cbn [gcc_assert bind] in Hh; [|discriminate].
      apply andb_prop in Ea as [Ea Er]. apply negb_true_iff in Ea.
      split; [exact Ea|split; [exact Er|]].
      destruct (cgraph_analyze_function (st_set_queue st rest) node) as [st2|] eqn:E2;
        cbn [bind] in Hh; [|discriminate].
      destruct (fold_left _ (callees_of st2 node) (Some st2)) as [st3|] eqn:E3;
        cbn [bind] in Hh; [|discriminate].
      destruct (cgraph_varpool_analyze_pending_decls fuel st3) as [[st4 ch]|] eqn:E4;
        cbn [bind fst] in Hh; [|discriminate].
      injection Hh as <-.
      destruct (mark_callees_fold _ _ _ E3) as [R [M [A E]]].
      assert (A2 := analyze_function_analyzed _ _ _ E2).
      exists st2, st3, ch.
      split; [reflexivity|split; [exact A2|split; [now rewrite A|]]].
      split; [unfold callees_of; now rewrite E|split; [exact R|split; [exact M|]]].
      split; [exact E4|exact (varpool_analyze_loop_drained _ _ _ _ _ E4)].
    + split; [intros _; exact Hh|intros C; now exfalso].
Qed.

(** * The emission invariant *)

Lemma mark_output_step s n s1 :
  mark_function_to_output s n = Some s1 ->
  cgraph_nodes (graph s1) = cgraph_nodes (graph s) /\ decls s1 = decls s /\
  bodies s1 = bodies s /\
  (forall m, decl (node_of s1 m) = decl (node_of s m) /\
             local_info (node_of s1 m) = local_info (node_of s m) /\
             global_info (node_of s1 m) = global_info (node_of s m) /\
             reachable (node_of s1 m) = reachable (node_of s m) /\
             analyzed (node_of s1 m) = analyzed (node_of s m) /\
             needed (node_of s1 m) = needed (node_of s m)) /\
  (forall m, output (node_of s1 m) = true ->
     output (node_of s m) = true \/
     (m = n /\ DECL_SAVED_TREE (body_of s m) <> None /\
      inlined_to (global_info (node_of s m)) = None /\
      (needed (node_of s m) || reachable (node_of s m)) = true /\
      DECL_EXTERNAL (attrs_of s m) = false)).
Proof.
  unfold mark_function_to_output. cbv zeta.
  destruct (output (node_of s n)) eqn:Eo; cbn [negb gcc_assert bind]; [discriminate|].
  destruct (_ && _) eqn:Ec.
  - intros [= <-].
    split; [reflexivity|split; [reflexivity|split; [reflexivity|split]]].
    + intros m. rewrite node_of_update. destruct (Nat.eqb m n) eqn:Em; [|repeat split].
      apply Nat.eqb_eq in Em. subst m. repeat split.
    + intros m. rewrite node_of_update. destruct (Nat.eqb m n) eqn:Em; [|now left].
      apply Nat.eqb_eq in Em. subst m. intros _. right.
      repeat match type of Ec with (_ && _) = true =>
        apply andb_prop in Ec; destruct Ec as [Ec ?] end.
      match goal with
      | Hn : (needed _ || _) = true, Hi : negb (is_inline_clone _) = true,
        Hx : negb (DECL_EXTERNAL _) = true |- _ =>
          split; [reflexivity|split; [|split; [|split]]];
          [ | unfold is_inline_clone in Hi;
              destruct (inlined_to (global_info (node_of s n))); [discriminate|reflexivity]
            | destruct (needed (node_of s n)); [reflexivity|];
              destruct (reachable (node_of s n)); [reflexivity|];
              rewrite andb_false_r in Hn; exact Hn
            | apply negb_true_iff in Hx; exact Hx ]
      end.
      unfold body_of, decl_of.
      destruct (DECL_SAVED_TREE (bodies s (decl (node_of s n)))); [discriminate|].
      discriminate.
  - destruct (_ || _ || _); cbn [gcc_assert bind]; [|discriminate].
    intros [= <-]. repeat split; auto.
Qed.

Lemma mark_output_fold l : forall s s',
  fold_left (fun acc n => s0 <- acc ;; mark_function_to_output s0 n) l (Some s) = Some s' ->
  cgraph_nodes (graph s') = cgraph_nodes (graph s) /\ decls s' = decls s /\
  bodies s' = bodies s /\
  (forall m, decl (node_of s' m) = decl (node_of s m) /\
             local_info (node_of s' m) = local_info (node_of s m) /\
             global_info (node_of s' m) = global_info (node_of s m) /\
             reachable (node_of s' m) = reachable (node_of s m) /\
             analyzed (node_of s' m) = analyzed (node_of s m) /\
             needed (node_of s' m) = needed (node_of s m)) /\
  (forall m, output (node_of s' m) = true ->
     output (node_of s m) = true \/
     (In m l /\ DECL_SAVED_TREE (body_of s m) <> None /\
      inlined_to (global_info (node_of s m)) = None /\
      (needed (node_of s m) || reachable (node_of s m)) = true /\
      DECL_EXTERNAL (attrs_of s m) = false)).
Proof.
  induction l as [|x l IH]; intros s s' Hf.
  - injection Hf as <-. repeat split; auto.
  - cbn [fold_left bind] in Hf.
    destruct (mark_function_to_output s x) as [s1|] eqn:E1;
      [|rewrite fold_none_stays in Hf; [discriminate|reflexivity]].
    destruct (mark_output_step _ _ _ E1) as [C1 [D1 [B1 [F1 O1]]]].
    destruct (IH _ _ Hf) as [C [D [B [F O]]]].
    split; [congruence|split; [congruence|split; [congruence|split]]].
    { intros m. destruct (F1 m) as [? [? [? [? [? ?]]]]]. destruct (F m) as [? [? [? [? [? ?]]]]].
      repeat split; congruence. }
    intros m Hm. destruct (F1 m) as [Fd [Fl [Fg [Fr [Fa Fn]]]]].
    assert (Bd : body_of s1 m = body_of s m) by (apply body_of_congr; assumption).
    assert (Ad : attrs_of s1 m = attrs_of s m)
      by (unfold attrs_of, decl_of; now rewrite D1, Fd).
    destruct (O m Hm) as [Ho|[Hin [Hb [Hi [Hn Hx]]]]].
    + destruct (O1 m Ho) as [Ho'|[-> Hr]]; [now left|right; split; [now left|exact Hr]].
    + right. rewrite Bd, Fg, Fn, Fr, Ad in *.
      split; [now right|auto].
Qed.

Lemma expand_if_output_frame st x st' :
  expand_if_output st x = Some st' ->
  cgraph_nodes (graph st') = cgraph_nodes (graph st) /\ decls st' = decls st /\
  (forall m, decl (node_of st' m) = decl (node_of st m) /\
             local_info (node_of st' m) = local_info (node_of st m) /\
             global_info (node_of st' m) = global_info (node_of st m) /\
             reachable (node_of st' m) = reachable (node_of st m) /\
             analyzed (node_of st' m) = analyzed (node_of st m) /\
             (output (node_of st' m) = true -> output (node_of st m) = true)).
Proof.
  unfold expand_if_output. destruct (output (node_of st x)) eqn:Eo.
  - destruct (reachable (node_of st x)); cbn; [|discriminate].
    intros Ex. destruct (expand_function_frame _ _ _ Ex) as [_ [Dc [Cn [_ [_ [_ Hm]]]]]].
    split; [exact Cn|split; [exact Dc|]].
    intros m. destruct (Hm m) as [Hd [Hg [Hl [Hr [Ha [Ho _]]]]]].
    rewrite Hd, Hg, Hl, Hr, Ha, Ho, node_of_update.
    destruct (Nat.eqb m x) eqn:Em; [|repeat split; auto].
    apply Nat.eqb_eq in Em. subst m. repeat split. cbn. discriminate.
  - intros [= <-]. repeat split; auto.
Qed.

Lemma expand_output_fold l : forall s s',
  fold_left (fun acc n => s0 <- acc ;; expand_if_output s0 n) l (Some s) = Some s' ->
  cgraph_nodes (graph s') = cgraph_nodes (graph s) /\ decls s' = decls s /\
  (forall m, decl (node_of s' m) = decl (node_of s m) /\
             local_info (node_of s' m) = local_info (node_of s m) /\
             global_info (node_of s' m) = global_info (node_of s m) /\
             reachable (node_of s' m) = reachable (node_of s m) /\
             analyzed (node_of s' m) = analyzed (node_of s m) /\
             (output (node_of s' m) = true -> output (node_of s m) = true)).
Proof.
  induction l as [|x l IH]; intros s s' Hf.
  - injection Hf as <-. repeat split; auto.
  - cbn [fold_left bind] in Hf.
    destruct (expand_if_output s x) as [s1|] eqn:E1;
      [|rewrite fold_none_stays in Hf; [discriminate|reflexivity]].
    destruct (expand_if_output_frame _ _ _ E1) as [C1 [D1 F1]].
    destruct (IH _ _ Hf) as [C [D F]].
    split; [congruence|split; [congruence|]].
    intros m. destruct (F1 m) as [? [? [? [? [? ?]]]]]. destruct (F m) as [? [? [? [? [? ?]]]]].
    repeat split; auto; congruence.
Qed.

(** Claim C1: the functions marked for output are reachable, analyzed,
    finalized, not external and not inline clones.  When
    cgraph_mark_functions_to_output runs on a graph where no node of the
    chain is marked yet, needed nodes are reachable, and every reachable
    node with a body that is not an inline clone is analyzed and finalized
    (what the reclaiming sweep leaves), every node of the chain whose
    [output] flag is set afterwards has these properties; and
    cgraph_expand_all_functions, which only clears [output] flags, keeps
    the property. *)
Theorem output_flag_invariant :
  (forall st st',
     (forall n, In n (cgraph_nodes (graph st)) ->
        output (node_of st n) = false /\
        (needed (node_of st n) = true -> reachable (node_of st n) = true) /\
        (reachable (node_of st n) = true -> DECL_SAVED_TREE (body_of st n) <> None ->
         inlined_to (global_info (node_of st n)) = None ->
         analyzed (node_of st n) = true /\ finalized (local_info (node_of st n)) = true)) ->
     cgraph_mark_functions_to_output st = Some st' ->
     forall n, In n (cgraph_nodes (graph st')) -> output (node_of st' n) = true ->
       reachable (node_of st' n) = true /\ analyzed (node_of st' n) = true /\
       finalized (local_info (node_of st' n)) = true /\
       DECL_EXTERNAL (attrs_of st' n) = false /\
       inlined_to (global_info (node_of st' n)) = None) /\
  (forall st st',
     (forall n, In n (cgraph_nodes (graph st)) -> output (node_of st n) = true ->
        reachable (node_of st n) = true /\ analyzed (node_of st n) = true /\
        finalized (local_info (node_of st n)) = true /\
        DECL_EXTERNAL (attrs_of st n) = false /\
        inlined_to (global_info (node_of st n)) = None) ->
     cgraph_expand_all_functions st = Some st' ->
     forall n, In n (cgraph_nodes (graph st')) -> output (node_of st' n) = true ->
       reachable (node_of st' n) = true /\ analyzed (node_of st' n) = true /\
       finalized (local_info (node_of st' n)) = true /\
       DECL_EXTERNAL (attrs_of st' n) = false /\
       inlined_to (global_info (node_of st' n)) = None).
Proof.
  split.
  - intros st st' Hpre Hm n Hn Ho.
    unfold cgraph_mark_functions_to_output in Hm.
    destruct (mark_output_fold _ _ _ Hm) as [C [D [_ [F O]]]].
    rewrite C in Hn. destruct (Hpre n Hn) as [Ho0 [Hnr Hra]].
    destruct (F n) as [Fd [Fl [Fg [Fr [Fa _]]]]].
    assert (Ad : attrs_of st' n = attrs_of st n)
      by (unfold attrs_of, decl_of; now rewrite D, Fd).
    rewrite Fl, Fg, Fr, Fa, Ad.
    destruct (O n Ho) as [C0|[_ [Hb [Hi [Hnr' Hx]]]]]; [congruence|].
    assert (Hr : reachable (node_of st n) = true)
      by (destruct (needed (node_of st n)) eqn:En; [now apply Hnr|exact Hnr']).
    destruct (Hra Hr Hb Hi) as [Ha Hf].
    repeat split; assumption.
  - intros st st' Hpre He n Hn Ho.
    unfold cgraph_expand_all_functions in He. cbv zeta in He.
    destruct (Nat.eqb _ _); cbn [gcc_assert bind] in He; [|discriminate].
    destruct (expand_output_fold _ _ _ He) as [C [D F]].
    destruct (F n) as [Fd [Fl [Fg [Fr [Fa Fo]]]]].
    assert (Ad : attrs_of st' n = attrs_of st n)
      by (unfold attrs_of, decl_of; now rewrite D, Fd).
    rewrite Fl, Fg, Fr, Fa, Ad. rewrite C in Hn.
    exact (Hpre n Hn (Fo Ho)).
Qed.

(** * Rebuilding the call edges: properties *)

Lemma lookup_edges st d :
  cgraph_edges (graph (fst (cgraph_node_lookup st d))) = cgraph_edges (graph st).
Proof. unfold cgraph_node_lookup. now destruct (cgraph_hash (graph st) d). Qed.

Lemma lookup_bodies st d : bodies (fst (cgraph_node_lookup st d)) = bodies st.
Proof. unfold cgraph_node_lookup. now destruct (cgraph_hash (graph st) d). Qed.

Lemma rebuild_edges_stmt_sites node cnt depth s stmt :
  map edge_site (cgraph_edges (graph (rebuild_edges_stmt node cnt depth s stmt))) =
  map edge_site (cgraph_edges (graph s)) ++
  map (fun x => (node, x, cnt, depth)) (filter is_direct_call [stmt]).
Proof.
  unfold rebuild_edges_stmt, is_direct_call. cbn [filter].
  destruct (get_call_expr_in stmt) as [call|]; [|now rewrite app_nil_r].
  destruct (get_callee_fndecl call) as [d|]; [|now rewrite app_nil_r].
  pose proof (lookup_edges s d) as El.
  destruct (cgraph_node_lookup s d) as [s1 m]. cbn in El |- *.
  now rewrite map_app, El.
Qed.

Lemma rebuild_stmts_sites node cnt depth stmts : forall s,
  map edge_site (cgraph_edges (graph (fold_left (rebuild_edges_stmt node cnt depth) stmts s))) =
  map edge_site (cgraph_edges (graph s)) ++
  map (fun x => (node, x, cnt, depth)) (filter is_direct_call stmts).
Proof.
  induction stmts as [|x l IH]; intros s; cbn [fold_left].
  - now rewrite app_nil_r.
  - rewrite IH, rebuild_edges_stmt_sites, <- app_assoc. f_equal.
    cbn [filter]. destruct (is_direct_call x); reflexivity.
Qed.

Lemma rebuild_bbs_sites node bbs : forall s,
  map edge_site (cgraph_edges (graph
    (fold_left (fun s bb => fold_left (rebuild_edges_stmt node (bb_count bb)
                                         (bb_loop_depth bb)) (bb_stmts bb) s) bbs s))) =
  map edge_site (cgraph_edges (graph s)) ++ direct_call_sites node bbs.
Proof.
  induction bbs as [|bb l IH]; intros s; cbn [fold_left].
  - now rewrite app_nil_r.
  - rewrite IH, rebuild_stmts_sites, <- app_assoc. reflexivity.
Qed.

Lemma initialize_inline_failed_sites st n st' :
  initialize_inline_failed st n = Some st' ->
  map edge_site (cgraph_edges (graph st')) = map edge_site (cgraph_edges (graph st)).
Proof.
  unfold initialize_inline_failed. cbv zeta.
  match goal with |- context [fold_right ?F (Some []) ?l] =>
    assert (Hf : forall l0 es, fold_right F (Some []) l0 = Some es ->
              map edge_site es = map edge_site l0);
    [| destruct (fold_right F (Some []) l) as [es|] eqn:Ef; cbn; [|discriminate];
       intros [= <-]; exact (Hf _ _ Ef)]
  end.
  induction l0 as [|a l0 IH]; cbn [fold_right]; intros es Hes.
  - now injection Hes as <-.
  - destruct (fold_right _ (Some []) l0) as [rest|] eqn:Er; cbn in Hes; [|discriminate].
    destruct (Nat.eqb (callee a) n).
    + destruct (inlined_to _); cbn in Hes; [discriminate|].
      destruct (inline_failed a); cbn in Hes; [|discriminate].
      injection Hes as <-. cbn. now rewrite (IH rest eq_refl).
    + injection Hes as <-. cbn. now rewrite (IH rest eq_refl).
Qed.

Lemma remove_callees_sites st n :
  map edge_site (cgraph_edges (graph (cgraph_node_remove_callees st n))) =
  map edge_site (filter (fun e => negb (Nat.eqb (caller e) n)) (cgraph_edges (graph st))).
Proof. reflexivity. Qed.

(** Extra X1.  rebuild_cgraph_edges needs a current function with a CFG.
    When it succeeds, the call sites recorded on the edges are those of the
    other callers, in their order, followed by one edge of the current
    function's node per call statement with a callee declaration, in
    FOR_EACH_BB order and with the block's count and loop depth; every
    edge into the node then answers cgraph_inline_p with false and the
    reason initialize_inline_failed chose, and the node is no inline
    clone. *)
Theorem rebuild_cgraph_edges_spec st st' :
  rebuild_cgraph_edges st = Some st' ->
  exists cfd sf bbs,
    current_function_decl st = Some cfd /\
    DECL_STRUCT_FUNCTION (bodies st cfd) = Some sf /\ cfg sf = Some bbs /\
    let node := snd (cgraph_node_lookup st cfd) in
    map edge_site (cgraph_edges (graph st')) =
      map edge_site (filter (fun e => negb (Nat.eqb (caller e) node))
                            (cgraph_edges (graph st)))
      ++ direct_call_sites node bbs /\
    (forall e, In e (cgraph_edges (graph st')) -> callee e = node ->
       cgraph_inline_p e = (false, Some (inline_failed_reason (node_of st' node)))) /\
    is_inline_clone (node_of st' node) = false.
Proof.
  unfold rebuild_cgraph_edges.
  destruct (current_function_decl st) as [cfd|]; [|discriminate].
  pose proof (lookup_edges st cfd) as El. pose proof (lookup_bodies st cfd) as Eb.
  destruct (cgraph_node_lookup st cfd) as [st0 node] eqn:Elk. cbn [fst] in El, Eb.
  cbv zeta.
  change (bodies (cgraph_node_remove_callees st0 node)) with (bodies st0).
  rewrite Eb.
  destruct (DECL_STRUCT_FUNCTION (bodies st cfd)) as [sf|] eqn:Esf; cbn [bind]; [|discriminate].
  destruct (cfg sf) as [bbs|] eqn:Ec; cbn [bind]; [|discriminate].
  match goal with |- context [initialize_inline_failed ?s2 node] =>
    set (st2 := s2) end.
  destruct (initialize_inline_failed st2 node) as [st3|] eqn:Ei; cbn [bind];
    [|discriminate].
  destruct (is_inline_clone (node_of st3 node)) eqn:Ecl; cbn; [discriminate|].
  intros [= <-].
  exists cfd, sf, bbs. rewrite Elk. cbn [snd]. split; [reflexivity|]. split; [exact Esf|]. split; [exact Ec|].
  split; [|split; [|exact Ecl]].
  - rewrite (initialize_inline_failed_sites _ _ _ Ei). subst st2.
    rewrite rebuild_bbs_sites, remove_callees_sites.
    unfold cgraph_node_remove_callees, set_edges. cbn. rewrite El. reflexivity.
  - destruct (initialize_inline_failed_spec _ _ _ Ei) as (En & _ & _ & He).
    intros e Hin Hce. unfold cgraph_inline_p, has_inline_failed.
    rewrite (He e Hin Hce). unfold inline_failed_reason, node_of. rewrite En. reflexivity.
Qed.


(** * The variable analyzer: properties *)

Lemma walk_tree_inv fn (P : cg_state -> Prop)
  (Hfn : forall st t r, P st -> fn st t = Some r -> P (fst (fst r))) :
  forall t st vis r, P st -> walk_tree fn t st vis = Some r -> P (fst (fst r)).
Proof.
  fix IH 1. intros [u c ops] st vis r Hp. cbn [walk_tree].
  destruct (existsb _ _); [intros [= <-]; exact Hp|].
  destruct (fn st (Tree u c ops)) as [[[st1 ws] res]|] eqn:Ef; cbn [bind]; [|discriminate].
  apply (Hfn _ _ _ Hp) in Ef. cbn in Ef.
  destruct res as [x|]; [intros [= <-]; exact Ef|].
  destruct (ws && negb _); [|intros [= <-]; exact Ef].
  generalize (u :: vis) as vis1. clear Hp c u vis.
  revert st1 r Ef. induction ops as [|t1 l' IHl]; intros st1 r Ef vis1.
  - intros [= <-]. exact Ef.
  - cbn [bind].
    destruct (walk_tree fn t1 st1 vis1) as [[[s1 v1] r1]|] eqn:Ew; [|discriminate].
    apply (IH _ _ _ _ Ef) in Ew. cbn in Ew. destruct r1.
    + intros [= <-]. exact Ew.
    + intros Hr. exact (IHl s1 r Ew v1 Hr).
Qed.

Lemma lookup_varpool st d : varpool (fst (cgraph_node_lookup st d)) = varpool st.
Proof. unfold cgraph_node_lookup. now destruct (cgraph_hash (graph st) d). Qed.

Lemma lookup_unanalyzed st d :
  cgraph_varpool_first_unanalyzed_node (fst (cgraph_node_lookup st d)) =
  cgraph_varpool_first_unanalyzed_node st.
Proof. unfold cgraph_node_lookup. now destruct (cgraph_hash (graph st) d). Qed.

Lemma mark_reachable_varpool st n st' :
  cgraph_mark_reachable_node st n = Some st' ->
  varpool st' = varpool st /\
  cgraph_varpool_first_unanalyzed_node st' = cgraph_varpool_first_unanalyzed_node st.
Proof.
  unfold cgraph_mark_reachable_node. destruct (reachable _); [now intros [= <-]|].
  destruct (cgraph_global_info_ready st); cbn; [discriminate|now intros [= <-]].
Qed.

Lemma mark_needed_functions_varpool ds : forall st st',
  mark_needed_functions st ds = Some st' ->
  varpool st' = varpool st /\
  cgraph_varpool_first_unanalyzed_node st' = cgraph_varpool_first_unanalyzed_node st.
Proof.
  induction ds as [|d ds IH]; intros st st'; cbn; [now intros [= <-]|].
  pose proof (lookup_varpool st d) as Ev. pose proof (lookup_unanalyzed st d) as Eu.
  destruct (cgraph_node_lookup st d) as [st1 n]. cbn in Ev, Eu.
  destruct (cgraph_mark_needed_node st1 n) as [st2|] eqn:Em; cbn; [|discriminate].
  intros Hr. destruct (IH _ _ Hr) as [E1 E2].
  destruct (mark_reachable_varpool _ _ _ Em) as [E3 E4]. cbn in E3, E4.
  rewrite E1, E2, E3, E4. split; assumption.
Qed.

(* What the analyzer keeps while walking an initializer: the analyzed flags,
   and the variables still to analyze, to which it only appends. *)
Definition analyzer_inv (x : nat) (b : bool) (pre : list nat) (s : cg_state) : Prop :=
  v_analyzed (varpool s x) = b /\
  exists sfx, cgraph_varpool_first_unanalyzed_node s = pre ++ sfx.

Lemma varpool_mark_needed_inv x b pre st d :
  analyzer_inv x b pre st -> analyzer_inv x b pre (cgraph_varpool_mark_needed_node st d).
Proof.
  unfold cgraph_varpool_mark_needed_node. destruct (v_needed _); [tauto|].
  intros [Ha [sfx Hs]]. split.
  - cbn. unfold upd. destruct (Nat.eqb x d) eqn:Ex; [|exact Ha].
    apply Nat.eqb_eq in Ex. subst x. exact Ha.
  - exists (sfx ++ [d]). cbn. rewrite Hs, app_assoc. reflexivity.
Qed.

Lemma varpool_mark_all_inv x b pre ds : forall st,
  analyzer_inv x b pre st ->
  analyzer_inv x b pre (fold_left cgraph_varpool_mark_needed_node ds st).
Proof.
  induction ds as [|d ds IH]; intros st Hi; cbn; [exact Hi|].
  apply IH, varpool_mark_needed_inv, Hi.
Qed.

Lemma mark_needed_functions_inv x b pre ds st st' :
  mark_needed_functions st ds = Some st' -> analyzer_inv x b pre st -> analyzer_inv x b pre st'.
Proof.
  intros Hm. destruct (mark_needed_functions_varpool _ _ _ Hm) as [E1 E2].
  unfold analyzer_inv. rewrite E1, E2. tauto.
Qed.

Lemma run_analyze_expr_inv x b pre st r res :
  analyzer_inv x b pre st -> run_analyze_expr st r = Some res ->
  analyzer_inv x b pre (fst (fst res)).
Proof.
  intros Hi. unfold run_analyze_expr.
  destruct (mark_needed_functions st (ae_mark_functions r)) as [st1|] eqn:Em; cbn;
    [|discriminate].
  intros [= <-]. cbn. apply varpool_mark_all_inv.
  exact (mark_needed_functions_inv _ _ _ _ _ _ Em Hi).
Qed.

Lemma record_reference_inv x b pre data st t res :
  analyzer_inv x b pre st -> record_reference data st t = Some res ->
  analyzer_inv x b pre (fst (fst res)).
Proof.
  intros Hi. unfold record_reference.
  destruct (TREE_CODE t) as [d|fd| | | | | | |k|k|k];
    repeat match goal with
    | |- context [if ?b then _ else _] => destruct b
    | |- context [match analyze_expr H with _ => _ end] =>
        destruct (analyze_expr H) as [f|]
    end;
    try (intros Hr; refine (run_analyze_expr_inv _ _ _ _ _ _ _ Hr);
         try apply varpool_mark_needed_inv; exact Hi);
    try (intros [= <-]; cbn; try apply varpool_mark_needed_inv; exact Hi);
    try discriminate.
  all: destruct (TREE_OPERAND t 0) as [[u c ops]|]; [|now intros [= <-]].
  all: destruct c; try (now intros [= <-]).
  all: match goal with |- context [cgraph_node_lookup ?s ?y] =>
         pose proof (lookup_varpool s y) as Ev; pose proof (lookup_unanalyzed s y) as Eu;
         destruct (cgraph_node_lookup s y) as [st1 m] end; cbn in Ev, Eu;
       destruct (cgraph_mark_needed_node st1 m) as [st2|] eqn:Em; cbn; [|discriminate];
       intros [= <-]; cbn;
       destruct (mark_reachable_varpool _ _ _ Em) as [E1 E2]; cbn in E1, E2;
       unfold analyzer_inv; rewrite E1, E2, Ev, Eu; exact Hi.
Qed.

Lemma walk_record_reference_inv x b pre data t st vis r :
  analyzer_inv x b pre st -> walk_record_reference data t st vis = Some r ->
  analyzer_inv x b pre (fst (fst r)).
Proof.
  unfold walk_record_reference, walk_tree_opt. destruct t as [t|].
  - intros Hi Hw. refine (walk_tree_inv _ (analyzer_inv x b pre) _ t st vis r Hi Hw).
    intros s t' r' Hs. apply record_reference_inv, Hs.
  - intros Hi [= <-]. exact Hi.
Qed.

Lemma varpool_analyze_loop_spec fuel : forall st changed st' b,
  varpool_analyze_loop fuel st changed = Some (st', b) ->
  (b = true <-> changed = true \/ cgraph_varpool_first_unanalyzed_node st <> []) /\
  (forall d, In d (cgraph_varpool_first_unanalyzed_node st) \/
             v_analyzed (varpool st d) = true ->
             v_analyzed (varpool st' d) = true).
Proof.
  induction fuel as [|fuel IH]; intros st changed st' b Hl; cbn in Hl;
    destruct (cgraph_varpool_first_unanalyzed_node st) as [|d rest] eqn:Eu.
  - injection Hl as <- <-. split; [split; [left; assumption|intros [H1|H1]; [exact H1|now contradiction]]|].
    intros d [[]|Hd]. exact Hd.
  - discriminate.
  - injection Hl as <- <-. split; [split; [left; assumption|intros [H1|H1]; [exact H1|now contradiction]]|].
    intros d [[]|Hd]. exact Hd.
  - destruct (walk_record_reference _ _ _ _) as [[[st3 x] y]|] eqn:Ew; cbn [bind] in Hl;
      [|discriminate].
    destruct (IH _ _ _ _ Hl) as [Hb Ha].
    split.
    + split; [intros _; right; discriminate|intros _; apply Hb; left; reflexivity].
    + intros d' Hd'. apply Ha.
      set (st2 := st_set_varpool_unanalyzed
                    (st_set_varpool st (upd (varpool st) d (v_set_analyzed (varpool st d) true)))
                    rest) in Ew.
      assert (Hin : forall pre, analyzer_inv d' (v_analyzed (varpool st2 d')) pre st2 ->
                analyzer_inv d' (v_analyzed (varpool st2 d')) pre st3).
      { intros pre Hi. exact (walk_record_reference_inv _ _ _ _ _ _ _ _ Hi Ew). }
      destruct (Nat.eqb d' d) eqn:Edd.
      * apply Nat.eqb_eq in Edd. subst d'. right.
        destruct (Hin [] (conj eq_refl (ex_intro _ rest eq_refl))) as [Hv _].
        rewrite Hv. cbn. unfold upd. rewrite Nat.eqb_refl. reflexivity.
      * destruct (Hin rest (conj eq_refl (ex_intro _ [] (eq_sym (app_nil_r rest)))))
          as [Hv [sfx Hs]].
        destruct Hd' as [[Hx|Hx]|Hx].
        -- subst d'. rewrite Nat.eqb_refl in Edd. discriminate.
        -- left. rewrite Hs. apply in_or_app. left. exact Hx.
        -- right. rewrite Hv. cbn. unfold upd. rewrite Edd. exact Hx.
Qed.

(** Extra X3.  cgraph_varpool_analyze_pending_decls leaves no variable to
    analyze, marks every variable that was waiting as analyzed, never clears
    an analyzed flag, and answers true exactly when some variable was
    waiting. *)
Theorem cgraph_varpool_analyze_pending_decls_spec fuel st st' changed :
  cgraph_varpool_analyze_pending_decls fuel st = Some (st', changed) ->
  cgraph_varpool_first_unanalyzed_node st' = [] /\
  (changed = true <-> cgraph_varpool_first_unanalyzed_node st <> []) /\
  (forall d, In d (cgraph_varpool_first_unanalyzed_node st) \/
             v_analyzed (varpool st d) = true ->
             v_analyzed (varpool st' d) = true).
Proof.
  unfold cgraph_varpool_analyze_pending_decls. intros Hl.
  split; [exact (varpool_analyze_loop_drained _ _ _ _ _ Hl)|].
  destruct (varpool_analyze_loop_spec _ _ _ _ _ Hl) as [Hb Ha].
  split; [|exact Ha].
  rewrite Hb. split; [intros [Hc|Hc]; [discriminate|exact Hc]|intros Hc; right; exact Hc].
Qed.

(** * Emitting the variables: properties *)

Lemma varpool_assemble_loop_spec q : forall st ch log st' ch' log',
  cgraph_varpool_nodes_queue st = q ->
  varpool_assemble_loop q st ch log = (st', ch', log') ->
  cgraph_varpool_nodes_queue st' = [] /\
  graph st' = graph st /\ varpool st' = varpool st /\ decls st' = decls st /\
  cgraph_varpool_first_unanalyzed_node st' = cgraph_varpool_first_unanalyzed_node st /\
  exists nw, log' = log ++ nw /\ incl nw q /\
    (ch' = true <-> ch = true \/ nw <> []) /\
    (forall d, In d nw -> v_alias (varpool st d) = false /\
                          DECL_EXTERNAL (decls st d) = false).
Proof.
  induction q as [|d rest IH]; intros st ch log st' ch' log' Eq; cbn [varpool_assemble_loop].
  - intros [= <- <- <-]. rewrite Eq.
    do 5 (split; [reflexivity|]). exists []. rewrite app_nil_r.
    split; [reflexivity|]. split; [intros x []|]. split; [|intros x []].
    split; [tauto|intros [Hc|Hc]; [exact Hc|contradiction]].
  - destruct (negb (TREE_ASM_WRITTEN _) && negb (v_alias _) && negb (DECL_EXTERNAL _))
      eqn:Ee; intros Hl.
    + apply IH in Hl; [|reflexivity]. cbn in Hl.
      destruct Hl as (Hq & Hg & Hv & Hd & Hu & nw & Hlog & Hinc & Hch & Hel).
      rewrite Hg, Hv, Hd, Hu. do 5 (split; [first [exact Hq | reflexivity]|]).
      exists (d :: nw). rewrite Hlog, <- app_assoc. split; [reflexivity|].
      split; [intros x [<-|Hx]; [left; reflexivity|right; exact (Hinc x Hx)]|].
      split; [split; [intros _; right; discriminate|intros _; apply Hch; left; reflexivity]|].
      apply andb_true_iff in Ee as [Ee Ex]. apply andb_true_iff in Ee as [_ Ea].
      apply negb_true_iff in Ea, Ex.
      intros x [<-|Hx]; [split; assumption|exact (Hel x Hx)].
    + apply IH in Hl; [|reflexivity]. cbn in Hl.
      destruct Hl as (Hq & Hg & Hv & Hd & Hu & nw & Hlog & Hinc & Hch & Hel).
      rewrite Hg, Hv, Hd, Hu. do 5 (split; [first [exact Hq | reflexivity]|]).
      exists nw. split; [exact Hlog|].
      split; [intros x Hx; right; exact (Hinc x Hx)|].
      split; [exact Hch|exact Hel].
Qed.

(** Extra X2.  cgraph_varpool_assemble_pending_decls does nothing and
    answers false once errors were reported.  Otherwise, after running the
    variable analyzer to the end, it empties the variable queue and calls
    assemble_variable only on queued variables that are neither aliases nor
    external; it answers true exactly when it emitted
    something, and it changes neither the call graph, the variable flags nor
    the declarations. *)
Theorem cgraph_varpool_assemble_pending_decls_spec errors fuel st st' changed log :
  cgraph_varpool_assemble_pending_decls errors fuel st = Some (st', changed, log) ->
  (errors = true -> st' = st /\ changed = false /\ log = []) /\
  (errors = false ->
     exists st1 b,
       cgraph_varpool_analyze_pending_decls fuel st = Some (st1, b) /\
       cgraph_varpool_first_unanalyzed_node st' = [] /\
       cgraph_varpool_nodes_queue st' = [] /\
       graph st' = graph st1 /\ varpool st' = varpool st1 /\ decls st' = decls st1 /\
       incl log (cgraph_varpool_nodes_queue st1) /\
       (changed = true <-> log <> []) /\
       (forall d, In d log -> v_alias (varpool st' d) = false /\
                              DECL_EXTERNAL (decls st' d) = false)).
Proof.
  unfold cgraph_varpool_assemble_pending_decls. destruct errors.
  - intros [= <- <- <-]. split; [intros _; tauto|discriminate].
  - destruct (cgraph_varpool_analyze_pending_decls fuel st) as [[st1 b]|] eqn:Ea;
      cbn [bind]; [|discriminate].
    intros Hs. injection Hs as Hl. split; [discriminate|intros _].
    exists st1, b. split; [reflexivity|].
    apply varpool_assemble_loop_spec in Hl; [|reflexivity]. cbn [fst] in Hl.
    destruct Hl as (Hq & Hg & Hv & Hd & Hu & nw & Hlog & Hinc & Hch & Hel).
    cbn [app] in Hlog. subst nw.
    split; [rewrite Hu; exact (varpool_analyze_loop_drained _ _ _ _ _ Ea)|].
    do 4 (split; [assumption|]). split; [exact Hinc|].
    split; [rewrite Hch; split; [intros [Hc|Hc]; [discriminate|exact Hc]|intros Hc; right; exact Hc]|].
    intros d Hdl. rewrite Hv, Hd. exact (Hel d Hdl).
Qed.


(** * Visibility: properties *)

Lemma node_of_update_local s n f m :
  node_of (update_local s n f) m =
  if Nat.eqb m n then n_set_local (node_of s n) (f (local_info (node_of s n)))
  else node_of s m.
Proof. reflexivity. Qed.

Lemma attrs_of_update_local s n f m :
  attrs_of (update_local s n f) m = attrs_of s m.
Proof.
  unfold attrs_of, decl_of. rewrite node_of_update_local.
  destruct (Nat.eqb m n) eqn:E; [apply Nat.eqb_eq in E; subst m|]; reflexivity.
Qed.

Lemma decl_of_update_local s n f m :
  decl_of (update_local s n f) m = decl_of s m.
Proof.
  unfold decl_of. rewrite node_of_update_local.
  destruct (Nat.eqb m n) eqn:E; [apply Nat.eqb_eq in E; subst m|]; reflexivity.
Qed.

Lemma node_of_set_decls s x : node_of (st_set_decls s x) = node_of s.
Proof. reflexivity. Qed.

Lemma decls_update_local s n f : decls (update_local s n f) = decls s.
Proof. reflexivity. Qed.

Lemma decl_of_set_decls s x : decl_of (st_set_decls s x) = decl_of s.
Proof. reflexivity. Qed.

Lemma n_set_local_eta nd : n_set_local nd (local_info nd) = nd.
Proof. now destruct nd. Qed.

Lemma n_set_local_twice nd l1 l2 : n_set_local (n_set_local nd l1) l2 = n_set_local nd l2.
Proof. reflexivity. Qed.

(* The condition under which the gcc_assert of the function loop of
   cgraph_function_and_variable_visibility fails on a node. *)
Definition visibility_assert_fails (st : cg_state) (n : nat) : bool :=
  let nd := node_of st n in
  let a := attrs_of st n in
  negb (flag_whole_program opts) && analyzed nd && negb (DECL_EXTERNAL a)
  && TREE_PUBLIC a && negb (externally_visible (local_info nd)) && negb (reachable nd).

Lemma visibility_node_step s n s' :
  function_visibility_node s n = Some s' ->
  (forall m, node_of s' m = n_set_local (node_of s m) (local_info (node_of s' m))) /\
  (forall m, m <> n -> node_of s' m = node_of s m) /\
  (forall d, DECL_COMDAT (decls s' d) = DECL_COMDAT (decls s d) /\
             DECL_EXTERNAL (decls s' d) = DECL_EXTERNAL (decls s d) /\
             (TREE_PUBLIC (decls s' d) = true -> TREE_PUBLIC (decls s d) = true) /\
             (flag_whole_program opts = false ->
              TREE_PUBLIC (decls s' d) = TREE_PUBLIC (decls s d))) /\
  externally_visible (local_info (node_of s' n)) =
    externally_visible (local_info (node_of s n))
    || reachable (node_of s n)
       && (DECL_COMDAT (attrs_of s n)
           || negb (flag_whole_program opts) && TREE_PUBLIC (attrs_of s n)
              && negb (DECL_EXTERNAL (attrs_of s n))) /\
  local (local_info (node_of s' n)) =
    negb (needed (node_of s n)) && analyzed (node_of s n)
    && negb (DECL_EXTERNAL (attrs_of s n))
    && negb (externally_visible (local_info (node_of s' n))) /\
  (externally_visible (local_info (node_of s' n)) = false ->
   analyzed (node_of s n) = true -> DECL_EXTERNAL (attrs_of s n) = false ->
   TREE_PUBLIC (decls s' (decl_of s n)) = false).
Proof.
  unfold function_visibility_node. cbv zeta.
  destruct (reachable (node_of s n)) eqn:Er;
  destruct (DECL_COMDAT (attrs_of s n)) eqn:Ec;
  destruct (flag_whole_program opts) eqn:Ew;
  destruct (TREE_PUBLIC (attrs_of s n)) eqn:Ep;
  destruct (DECL_EXTERNAL (attrs_of s n)) eqn:Ee;
  destruct (externally_visible (local_info (node_of s n))) eqn:Ev;
  destruct (analyzed (node_of s n)) eqn:Ea;
  cbn [andb orb negb]; rewrite ?attrs_of_update_local, ?node_of_update_local, ?Nat.eqb_refl;
  cbn [n_set_local local_info l_set_externally_visible externally_visible
       analyzed needed reachable andb orb negb];
  rewrite ?Er, ?Ea, ?Ev, ?Ee, ?Ep, ?Ec, ?Ew; cbn [andb orb negb bind gcc_assert].
  all: first [ discriminate | intros Hs; injection Hs as <- ].
  all: rewrite ?node_of_update_local, ?node_of_set_decls, ?Nat.eqb_refl;
       cbn [n_set_local local_info l_set_externally_visible l_set_local externally_visible
            analyzed needed reachable local andb orb negb].
  all: rewrite ?decl_of_update_local, ?decls_update_local, ?decl_of_set_decls.
  all: split; [intros m; rewrite !node_of_update_local, ?node_of_set_decls, ?Nat.eqb_refl;
               destruct (Nat.eqb m n) eqn:Em;
               [apply Nat.eqb_eq in Em; subst m; reflexivity|symmetry; apply n_set_local_eta]|].
  all: split; [intros m Hm; rewrite !node_of_update_local, ?node_of_set_decls, ?Nat.eqb_refl;
               apply Nat.eqb_neq in Hm; rewrite Hm; reflexivity|].
  all: split; [intros d; cbn [decls st_set_decls]; unfold upd;
               try (destruct (Nat.eqb d (decl_of s n)) eqn:Ed;
                    [apply Nat.eqb_eq in Ed; subst d; unfold attrs_of in *;
                     cbn [a_set_public TREE_PUBLIC DECL_COMDAT DECL_EXTERNAL]|]);
               rewrite ?Ec, ?Ee, ?Ep, ?Ew; intuition discriminate|].
  all: unfold attrs_of in *; rewrite ?Ea, ?Ee, ?Ep, ?Ev, ?Er, ?Ec;
       cbn [andb orb negb]; rewrite ?andb_false_r, ?andb_true_r.
  all: repeat split; try reflexivity; intros; try discriminate;
       try (cbn [decls st_set_decls]; unfold upd; rewrite Nat.eqb_refl; reflexivity).
  all: try (unfold upd; rewrite Nat.eqb_refl;
            cbn [a_set_public DECL_EXTERNAL TREE_PUBLIC DECL_COMDAT];
            rewrite ?Ee; cbn [negb]; rewrite ?andb_true_r; reflexivity).
Qed.

Lemma visibility_node_none s n :
  function_visibility_node s n = None <-> visibility_assert_fails s n = true.
Proof.
  unfold function_visibility_node, visibility_assert_fails. cbv zeta.
  destruct (reachable (node_of s n)) eqn:Er;
  destruct (DECL_COMDAT (attrs_of s n)) eqn:Ec;
  destruct (flag_whole_program opts) eqn:Ew;
  destruct (TREE_PUBLIC (attrs_of s n)) eqn:Ep;
  destruct (DECL_EXTERNAL (attrs_of s n)) eqn:Ee;
  destruct (externally_visible (local_info (node_of s n))) eqn:Ev;
  destruct (analyzed (node_of s n)) eqn:Ea;
  cbn [andb orb negb]; rewrite ?attrs_of_update_local, ?node_of_update_local, ?Nat.eqb_refl;
  cbn [n_set_local local_info l_set_externally_visible externally_visible
       analyzed needed reachable andb orb negb];
  rewrite ?Er, ?Ea, ?Ev, ?Ee, ?Ep, ?Ec, ?Ew; cbn [andb orb negb bind gcc_assert];
  split; intros; discriminate || reflexivity.
Qed.

Lemma visibility_fails_frame s n s1 m :
  function_visibility_node s n = Some s1 -> m <> n ->
  visibility_assert_fails s1 m = visibility_assert_fails s m.
Proof.
  intros Hs Hm.
  destruct (visibility_node_step _ _ _ Hs) as (_ & Hn & Hd & _).
  unfold visibility_assert_fails, attrs_of, decl_of. rewrite (Hn m Hm).
  destruct (Hd (decl (node_of s m))) as (_ & He & _ & Hp).
  rewrite He. destruct (flag_whole_program opts) eqn:Ew; [reflexivity|].
  rewrite (Hp eq_refl). reflexivity.
Qed.

Lemma visibility_fold_none l : forall s,
  NoDup l ->
  (fold_left (fun acc n => s <- acc ;; function_visibility_node s n) l (Some s) = None <->
   exists n, In n l /\ visibility_assert_fails s n = true).
Proof.
  induction l as [|n rest IH]; intros s Hnd; cbn [fold_left].
  - split; [discriminate|intros (n & [] & _)].
  - inversion Hnd as [|? ? Hnin Hnd']; subst. cbn [bind].
    destruct (function_visibility_node s n) as [s1|] eqn:Es.
    + rewrite (IH s1 Hnd'). split.
      * intros (m & Hin & Hf). exists m. split; [right; exact Hin|].
        rewrite <- (visibility_fails_frame _ _ _ _ Es); [exact Hf|].
        intros <-. contradiction.
      * intros (m & [<-|Hin] & Hf).
        -- apply visibility_node_none in Hf. congruence.
        -- exists m. split; [exact Hin|].
           rewrite (visibility_fails_frame _ _ _ _ Es); [exact Hf|].
           intros <-. contradiction.
    + rewrite fold_none_stays; [|reflexivity]. split; [intros _|reflexivity].
      exists n. split; [left; reflexivity|]. apply visibility_node_none, Es.
Qed.

Lemma visibility_fold l : forall s s',
  NoDup l ->
  fold_left (fun acc n => s <- acc ;; function_visibility_node s n) l (Some s) = Some s' ->
  (forall m, node_of s' m = n_set_local (node_of s m) (local_info (node_of s' m))) /\
  (forall m, ~ In m l -> node_of s' m = node_of s m) /\
  (forall d, DECL_COMDAT (decls s' d) = DECL_COMDAT (decls s d) /\
             DECL_EXTERNAL (decls s' d) = DECL_EXTERNAL (decls s d) /\
             (TREE_PUBLIC (decls s' d) = true -> TREE_PUBLIC (decls s d) = true) /\
             (flag_whole_program opts = false ->
              TREE_PUBLIC (decls s' d) = TREE_PUBLIC (decls s d))) /\
  (forall n, In n l ->
     externally_visible (local_info (node_of s' n)) =
       externally_visible (local_info (node_of s n))
       || reachable (node_of s n)
          && (DECL_COMDAT (attrs_of s n)
              || negb (flag_whole_program opts) && TREE_PUBLIC (attrs_of s n)
                 && negb (DECL_EXTERNAL (attrs_of s n))) /\
     local (local_info (node_of s' n)) =
       negb (needed (node_of s n)) && analyzed (node_of s n)
       && negb (DECL_EXTERNAL (attrs_of s n))
       && negb (externally_visible (local_info (node_of s' n))) /\
     (externally_visible (local_info (node_of s' n)) = false ->
      analyzed (node_of s n) = true -> DECL_EXTERNAL (attrs_of s n) = false ->
      TREE_PUBLIC (decls s' (decl_of s n)) = false)).
Proof.
  induction l as [|n rest IH]; intros s s' Hnd; cbn [fold_left].
  - intros [= <-]. split; [intros m; symmetry; apply n_set_local_eta|].
    split; [reflexivity|]. split; [intros d; tauto|intros n []].
  - inversion Hnd as [|? ? Hnin Hnd']; subst. cbn [bind].
    destruct (function_visibility_node s n) as [s1|] eqn:Es;
      [|rewrite fold_none_stays; [discriminate|reflexivity]].
    intros Hf.
    destruct (IH _ _ Hnd' Hf) as (A1 & A2 & A3 & A4).
    destruct (visibility_node_step _ _ _ Es) as (B1 & B2 & B3 & B4 & B5 & B6).
    split; [intros m; rewrite (A1 m), (B1 m); reflexivity|].
    split; [intros m Hm; rewrite (A2 m (fun H' => Hm (or_intror H')));
            apply B2; intros <-; apply Hm; left; reflexivity|].
    split.
    { intros d. destruct (A3 d) as (C1 & C2 & C3 & C4). destruct (B3 d) as (D1 & D2 & D3 & D4).
      rewrite C1, D1, C2, D2. split; [reflexivity|]. split; [reflexivity|].
      split; [intros Hp; apply D3, C3, Hp|intros Hw; rewrite (C4 Hw), (D4 Hw); reflexivity]. }
    intros m [<-|Hin].
    + rewrite (A2 n Hnin). split; [exact B4|]. split; [exact B5|].
      intros Hv Ha He. specialize (B6 Hv Ha He).
      destruct (TREE_PUBLIC (decls s' (decl_of s n))) eqn:Ep; [|reflexivity].
      destruct (A3 (decl_of s n)) as (_ & _ & C3 & _). rewrite (C3 Ep) in B6. exact B6.
    + assert (Hmn : m <> n) by (intros ->; contradiction).
      destruct (A4 m Hin) as (E1 & E2 & E3).
      assert (Hattr : forall f : decl_attrs -> bool,
                 (forall d, f (decls s1 d) = f (decls s d)) ->
                 f (attrs_of s1 m) = f (attrs_of s m)).
      { intros f Hf'. unfold attrs_of, decl_of. rewrite (B2 m Hmn). apply Hf'. }
      assert (Hc : forall d, DECL_COMDAT (decls s1 d) = DECL_COMDAT (decls s d))
        by (intros d; apply (B3 d)).
      assert (He : forall d, DECL_EXTERNAL (decls s1 d) = DECL_EXTERNAL (decls s d))
        by (intros d; apply (B3 d)).
      rewrite (B2 m Hmn), (Hattr _ Hc), (Hattr _ He) in E1.
      rewrite (B2 m Hmn), (Hattr _ He) in E2.
      rewrite (B2 m Hmn), (Hattr _ He) in E3. unfold decl_of in E3. rewrite (B2 m Hmn) in E3.
      split; [|split; [exact E2|exact E3]].
      rewrite E1. destruct (flag_whole_program opts) eqn:Ew.
      * cbn [negb andb]. reflexivity.
      * assert (Hp : forall d, TREE_PUBLIC (decls s1 d) = TREE_PUBLIC (decls s d))
          by (intros d; apply (B3 d); reflexivity).
        rewrite (Hattr _ Hp). reflexivity.
Qed.

(** Extra X4.  When the function loop of
    cgraph_function_and_variable_visibility succeeds on a chain without
    repeats, each chain node ends externally visible exactly when it was, or
    when it is reachable and its declaration is COMDAT, or public and not
    external outside whole-program mode; it ends local exactly when it is
    not needed, analyzed, not external and not externally visible; an
    analyzed, not external node that is not externally visible has a
    non-public declaration; and the loop changes nothing else of the nodes
    than their local information. *)
Theorem cgraph_function_visibility_spec st st' :
  NoDup (cgraph_nodes (graph st)) ->
  cgraph_function_visibility st = Some st' ->
  (forall m, node_of st' m = n_set_local (node_of st m) (local_info (node_of st' m))) /\
  forall n, In n (cgraph_nodes (graph st)) ->
    externally_visible (local_info (node_of st' n)) =
      externally_visible (local_info (node_of st n))
      || reachable (node_of st n)
         && (DECL_COMDAT (attrs_of st n)
             || negb (flag_whole_program opts) && TREE_PUBLIC (attrs_of st n)
                && negb (DECL_EXTERNAL (attrs_of st n))) /\
    local (local_info (node_of st' n)) =
      negb (needed (node_of st' n)) && analyzed (node_of st' n)
      && negb (DECL_EXTERNAL (attrs_of st' n))
      && negb (externally_visible (local_info (node_of st' n))) /\
    (externally_visible (local_info (node_of st' n)) = false ->
     analyzed (node_of st' n) = true -> DECL_EXTERNAL (attrs_of st' n) = false ->
     TREE_PUBLIC (attrs_of st' n) = false).
Proof.
  unfold cgraph_function_visibility. intros Hnd Hf.
  destruct (visibility_fold _ _ _ Hnd Hf) as (A1 & _ & A3 & A4).
  split; [exact A1|]. intros n Hin.
  destruct (A4 n Hin) as (E1 & E2 & E3).
  assert (Hd : decl_of st' n = decl_of st n) by (unfold decl_of; rewrite (A1 n); reflexivity).
  assert (Hx : DECL_EXTERNAL (attrs_of st' n) = DECL_EXTERNAL (attrs_of st n))
    by (unfold attrs_of; rewrite Hd; apply (A3 (decl_of st n))).
  assert (Hnd' : needed (node_of st' n) = needed (node_of st n)) by (rewrite (A1 n); reflexivity).
  assert (Han : analyzed (node_of st' n) = analyzed (node_of st n)) by (rewrite (A1 n); reflexivity).
  split; [exact E1|]. rewrite Hnd', Han, Hx. split; [exact E2|].
  unfold attrs_of at 2. rewrite Hd. exact E3.
Qed.

(** Extra X5.  On a chain without repeats, the function loop of
    cgraph_function_and_variable_visibility fails (its gcc_assert) exactly
    outside whole-program mode, on a chain node that is analyzed, not
    external, public, not externally visible and not reachable; in
    whole-program mode it never fails. *)
Theorem cgraph_function_visibility_fails st :
  NoDup (cgraph_nodes (graph st)) ->
  (cgraph_function_visibility st = None <->
   exists n, In n (cgraph_nodes (graph st)) /\
     flag_whole_program opts = false /\ analyzed (node_of st n) = true /\
     DECL_EXTERNAL (attrs_of st n) = false /\ TREE_PUBLIC (attrs_of st n) = true /\
     externally_visible (local_info (node_of st n)) = false /\
     reachable (node_of st n) = false).
Proof.
  unfold cgraph_function_visibility. intros Hnd.
  rewrite (visibility_fold_none _ _ Hnd).
  unfold visibility_assert_fails. cbv zeta.
  split; intros (n & Hin & Hf); exists n; split; try exact Hin.
  - repeat rewrite andb_true_iff in Hf. rewrite !negb_true_iff in Hf. tauto.
  - repeat rewrite andb_true_iff. rewrite !negb_true_iff. tauto.
Qed.


(** * The emission scheduler: properties *)

(* The test of the loop of cgraph_mark_functions_to_output on a node. *)
Definition mark_output_test (st : cg_state) (node : nat) : bool :=
  let nd := node_of st node in
  let d := decl nd in
  let has_body := match DECL_SAVED_TREE (bodies st d) with
                  | Some _ => true | None => false end in
  has_body && negb (is_inline_clone nd)
  && (needed nd || (existsb has_inline_failed (callers_of st node) && reachable nd))
  && negb (TREE_ASM_WRITTEN (bodies st d))
  && negb (DECL_EXTERNAL (decls st d)).

(* When the else branch of that loop fails its assertion. *)
Definition mark_output_assert_fails (st : cg_state) (node : nat) : bool :=
  let nd := node_of st node in
  let d := decl nd in
  output nd
  || negb (mark_output_test st node)
     && match DECL_SAVED_TREE (bodies st d) with Some _ => true | None => false end
     && negb (is_inline_clone nd) && negb (DECL_EXTERNAL (decls st d)).

Lemma mark_function_to_output_cases s n :
  (mark_function_to_output s n = None <-> mark_output_assert_fails s n = true) /\
  (forall s1, mark_function_to_output s n = Some s1 ->
     output (node_of s n) = false /\
     s1 = if mark_output_test s n
          then update_node s n (fun x => n_set_output x true) else s).
Proof.
  unfold mark_function_to_output, mark_output_assert_fails, mark_output_test. cbv zeta.
  destruct (output (node_of s n)) eqn:Eo; cbn [negb gcc_assert bind orb].
  - split; [split; reflexivity|discriminate].
  - destruct (match DECL_SAVED_TREE _ with Some _ => true | None => false end) eqn:Eb;
    destruct (is_inline_clone (node_of s n)) eqn:Ec;
    destruct (DECL_EXTERNAL (decls s (decl (node_of s n)))) eqn:Ex;
    cbn [andb orb negb gcc_assert bind]; rewrite ?andb_false_r;
    cbn [andb orb negb gcc_assert bind];
    try (split; [split; discriminate|intros s1 [= <-]; split; reflexivity]).
    all: destruct (_ && _); cbn [andb orb negb gcc_assert bind];
      (split; [split; (discriminate || reflexivity)|intros s1 [= <-]; split; reflexivity]).
Qed.

Lemma mark_output_test_frame s n s1 m :
  mark_function_to_output s n = Some s1 -> m <> n ->
  node_of s1 m = node_of s m /\
  mark_output_test s1 m = mark_output_test s m /\
  mark_output_assert_fails s1 m = mark_output_assert_fails s m.
Proof.
  intros Hs Hm. destruct (proj2 (mark_function_to_output_cases s n) s1 Hs) as [_ ->].
  destruct (mark_output_test s n); [|tauto].
  assert (Hn : node_of (update_node s n (fun x => n_set_output x true)) m = node_of s m)
    by (apply node_of_update_other; exact Hm).
  unfold mark_output_assert_fails, mark_output_test. rewrite Hn. repeat split.
Qed.

Lemma mark_output_fold_exact l : forall s s',
  NoDup l ->
  fold_left (fun acc n => s0 <- acc ;; mark_function_to_output s0 n) l (Some s) = Some s' ->
  (forall m, ~ In m l -> node_of s' m = node_of s m) /\
  forall m, In m l -> output (node_of s' m) = mark_output_test s m.
Proof.
  induction l as [|x l IH]; intros s s' Hnd Hf.
  - injection Hf as <-. split; [reflexivity|intros m []].
  - inversion Hnd as [|? ? Hnin Hnd']; subst.
    cbn [fold_left bind] in Hf.
    destruct (mark_function_to_output s x) as [s1|] eqn:E1;
      [|rewrite fold_none_stays in Hf; [discriminate|reflexivity]].
    destruct (IH _ _ Hnd' Hf) as [A B].
    split.
    + intros m Hm. rewrite (A m (fun H' => Hm (or_intror H'))).
      apply (mark_output_test_frame _ _ _ _ E1). intros <-. apply Hm. left. reflexivity.
    + intros m [<-|Hin].
      * rewrite (A x Hnin).
        destruct (proj2 (mark_function_to_output_cases s x) s1 E1) as [Eo ->].
        destruct (mark_output_test s x); [rewrite node_of_update_same; reflexivity|exact Eo].
      * rewrite (B m Hin). apply (mark_output_test_frame _ _ _ _ E1).
        intros ->. contradiction.
Qed.

Lemma mark_output_fold_none l : forall s,
  NoDup l ->
  (fold_left (fun acc n => s0 <- acc ;; mark_function_to_output s0 n) l (Some s) = None <->
   exists n, In n l /\ mark_output_assert_fails s n = true).
Proof.
  induction l as [|n rest IH]; intros s Hnd; cbn [fold_left].
  - split; [discriminate|intros (n & [] & _)].
  - inversion Hnd as [|? ? Hnin Hnd']; subst. cbn [bind].
    destruct (mark_function_to_output s n) as [s1|] eqn:Es.
    + rewrite (IH s1 Hnd'). split.
      * intros (m & Hin & Hf). exists m. split; [right; exact Hin|].
        rewrite <- (proj2 (proj2 (mark_output_test_frame _ _ _ m Es (fun E => Hnin (eq_ind m (fun k => In k rest) Hin n E))))).
        exact Hf.
      * intros (m & [<-|Hin] & Hf).
        -- apply (proj1 (mark_function_to_output_cases s n)) in Hf. congruence.
        -- exists m. split; [exact Hin|].
           rewrite (proj2 (proj2 (mark_output_test_frame _ _ _ m Es (fun E => Hnin (eq_ind m (fun k => In k rest) Hin n E))))).
           exact Hf.
    + rewrite fold_none_stays; [|reflexivity]. split; [intros _|reflexivity].
      exists n. split; [left; reflexivity|]. apply (proj1 (mark_function_to_output_cases s n)), Es.
Qed.

(** Extra X6.  On a chain without repeats, cgraph_mark_functions_to_output
    fails exactly when some chain node is already marked for output, or has
    a saved body, is no inline clone, is not external and yet does not pass
    the test; when it succeeds, each chain node ends marked for output
    exactly when it has a saved body, is no inline clone, is needed or is
    reachable with a caller edge not inlined, is not yet written and is not
    external. *)
Theorem cgraph_mark_functions_to_output_exact st :
  NoDup (cgraph_nodes (graph st)) ->
  (cgraph_mark_functions_to_output st = None <->
   exists n, In n (cgraph_nodes (graph st)) /\ mark_output_assert_fails st n = true) /\
  (forall st', cgraph_mark_functions_to_output st = Some st' ->
   forall n, In n (cgraph_nodes (graph st)) ->
     output (node_of st' n) = mark_output_test st n).
Proof.
  unfold cgraph_mark_functions_to_output. intros Hnd. split.
  - exact (mark_output_fold_none _ _ Hnd).
  - intros st' Hf. exact (proj2 (mark_output_fold_exact _ _ _ Hnd Hf)).
Qed.


(** * Lowering and the needed test: properties *)


(** Extra X8.  decide_is_function_needed answers true for a node that is
    needed or that is externally visible once it returns; the only change
    it makes to the state is to set externally_visible on a public main
    function, for which it answers true. *)
Theorem decide_is_function_needed_spec st n d :
  let '(st', b) := decide_is_function_needed st n d in
  (externally_visible (local_info (node_of st' n)) = true -> b = true) /\
  (needed (node_of st n) = true -> b = true) /\
  (st' = st \/
   (MAIN_NAME_P (decls st d) = true /\ TREE_PUBLIC (decls st d) = true /\ b = true /\
    st' = update_local st n (fun l => l_set_externally_visible l true))).
Proof.
  unfold decide_is_function_needed. cbv zeta.
  destruct (MAIN_NAME_P (decls st d) && TREE_PUBLIC (decls st d)) eqn:Em.
  - apply andb_true_iff in Em as [Em Ep].
    split; [reflexivity|]. split; [reflexivity|]. right. repeat split; assumption.
  - destruct (externally_visible (local_info (node_of st n)) || used_attribute (decls st d))
      eqn:Ev.
    { split; [reflexivity|]. split; [reflexivity|]. left. reflexivity. }
    apply orb_false_iff in Ev as [Ev _].
    repeat match goal with
    | |- context [if ?c then _ else _] => destruct c eqn:?
    end;
    (split; [intros ?; first [reflexivity | congruence]
            |split; [intros ?; first [reflexivity | congruence]|left; reflexivity]]).
Qed.

(** * The unit driver: properties *)

Lemma analyze_queue_drained fuel : forall st st',
  cgraph_analyze_queue fuel st = Some st' -> cgraph_nodes_queue st' = [].
Proof.
  induction fuel as [|fuel IH]; intros st st' Hq; cbn in Hq;
    destruct (cgraph_nodes_queue st) as [|n rest] eqn:Eq.
  - injection Hq as <-. exact Eq.
  - discriminate.
  - injection Hq as <-. exact Eq.
  - destruct (analyze_queue_head fuel st n rest) as [s1|]; cbn [bind] in Hq; [|discriminate].
    exact (IH _ _ Hq).
Qed.

Lemma remove_node_queues s n :
  cgraph_nodes_queue (cgraph_remove_node s n) = cgraph_nodes_queue s /\
  cgraph_varpool_first_unanalyzed_node (cgraph_remove_node s n) =
    cgraph_varpool_first_unanalyzed_node s.
Proof. split; reflexivity. Qed.

Lemma remove_inlined_fold_queues n l : forall s,
  cgraph_nodes_queue (fold_left (remove_if_inlined_into n) l s) = cgraph_nodes_queue s /\
  cgraph_varpool_first_unanalyzed_node (fold_left (remove_if_inlined_into n) l s) =
    cgraph_varpool_first_unanalyzed_node s.
Proof.
  induction l as [|x l IH]; intros s; cbn [fold_left]; [split; reflexivity|].
  destruct (IH (remove_if_inlined_into n s x)) as [E1 E2]. rewrite E1, E2.
  unfold remove_if_inlined_into.
  destruct (inlined_to _) as [m|]; [destruct (Nat.eqb m n)|]; split; reflexivity.
Qed.

Lemma reset_node_queues st n st' :
  cgraph_reset_node st n = Some st' ->
  cgraph_nodes_queue st' = cgraph_nodes_queue st /\
  cgraph_varpool_first_unanalyzed_node st' = cgraph_varpool_first_unanalyzed_node st.
Proof.
  unfold cgraph_reset_node. destruct (output (node_of st n)); cbn; [discriminate|].
  intros [= <-].
  match goal with |- context [if negb (flag_unit_at_a_time opts) then fold_left ?f ?l ?s else ?s] =>
    set (s5 := if negb (flag_unit_at_a_time opts) then fold_left f l s else s);
    assert (E5 : cgraph_nodes_queue s5 = cgraph_nodes_queue s /\
                 cgraph_varpool_first_unanalyzed_node s5 = cgraph_varpool_first_unanalyzed_node s)
      by (subst s5; destruct (negb (flag_unit_at_a_time opts));
          [apply remove_inlined_fold_queues|split; reflexivity]);
    cbn in E5
  end.
  destruct E5 as [E1 E2].
  destruct (reachable _ && _); [destruct (existsb _ _)|]; cbn; rewrite ?E1, ?E2; split; reflexivity.
Qed.

Lemma reclaim_node_queues s x s' :
  reclaim_node s x = Some s' ->
  cgraph_nodes_queue s' = cgraph_nodes_queue s /\
  cgraph_varpool_first_unanalyzed_node s' = cgraph_varpool_first_unanalyzed_node s.
Proof.
  unfold reclaim_node. cbv zeta.
  destruct (_ && _) eqn:Ef.
  - destruct (cgraph_reset_node s x) as [s1|] eqn:Er; cbn [bind]; [|discriminate].
    destruct (reset_node_queues _ _ _ Er) as [E1 E2].
    destruct (negb (reachable (node_of s1 x)) && _); [intros [= <-]; exact (conj E1 E2)|].
    destruct (_ || _); cbn; [|discriminate].
    destruct (Bool.eqb _ _); cbn; [|discriminate]. intros [= <-]. split; assumption.
  - cbn [bind].
    destruct (negb (reachable (node_of s x)) && _); [intros [= <-]; split; reflexivity|].
    destruct (_ || _); cbn; [|discriminate].
    destruct (Bool.eqb _ _); cbn; [|discriminate]. intros [= <-]. split; reflexivity.
Qed.

Lemma reclaim_nodes_queues l : forall s s',
  fold_left (fun acc n => s0 <- acc ;; reclaim_node s0 n) l (Some s) = Some s' ->
  cgraph_nodes_queue s' = cgraph_nodes_queue s /\
  cgraph_varpool_first_unanalyzed_node s' = cgraph_varpool_first_unanalyzed_node s.
Proof.
  induction l as [|x l IH]; intros s s' Hf; cbn [fold_left bind] in Hf.
  - injection Hf as <-. split; reflexivity.
  - destruct (reclaim_node s x) as [s1|] eqn:E1;
      [|rewrite fold_none_stays in Hf; [discriminate|reflexivity]].
    destruct (IH _ _ Hf) as [A1 A2]. destruct (reclaim_node_queues _ _ _ E1) as [B1 B2].
    rewrite A1, A2, B1, B2. split; reflexivity.
Qed.

Lemma analyze_queue_head_unanalyzed fuel st n rest st' :
  cgraph_varpool_first_unanalyzed_node st = [] ->
  analyze_queue_head fuel st n rest = Some st' ->
  cgraph_varpool_first_unanalyzed_node st' = [].
Proof.
  intros Hu. unfold analyze_queue_head. cbv zeta.
  destruct (DECL_SAVED_TREE _).
  - destruct (gcc_assert _); cbn [bind]; [|discriminate].
    destruct (cgraph_analyze_function _ _) as [st2|]; cbn [bind]; [|discriminate].
    destruct (fold_left _ _ _) as [st3|]; cbn [bind]; [|discriminate].
    destruct (cgraph_varpool_analyze_pending_decls fuel st3) as [[st4 b]|] eqn:Ea;
      cbn [bind]; [|discriminate].
    intros [= <-]. exact (varpool_analyze_loop_drained _ _ _ _ _ Ea).
  - intros Hr. rewrite (proj2 (reset_node_queues _ _ _ Hr)). exact Hu.
Qed.

Lemma analyze_queue_unanalyzed fuel : forall st st',
  cgraph_varpool_first_unanalyzed_node st = [] ->
  cgraph_analyze_queue fuel st = Some st' ->
  cgraph_varpool_first_unanalyzed_node st' = [].
Proof.
  induction fuel as [|fuel IH]; intros st st' Hu Hq; cbn in Hq;
    destruct (cgraph_nodes_queue st) as [|n rest].
  - injection Hq as <-. exact Hu.
  - discriminate.
  - injection Hq as <-. exact Hu.
  - destruct (analyze_queue_head fuel st n rest) as [s1|] eqn:Eh; cbn [bind] in Hq;
      [|discriminate].
    exact (IH _ _ (analyze_queue_head_unanalyzed _ _ _ _ _ Hu Eh) Hq).
Qed.

(** Extra X9.  When cgraph_finalize_compilation_unit succeeds, the function
    worklist is empty; in unit-at-a-time mode no variable is left to
    analyze either, and first_analyzed is the head of the final node
    chain. *)
Theorem cgraph_finalize_compilation_unit_drained fuel st st' :
  cgraph_finalize_compilation_unit fuel st = Some st' ->
  cgraph_nodes_queue st' = [] /\
  (flag_unit_at_a_time opts = true ->
   cgraph_varpool_first_unanalyzed_node st' = [] /\
   first_analyzed st' = hd_error (cgraph_nodes (graph st'))).
Proof.
  unfold cgraph_finalize_compilation_unit. cbv zeta.
  destruct (flag_unit_at_a_time opts) eqn:Eu; cbn [negb].
  - destruct (cgraph_varpool_analyze_pending_decls fuel _) as [[st1 b]|] eqn:Ea;
      cbn [bind fst]; [|discriminate].
    destruct (cgraph_analyze_queue fuel st1) as [st2|] eqn:Eq; cbn [bind fst]; [|discriminate].
    destruct (cgraph_reclaim_nodes st2) as [st3|] eqn:Er; cbn [bind]; [|discriminate].
    intros [= <-].
    destruct (reclaim_nodes_queues _ _ _ Er) as [R1 R2].
    split; [cbn; rewrite R1; exact (analyze_queue_drained _ _ _ Eq)|intros _].
    split; [|reflexivity].
    cbn. rewrite R2.
    exact (analyze_queue_unanalyzed _ _ _ (varpool_analyze_loop_drained _ _ _ _ _ Ea) Eq).
  - unfold cgraph_assemble_pending_functions. rewrite Eu. cbn [negb].
    destruct (assemble_loop _ _ _) as [[st1 b]|] eqn:Ea; cbn [bind]; [|discriminate].
    intros [= <-]. split; [exact (proj1 (assemble_loop_spec _ _ _ _ _ Ea))|discriminate].
Qed.


(** * Finalization: properties *)

(* What the marking steps of finalization keep: the bodies, the
   declarations, and of every node its declaration, its finalized and
   lowered flags, and reachability once set. *)
Definition marking_keeps (s s' : cg_state) : Prop :=
  bodies s' = bodies s /\ decls s' = decls s /\
  forall m, decl (node_of s' m) = decl (node_of s m) /\
            finalized (local_info (node_of s' m)) = finalized (local_info (node_of s m)) /\
            lowered (node_of s' m) = lowered (node_of s m) /\
            (reachable (node_of s m) = true -> reachable (node_of s' m) = true).

Lemma marking_keeps_refl s : marking_keeps s s.
Proof. split; [reflexivity|split; [reflexivity|intros m; repeat split; auto]]. Qed.

Lemma marking_keeps_trans s1 s2 s3 :
  marking_keeps s1 s2 -> marking_keeps s2 s3 -> marking_keeps s1 s3.
Proof.
  intros (B1 & D1 & N1) (B2 & D2 & N2).
  split; [congruence|split; [congruence|]].
  intros m. destruct (N1 m) as (a1 & b1 & c1 & d1). destruct (N2 m) as (a2 & b2 & c2 & d2).
  repeat split; try congruence. intros Hr. apply d2, d1, Hr.
Qed.

Lemma mark_reachable_keeps s n s' :
  cgraph_mark_reachable_node s n = Some s' -> marking_keeps s s'.
Proof.
  unfold cgraph_mark_reachable_node.
  destruct (reachable (node_of s n)) eqn:Hr; [intros [= <-]; apply marking_keeps_refl|].
  destruct (cgraph_global_info_ready s); cbn; [discriminate|].
  intros [= <-]. split; [reflexivity|split; [reflexivity|]].
  intros m. rewrite node_of_set_queue, node_of_update.
  destruct (Nat.eqb m n) eqn:E; [|repeat split; auto].
  apply Nat.eqb_eq in E. subst m. repeat split; auto.
Qed.

Lemma mark_needed_keeps s n s' :
  cgraph_mark_needed_node s n = Some s' -> marking_keeps s s'.
Proof.
  unfold cgraph_mark_needed_node. intros Hm.
  refine (marking_keeps_trans _ _ _ _ (mark_reachable_keeps _ _ _ Hm)).
  split; [reflexivity|split; [reflexivity|]].
  intros m. rewrite node_of_update.
  destruct (Nat.eqb m n) eqn:E; [|repeat split; auto].
  apply Nat.eqb_eq in E. subst m. repeat split; auto.
Qed.

Lemma decide_needed_keeps s n d : marking_keeps s (fst (decide_is_function_needed s n d)).
Proof.
  unfold decide_is_function_needed. cbv zeta.
  destruct (MAIN_NAME_P (decls s d) && TREE_PUBLIC (decls s d));
    [|split_ifs; apply marking_keeps_refl].
  cbn [fst]. split; [reflexivity|split; [reflexivity|]].
  intros m. unfold update_local. rewrite node_of_update.
  destruct (Nat.eqb m n) eqn:E; [|repeat split; auto].
  apply Nat.eqb_eq in E. subst m. repeat split; auto.
Qed.

(** Extra X10.  In unit-at-a-time mode, cgraph_finalize_function on a
    declaration whose node is not yet finalized and has no nested functions
    fails when the declaration has no struct function; otherwise the node
    ends with that declaration, finalized, lowered exactly when the struct
    function has a CFG, and reachable when the declaration is public, not
    COMDAT and not external. *)
Theorem cgraph_finalize_function_unit st d is_nested st0 n st' :
  flag_unit_at_a_time opts = true ->
  cgraph_node_lookup st d = (st0, n) ->
  finalized (local_info (node_of st0 n)) = false ->
  nested (node_of st0 n) = false ->
  cgraph_finalize_function st d is_nested = Some st' ->
  exists sf,
    DECL_STRUCT_FUNCTION (bodies st d) = Some sf /\
    decl (node_of st' n) = d /\
    finalized (local_info (node_of st' n)) = true /\
    lowered (node_of st' n) = match cfg sf with Some _ => true | None => false end /\
    (TREE_PUBLIC (decls st d) && negb (DECL_COMDAT (decls st d))
     && negb (DECL_EXTERNAL (decls st d)) = true ->
     reachable (node_of st' n) = true).
Proof.
  intros Hu Hl Hf Hn. unfold cgraph_finalize_function. rewrite Hl, Hf. cbn [bind].
  pose proof (lookup_bodies st d) as Eb. pose proof (lookup_frame st d) as Ed.
  rewrite Hl in Eb, Ed. cbn [fst] in Eb, Ed. injection Ed as Ed _.
  unfold finalize_function_rest. cbv zeta.
  change (bodies (update_local (update_node st0 n (fun nd => n_set_decl nd d)) n
                    (fun l => l_set_finalized l true))) with (bodies st0).
  rewrite Eb.
  destruct (DECL_STRUCT_FUNCTION (bodies st d)) as [sf|] eqn:Esf; cbn [bind]; [|discriminate].
  set (lw := match cfg sf with Some _ => true | None => false end).
  set (s4 := update_node (update_local (update_node st0 n (fun nd => n_set_decl nd d)) n
                            (fun l => l_set_finalized l true))
                         n (fun nd => n_set_lowered nd lw)).
  assert (N4 : node_of s4 n =
                 n_set_lowered (n_set_local (n_set_decl (node_of st0 n) d)
                    (l_set_finalized (local_info (node_of st0 n)) true)) lw).
  { unfold s4. rewrite node_of_update_same. unfold update_local.
    rewrite node_of_update_same, node_of_update_same. reflexivity. }
  assert (Hn4 : nested (node_of s4 n) = false) by (rewrite N4; exact Hn).
  rewrite Hn4. cbn [negb gcc_assert bind]. rewrite Hu. cbn [negb bind].
  pose proof (decide_needed_keeps s4 n d) as K7.
  destruct (decide_is_function_needed s4 n d) as [s7 b]. cbn [fst] in K7.
  cbv beta iota. rewrite Hn4. cbn [negb gcc_assert bind].
  assert (K8 : forall s8, (if b then cgraph_mark_needed_node s7 n else Some s7) = Some s8 ->
                 marking_keeps s7 s8).
  { intros s8. destruct b; [apply mark_needed_keeps|intros [= <-]; apply marking_keeps_refl]. }
  destruct (if b then cgraph_mark_needed_node s7 n else Some s7) as [s8|] eqn:E8;
    cbn [bind]; [|discriminate].
  specialize (K8 s8 eq_refl).
  assert (D8 : decls s8 = decls st).
  { destruct K7 as (_ & D7 & _). destruct K8 as (_ & D8 & _). rewrite D8, D7.
    unfold s4. rewrite <- Ed. reflexivity. }
  rewrite D8.
  set (c := TREE_PUBLIC (decls st d) && negb (DECL_COMDAT (decls st d))
            && negb (DECL_EXTERNAL (decls st d))).
  assert (K9 : forall s9, (if c then cgraph_mark_reachable_node s8 n else Some s8) = Some s9 ->
                 marking_keeps s8 s9 /\ (c = true -> reachable (node_of s9 n) = true)).
  { intros s9. destruct c.
    - intros Hm. split; [exact (mark_reachable_keeps _ _ _ Hm)|].
      intros _. exact (proj1 (mark_reachable_spec _ _ _ Hm)).
    - intros [= <-]. split; [apply marking_keeps_refl|discriminate]. }
  destruct (if c then cgraph_mark_reachable_node s8 n else Some s8) as [s9|] eqn:E9;
    cbn [bind]; [|discriminate].
  destruct (K9 s9 eq_refl) as [K9' Hr9].
  assert (Hfin : Some s9 = Some st' -> exists sf0,
     Some sf = Some sf0 /\ decl (node_of st' n) = d /\
     finalized (local_info (node_of st' n)) = true /\
     lowered (node_of st' n) = match cfg sf0 with Some _ => true | None => false end /\
     (c = true -> reachable (node_of st' n) = true)).
  { intros [= <-]. exists sf. split; [reflexivity|].
    destruct (marking_keeps_trans _ _ _ (marking_keeps_trans _ _ _ K7 K8) K9')
      as (_ & _ & Nk).
    destruct (Nk n) as (Ka & Kb & Kc & _).
    rewrite Ka, Kb, Kc, N4. split; [reflexivity|]. split; [reflexivity|].
    split; [reflexivity|exact Hr9]. }
  destruct is_nested; cbn [negb].
  - exact Hfin.
  - unfold cgraph_assemble_pending_functions. rewrite Hu. cbn [bind fst]. exact Hfin.
Qed.


(** * The edge builder: the call edges it adds *)

Lemma mark_reachable_edges st n st' :
  cgraph_mark_reachable_node st n = Some st' ->
  cgraph_edges (graph st') = cgraph_edges (graph st).
Proof.
  unfold cgraph_mark_reachable_node. destruct (reachable _); [now intros [= <-]|].
  destruct (cgraph_global_info_ready st); cbn; [discriminate|now intros [= <-]].
Qed.

Lemma mark_needed_edges st n st' :
  cgraph_mark_needed_node st n = Some st' ->
  cgraph_edges (graph st') = cgraph_edges (graph st).
Proof. intros Hm. apply mark_reachable_edges in Hm. exact Hm. Qed.

Lemma varpool_mark_needed_edges st d :
  cgraph_edges (graph (cgraph_varpool_mark_needed_node st d)) = cgraph_edges (graph st).
Proof. unfold cgraph_varpool_mark_needed_node. now destruct (v_needed _). Qed.

Lemma varpool_finalize_edges st d :
  cgraph_edges (graph (cgraph_varpool_finalize_decl st d)) = cgraph_edges (graph st).
Proof. unfold cgraph_varpool_finalize_decl. now rewrite varpool_mark_needed_edges. Qed.

Lemma varpool_mark_all_edges ds : forall st,
  cgraph_edges (graph (fold_left cgraph_varpool_mark_needed_node ds st)) =
  cgraph_edges (graph st).
Proof.
  induction ds as [|d ds IH]; intros st; cbn; [reflexivity|].
  now rewrite IH, varpool_mark_needed_edges.
Qed.

Lemma mark_needed_functions_edges ds : forall st st',
  mark_needed_functions st ds = Some st' ->
  cgraph_edges (graph st') = cgraph_edges (graph st).
Proof.
  induction ds as [|d ds IH]; intros st st'; cbn; [now intros [= <-]|].
  pose proof (lookup_edges st d) as El.
  destruct (cgraph_node_lookup st d) as [st1 n]. cbn in El.
  destruct (cgraph_mark_needed_node st1 n) as [st2|] eqn:Em; cbn; [|discriminate].
  intros Hr. rewrite (IH _ _ Hr). rewrite (mark_needed_edges _ _ _ Em). exact El.
Qed.

Lemma run_analyze_expr_edges st r res :
  run_analyze_expr st r = Some res ->
  cgraph_edges (graph (fst (fst res))) = cgraph_edges (graph st).
Proof.
  unfold run_analyze_expr.
  destruct (mark_needed_functions st (ae_mark_functions r)) as [st1|] eqn:Em; cbn;
    [|discriminate].
  intros [= <-]. cbn. rewrite varpool_mark_all_edges.
  exact (mark_needed_functions_edges _ _ _ Em).
Qed.

Lemma record_reference_edges data st t res :
  record_reference data st t = Some res ->
  cgraph_edges (graph (fst (fst res))) = cgraph_edges (graph st).
Proof.
  unfold record_reference.
  destruct (TREE_CODE t) as [d|fd| | | | | | |k|k|k];
    repeat match goal with
    | |- context [if ?b then _ else _] => destruct b
    | |- context [match analyze_expr H with _ => _ end] =>
        destruct (analyze_expr H) as [f|]
    end;
    try (intros Hr; apply run_analyze_expr_edges in Hr; rewrite Hr;
         try apply varpool_mark_needed_edges; reflexivity);
    try (intros [= <-]; cbn; try apply varpool_mark_needed_edges; reflexivity);
    try discriminate.
  all: destruct (TREE_OPERAND t 0) as [[u c ops]|]; [|now intros [= <-]].
  all: destruct c; try (now intros [= <-]).
  all: match goal with |- context [cgraph_node_lookup ?s ?x] =>
         pose proof (lookup_edges s x) as El;
         destruct (cgraph_node_lookup s x) as [st1 m] end; cbn in El;
       destruct (cgraph_mark_needed_node st1 m) as [st2|] eqn:Em; cbn; [|discriminate];
       intros [= <-]; cbn; rewrite (mark_needed_edges _ _ _ Em); exact El.
Qed.

Lemma walk_record_reference_edges data t st vis r :
  walk_record_reference data t st vis = Some r ->
  cgraph_edges (graph (fst (fst r))) = cgraph_edges (graph st).
Proof.
  unfold walk_record_reference, walk_tree_opt. destruct t as [t|].
  - intros Hw.
    refine (walk_tree_inv _ (fun s => cgraph_edges (graph s) = cgraph_edges (graph st))
              _ t st vis r eq_refl Hw).
    intros s t' r' Hs Hr. apply record_reference_edges in Hr. rewrite Hr. exact Hs.
  - now intros [= <-].
Qed.

(* On the call edges, a statement of cgraph_create_edges does what it does in
   rebuild_cgraph_edges: the operand walks add none. *)
Lemma create_edges_stmt_edges node cnt depth st vis s st' vis' :
  create_edges_stmt node cnt depth (Some (st, vis)) s = Some (st', vis') ->
  cgraph_edges (graph st') = cgraph_edges (graph (rebuild_edges_stmt node cnt depth st s)).
Proof.
  unfold create_edges_stmt, rebuild_edges_stmt. cbn [bind].
  destruct (get_call_expr_in s) as [call|].
  - destruct (get_callee_fndecl call) as [d|].
    + destruct (cgraph_node_lookup st d) as [s1 ce].
      destruct (walk_record_reference _ (TREE_OPERAND call 1) _ vis) as [[[s3 v3] x3]|] eqn:Ew;
        cbn [bind]; [|discriminate].
      apply walk_record_reference_edges in Ew. cbn in Ew.
      destruct (TREE_CODE s); try (intros [= <- <-]; exact Ew).
      destruct (walk_record_reference _ (TREE_OPERAND s 0) s3 v3) as [[[s4 v4] x4]|] eqn:Ew2;
        cbn [bind]; [|discriminate].
      intros [= <- <-]. apply walk_record_reference_edges in Ew2. cbn in Ew2.
      rewrite Ew2, Ew. reflexivity.
    + destruct (walk_record_reference _ _ st vis) as [[[s3 v3] x3]|] eqn:Ew;
        cbn [bind]; [|discriminate].
      intros [= <- <-]. now apply walk_record_reference_edges in Ew.
  - destruct (walk_record_reference _ _ st vis) as [[[s3 v3] x3]|] eqn:Ew;
      cbn [bind]; [|discriminate].
    intros [= <- <-]. now apply walk_record_reference_edges in Ew.
Qed.

Lemma create_edges_stmts_sites node cnt depth stmts : forall st vis r,
  fold_left (create_edges_stmt node cnt depth) stmts (Some (st, vis)) = Some r ->
  map edge_site (cgraph_edges (graph (fst r))) =
  map edge_site (cgraph_edges (graph st)) ++
  map (fun x => (node, x, cnt, depth)) (filter is_direct_call stmts).
Proof.
  induction stmts as [|s l IH]; intros st vis r; cbn [fold_left].
  - intros [= <-]. cbn. now rewrite app_nil_r.
  - intros Hf.
    destruct (create_edges_stmt node cnt depth (Some (st, vis)) s) as [[st1 vis1]|] eqn:Es.
    2: { rewrite fold_none_stays in Hf; [discriminate|reflexivity]. }
    rewrite (IH _ _ _ Hf), (create_edges_stmt_edges _ _ _ _ _ _ _ _ Es).
    rewrite rebuild_edges_stmt_sites, <- app_assoc. f_equal.
    cbn [filter]. destruct (is_direct_call s); reflexivity.
Qed.

Lemma create_edges_bbs_sites node bbs : forall st vis r,
  fold_left (fun acc bb =>
    fold_left (create_edges_stmt node (bb_count bb) (bb_loop_depth bb))
              (bb_stmts bb) acc) bbs (Some (st, vis)) = Some r ->
  map edge_site (cgraph_edges (graph (fst r))) =
  map edge_site (cgraph_edges (graph st)) ++ direct_call_sites node bbs.
Proof.
  induction bbs as [|bb l IH]; intros st vis r; cbn [fold_left].
  - intros [= <-]. cbn. now rewrite app_nil_r.
  - intros Hf.
    destruct (fold_left (create_edges_stmt node (bb_count bb) (bb_loop_depth bb))
                (bb_stmts bb) (Some (st, vis))) as [[st1 vis1]|] eqn:Es.
    + rewrite (IH _ _ _ Hf). apply create_edges_stmts_sites in Es. cbn in Es.
      rewrite Es, <- app_assoc. reflexivity.
    + exfalso. rewrite fold_none_stays in Hf; [discriminate|].
      intros bb'. apply fold_none_stays. reflexivity.
Qed.

Lemma create_edges_var_edges node vars : forall st vis r,
  fold_left (create_edges_var node) vars (Some (st, vis)) = Some r ->
  cgraph_edges (graph (fst r)) = cgraph_edges (graph st).
Proof.
  induction vars as [|v l IH]; intros st vis r; cbn [fold_left]; [now intros [= <-]|].
  intros Hf.
  destruct (create_edges_var node (Some (st, vis)) v) as [[st1 vis1]|] eqn:Ev.
  2: { rewrite fold_none_stays in Hf; [discriminate|reflexivity]. }
  rewrite (IH _ _ _ Hf). clear IH Hf.
  unfold create_edges_var in Ev. cbn [bind] in Ev.
  destruct (TREE_CODE v); try (injection Ev as <- <-; reflexivity).
  destruct (_ && _ && _).
  - injection Ev as <- <-. apply varpool_finalize_edges.
  - destruct (DECL_INITIAL _) as [init|]; [|injection Ev as <- <-; reflexivity].
    destruct (walk_record_reference _ _ st vis) as [[[s3 v3] x3]|] eqn:Ew;
      cbn [bind] in Ev; [|discriminate].
    injection Ev as <- <-. now apply walk_record_reference_edges in Ew.
Qed.

(** Extra X11: cgraph_create_edges needs the CFG of the body; when it
    succeeds it keeps the existing call edges and appends one edge per direct
    call statement of that CFG, in block and statement order, with the
    block's count and loop depth and the node as caller. Walking operands and
    variable initializers adds no edge. *)
Theorem cgraph_create_edges_sites st node body st' :
  cgraph_create_edges st node body = Some st' ->
  exists sf bbs,
    DECL_STRUCT_FUNCTION (bodies st body) = Some sf /\ cfg sf = Some bbs /\
    map edge_site (cgraph_edges (graph st')) =
      map edge_site (cgraph_edges (graph st)) ++ direct_call_sites node bbs.
Proof.
  unfold cgraph_create_edges.
  destruct (DECL_STRUCT_FUNCTION _) as [sf|]; [|discriminate].
  destruct (cfg sf) as [bbs|] eqn:Ec; [|discriminate].
  destruct (fold_left _ bbs (Some (st, []))) as [[st1 vis1]|] eqn:Ef; cbn [bind];
    [|discriminate].
  apply create_edges_bbs_sites in Ef. cbn in Ef.
  destruct (fold_left (create_edges_var node) _ (Some (st1, vis1))) as [[st2 vis2]|] eqn:Ev;
    cbn [bind]; [|discriminate].
  intros [= <-]. apply create_edges_var_edges in Ev. cbn in Ev |- *.
  exists sf, bbs. split; [reflexivity|]. split; [exact Ec|]. rewrite Ev. exact Ef.
Qed.

End Cgraphunit.

(** * Witnesses *)

Lemma record_reference_cases_witness :
  analyze_expr test_hooks = Some (fun _ _ _ => mk_ae [] [] true None) /\
  record_reference unit_opts test_hooks None empty_state (Tree 7 (EXPR_CODE 250) []) =
    run_analyze_expr empty_state (mk_ae [] [] true None).
Proof.
  split; [reflexivity|].
  apply (proj2 (proj2 (proj2 (proj2
           (record_reference_cases unit_opts test_hooks _ eq_refl))))).
  vm_compute. reflexivity.
Defined.

Lemma cgraph_expand_function_spec_witness :
  exists st', cgraph_expand_function unit_opts test_hooks self_call_state 0 = Some st' /\
              expanded st' = [0].
Proof.
  destruct (cgraph_expand_function unit_opts test_hooks self_call_state 0) as [st'|] eqn:E.
  - exists st'. split; [reflexivity|].
    destruct (proj2 (proj2 (cgraph_expand_function_spec unit_opts test_hooks
                                self_call_state 0)) st' E) as [_ [_ [Hx _]]].
    exact Hx.
  - vm_compute in E. discriminate.
Defined.

Lemma cgraph_assemble_pending_functions_spec_witness :
  flag_unit_at_a_time unit_opts = true /\
  cgraph_assemble_pending_functions unit_opts test_hooks self_call_state =
    Some (self_call_state, false).
Proof.
  split; [reflexivity|].
  apply (proj1 (cgraph_assemble_pending_functions_spec unit_opts test_hooks self_call_state)).
  reflexivity.
Defined.

Lemma cgraph_finalize_function_reset_witness :
  cgraph_hash (graph finalized_self_state) 1 = Some 0 /\
  finalized (local_info (node_of finalized_self_state 0)) = true /\
  cgraph_finalize_function unit_opts test_hooks finalized_self_state 1 false =
    (st1 <- cgraph_reset_node unit_opts finalized_self_state 0 ;;
     finalize_function_rest unit_opts test_hooks st1 0 1 false).
Proof.
  split; [reflexivity|split; [reflexivity|]].
  apply (cgraph_finalize_function_reset unit_opts test_hooks finalized_self_state 1 false 0);
    vm_compute; reflexivity.
Defined.

Lemma cgraph_analyze_function_inline_failed_witness :
  exists st', cgraph_analyze_function unit_opts test_hooks self_call_state 0 = Some st' /\
              inlinable (local_info (node_of st' 0)) = true.
Proof.
  destruct (cgraph_analyze_function unit_opts test_hooks self_call_state 0) as [st'|] eqn:E.
  - exists st'. split; [reflexivity|].
    rewrite (proj1 (cgraph_analyze_function_inline_failed unit_opts test_hooks
                      self_call_state 0 st' E)).
    reflexivity.
  - vm_compute in E. discriminate.
Defined.

Lemma cgraph_build_static_cdtor_spec_witness :
  cgraph_hash (graph empty_state) (next_decl empty_state) = None /\
  exists st', cgraph_build_static_cdtor unit_opts test_hooks empty_state "I"%char
                (Tree 0 (EXPR_CODE 50) []) 65535 = Some st' /\
              DECL_STATIC_CONSTRUCTOR (decls st' 100) = true /\
              TREE_PUBLIC (decls st' 100) = true.
Proof.
  split; [reflexivity|].
  destruct (cgraph_build_static_cdtor unit_opts test_hooks empty_state "I"%char
              (Tree 0 (EXPR_CODE 50) []) 65535) as [st'|] eqn:E.
  - exists st'. split; [reflexivity|].
    destruct (proj2 (cgraph_build_static_cdtor_spec unit_opts test_hooks empty_state "I"%char
                       (Tree 0 (EXPR_CODE 50) []) 65535 (ltac:(vm_compute; reflexivity)))
                st' E) as [_ [Hc [_ [Hp _]]]].
    split; [exact Hc|exact Hp].
  - vm_compute in E. discriminate.
Defined.

Lemma cgraph_expand_all_functions_spec_witness :
  NoDup (cgraph_postorder test_hooks (graph output_self_state)) /\
  exists st', cgraph_expand_all_functions unit_opts test_hooks output_self_state = Some st' /\
              expanded st' = [0].
Proof.
  assert (Hnd : NoDup (cgraph_postorder test_hooks (graph output_self_state))).
  { vm_compute. constructor; [intros []|constructor]. }
  split; [exact Hnd|].
  destruct (cgraph_expand_all_functions unit_opts test_hooks output_self_state) as [st'|] eqn:E.
  - exists st'. split; [reflexivity|].
    destruct (proj2 (cgraph_expand_all_functions_spec unit_opts test_hooks output_self_state)
                st' E) as [_ [_ [_ Hx]]].
    rewrite (Hx Hnd). vm_compute. reflexivity.
  - vm_compute in E. discriminate.
Defined.

Lemma cgraph_reclaim_nodes_spec_witness :
  exists st', cgraph_reclaim_nodes unit_opts self_call_state = Some st' /\
              ~ In 0 (cgraph_nodes (graph st')).
Proof.
  destruct (cgraph_reclaim_nodes unit_opts self_call_state) as [st'|] eqn:E.
  - exists st'. split; [reflexivity|].
    apply (proj1 (proj2 (cgraph_reclaim_nodes_spec unit_opts self_call_state st' E 0
                           (ltac:(vm_compute; left; reflexivity))))).
    + reflexivity.
    + vm_compute. discriminate.
  - vm_compute in E. discriminate.
Defined.

Lemma cgraph_analyze_queue_drain_witness :
  exists st', cgraph_analyze_queue unit_opts test_hooks 10 queued_self_state = Some st' /\
              cgraph_nodes_queue st' = [] /\
              analyze_queue_head unit_opts test_hooks 9 queued_self_state 0 [] <> None.
Proof.
  destruct (cgraph_analyze_queue unit_opts test_hooks 10 queued_self_state) as [st'|] eqn:E.
  - exists st'. split; [reflexivity|split].
    + exact (proj1 (cgraph_analyze_queue_drain unit_opts test_hooks) _ _ _ E).
    + vm_compute. discriminate.
  - vm_compute in E. discriminate.
Defined.

Lemma output_flag_invariant_witness :
  exists st', cgraph_mark_functions_to_output ready_self_state = Some st' /\
              output (node_of st' 0) = true /\
              reachable (node_of st' 0) = true /\ analyzed (node_of st' 0) = true /\
              finalized (local_info (node_of st' 0)) = true /\
              DECL_EXTERNAL (attrs_of st' 0) = false /\
              inlined_to (global_info (node_of st' 0)) = None.
Proof.
  destruct (cgraph_mark_functions_to_output ready_self_state) as [st'|] eqn:E.
  - assert (Ho : output (node_of st' 0) = true).
    { revert E. vm_compute. intros [= <-]. reflexivity. }
    assert (Hin : In 0 (cgraph_nodes (graph st'))).
    { revert E. vm_compute. intros [= <-]. left. reflexivity. }
    exists st'. split; [reflexivity|split; [exact Ho|]].
    apply (proj1 (output_flag_invariant unit_opts test_hooks) ready_self_state st');
      [|exact E|exact Hin|exact Ho].
    intros n [<-|[]]. vm_compute.
    split; [reflexivity|split; [intros _; reflexivity|intros _ _ _; split; reflexivity]].
  - vm_compute in E. discriminate.
Defined.

(** * Counterexample *)

(** Under -fno-inline, analyzing a function whose body
    tree_inlinable_function_p accepts leaves the node not inlinable (the
    -fno-inline override clears the flag after the reasons are seeded),
    yet the edge calling it carries "function not considered for inlining",
    not "function not inlinable". *)
Lemma cgraph_analyze_function_noinline_counterexample :
  exists st' e,
    cgraph_analyze_function noinline_opts test_hooks self_call_state 0 = Some st' /\
    In e (cgraph_edges (graph st')) /\ callee e = 0 /\
    redefined_extern_inline (local_info (node_of st' 0)) = false /\
    inlinable (local_info (node_of st' 0)) = false /\
    inline_failed e = Some NOT_CONSIDERED_REASON /\
    NOT_CONSIDERED_REASON <> NOT_INLINABLE_REASON.
Proof.
  do 2 eexists. split; [vm_compute; reflexivity|].
  split; [vm_compute; left; reflexivity|].
  split; [reflexivity|split; [vm_compute; reflexivity|split; [vm_compute; reflexivity|]]].
  split; [reflexivity|]. vm_compute. discriminate.
Qed.

Lemma rebuild_cgraph_edges_spec_witness :
  exists st',
    rebuild_cgraph_edges test_hooks
      (st_set_current_function_decl self_call_state (Some 1)) = Some st' /\
    map edge_site (cgraph_edges (graph st')) = [(0, call_stmt_to 10 1, 1%Z, 0)].
Proof.
  destruct (rebuild_cgraph_edges test_hooks
              (st_set_current_function_decl self_call_state (Some 1))) as [st'|] eqn:E.
  - exists st'. split; [reflexivity|].
    destruct (rebuild_cgraph_edges_spec test_hooks _ st' E)
      as (cfd & sf & bbs & Ecfd & Esf & Ec & Hs & _).
    injection Ecfd as <-. vm_compute in Esf. injection Esf as <-.
    vm_compute in Ec. injection Ec as <-.
    rewrite Hs. vm_compute. reflexivity.
  - vm_compute in E. discriminate.
Defined.

Lemma cgraph_varpool_analyze_pending_decls_spec_witness :
  exists st' changed,
    cgraph_varpool_analyze_pending_decls unit_opts test_hooks 1
      (st_set_varpool_unanalyzed empty_state [5]) = Some (st', changed) /\
    changed = true /\ v_analyzed (varpool st' 5) = true.
Proof.
  destruct (cgraph_varpool_analyze_pending_decls unit_opts test_hooks 1
              (st_set_varpool_unanalyzed empty_state [5])) as [[st' ch]|] eqn:E.
  - exists st', ch. split; [reflexivity|].
    destruct (cgraph_varpool_analyze_pending_decls_spec unit_opts test_hooks
                1 _ st' ch E) as (_ & Hch & Ha).
    split; [apply Hch; discriminate|apply Ha; left; left; reflexivity].
  - vm_compute in E. discriminate.
Defined.

Lemma cgraph_varpool_assemble_pending_decls_spec_witness :
  exists st' changed log,
    cgraph_varpool_assemble_pending_decls unit_opts test_hooks
      (fun b d => upd b d (set_asm_written (b d))) false 1
      (st_set_varpool_queue empty_state [5]) = Some (st', changed, log) /\
    cgraph_varpool_nodes_queue st' = [] /\ (changed = true <-> log <> []).
Proof.
  destruct (cgraph_varpool_assemble_pending_decls unit_opts test_hooks
              (fun b d => upd b d (set_asm_written (b d))) false 1
              (st_set_varpool_queue empty_state [5])) as [[[st' ch] log]|] eqn:E.
  - exists st', ch, log. split; [reflexivity|].
    destruct (proj2 (cgraph_varpool_assemble_pending_decls_spec unit_opts test_hooks _
                       false 1 _ st' ch log E) eq_refl)
      as (st1 & b & _ & _ & Hq & _ & _ & _ & _ & Hch & _).
    split; [exact Hq|exact Hch].
  - vm_compute in E. discriminate.
Defined.

Lemma cgraph_function_visibility_spec_witness :
  exists st',
    NoDup (cgraph_nodes (graph ready_self_state)) /\
    cgraph_function_visibility unit_opts ready_self_state = Some st' /\
    externally_visible (local_info (node_of st' 0)) = false /\
    local (local_info (node_of st' 0)) = false.
Proof.
  assert (Hnd : NoDup (cgraph_nodes (graph ready_self_state)))
    by (constructor; [intros []|constructor]).
  destruct (cgraph_function_visibility unit_opts ready_self_state) as [st'|] eqn:E.
  - exists st'. split; [exact Hnd|]. split; [reflexivity|].
    destruct (cgraph_function_visibility_spec unit_opts ready_self_state st' Hnd E)
      as [A1 Hs].
    destruct (Hs 0 (or_introl eq_refl)) as (Hv & Hl & _).
    rewrite Hv. split; [vm_compute; reflexivity|]. rewrite Hl, (A1 0).
    vm_compute. reflexivity.
  - vm_compute in E. discriminate.
Defined.

Lemma cgraph_function_visibility_fails_witness :
  let st := st_set_decls (update_node self_call_state 0 (fun nd => n_set_analyzed nd true))
                         (fun _ => a_set_public plain_attrs true) in
  NoDup (cgraph_nodes (graph st)) /\ cgraph_function_visibility unit_opts st = None.
Proof.
  intros st.
  assert (Hnd : NoDup (cgraph_nodes (graph st)))
    by (constructor; [intros []|constructor]).
  split; [exact Hnd|].
  apply (proj2 (cgraph_function_visibility_fails unit_opts st Hnd)).
  exists 0. split; [left; reflexivity|].
  repeat split; reflexivity.
Defined.

Lemma cgraph_mark_functions_to_output_exact_witness :
  NoDup (cgraph_nodes (graph ready_self_state)) /\
  exists st', cgraph_mark_functions_to_output ready_self_state = Some st' /\
              output (node_of st' 0) = true.
Proof.
  assert (Hnd : NoDup (cgraph_nodes (graph ready_self_state)))
    by (constructor; [intros []|constructor]).
  split; [exact Hnd|].
  destruct (cgraph_mark_functions_to_output ready_self_state) as [st'|] eqn:E.
  - exists st'. split; [reflexivity|].
    rewrite (proj2 (cgraph_mark_functions_to_output_exact ready_self_state Hnd) st' E 0
               (or_introl eq_refl)).
    vm_compute. reflexivity.
  - vm_compute in E. discriminate.
Defined.


Lemma decide_is_function_needed_spec_witness :
  snd (decide_is_function_needed unit_opts test_hooks ready_self_state 0 1) = true.
Proof.
  pose proof (decide_is_function_needed_spec unit_opts test_hooks ready_self_state 0 1) as Hs.
  destruct (decide_is_function_needed unit_opts test_hooks ready_self_state 0 1) as [st' b].
  destruct Hs as (_ & Hn & _). exact (Hn eq_refl).
Defined.

Lemma cgraph_finalize_compilation_unit_drained_witness :
  exists st',
    cgraph_finalize_compilation_unit unit_opts test_hooks 5
      (st_set_queue (update_node finalized_self_state 0
                       (fun nd => n_set_reachable nd true)) [0]) = Some st' /\
    cgraph_nodes_queue st' = [] /\ cgraph_varpool_first_unanalyzed_node st' = [].
Proof.
  destruct (cgraph_finalize_compilation_unit unit_opts test_hooks 5
              (st_set_queue (update_node finalized_self_state 0
                               (fun nd => n_set_reachable nd true)) [0])) as [st'|] eqn:E.
  - exists st'. split; [reflexivity|].
    destruct (cgraph_finalize_compilation_unit_drained unit_opts test_hooks 5 _ st' E)
      as [Hq Hu].
    split; [exact Hq|exact (proj1 (Hu eq_refl))].
  - vm_compute in E. discriminate.
Defined.

Lemma cgraph_finalize_function_unit_witness :
  exists st',
    cgraph_finalize_function unit_opts test_hooks self_call_state 1 false = Some st' /\
    finalized (local_info (node_of st' 0)) = true /\ lowered (node_of st' 0) = true.
Proof.
  destruct (cgraph_finalize_function unit_opts test_hooks self_call_state 1 false)
    as [st'|] eqn:E.
  - exists st'. split; [reflexivity|].
    destruct (cgraph_finalize_function_unit unit_opts test_hooks self_call_state 1 false
                self_call_state 0 st' eq_refl eq_refl eq_refl eq_refl E)
      as (sf & Esf & _ & Hf & Hl & _).
    vm_compute in Esf. injection Esf as <-.
    split; [exact Hf|rewrite Hl; reflexivity].
  - vm_compute in E. discriminate.
Defined.

Lemma cgraph_create_edges_sites_witness :
  exists st',
    cgraph_create_edges unit_opts test_hooks self_call_state 0 1 = Some st' /\
    map edge_site (cgraph_edges (graph st')) = [(0, call_stmt_to 10 1, 1%Z, 0)].
Proof.
  destruct (cgraph_create_edges unit_opts test_hooks self_call_state 0 1)
    as [st'|] eqn:E.
  - exists st'. split; [reflexivity|].
    destruct (cgraph_create_edges_sites unit_opts test_hooks _ _ _ st' E)
      as (sf & bbs & Esf & Ec & Hs).
    vm_compute in Esf. injection Esf as <-.
    vm_compute in Ec. injection Ec as <-.
    rewrite Hs. vm_compute. reflexivity.
  - vm_compute in E. discriminate.
Defined.
